(** * Keyword Density Analyzer: a shallow embedding of the
      [analyze-keyword-density] edge function and its properties.

    The handler receives a request, fetches the page named by [url],
    strips the markup with four regular-expression replacements, trims,
    lowercases, splits on white space, counts the words longer than three
    code units in a plain object, ranks them and answers with JSON.

    Strings are sequences of UTF-16 code units, as in the source language.
    The regular expressions are kept as syntax and run by a backtracking
    matcher, so that the replacement pipeline is the one the source writes.
    The calls to [console.log] and [console.error] are left out. *)

From Stdlib Require Import String Ascii.
From Stdlib Require Import List Sorted Permutation NArith ZArith QArith Qround Bool Lia Arith.
Import ListNotations.

Local Open Scope nat_scope.

(** ** Strings of UTF-16 code units *)

Definition char16 := N.
Definition jsstring := list char16.

(** An ASCII literal as a [jsstring]. *)
Definition str (s : string) : jsstring :=
  map N_of_ascii (list_ascii_of_string s).

Fixpoint jsstring_eqb (a b : jsstring) : bool :=
  match a, b with
  | [], [] => true
  | x :: a', y :: b' => N.eqb x y && jsstring_eqb a' b'
  | _, _ => false
  end.

(** [\s] of the regular expressions, which is also the set [trim] strips:
    WhiteSpace and LineTerminator of ECMAScript. *)
Definition is_space (c : char16) : bool :=
  ((0x09 <=? c) && (c <=? 0x0D) || (c =? 0x20) || (c =? 0xA0)
   || (c =? 0x1680) || ((0x2000 <=? c) && (c <=? 0x200A))
   || (c =? 0x2028) || (c =? 0x2029) || (c =? 0x202F) || (c =? 0x205F)
   || (c =? 0x3000) || (c =? 0xFEFF))%N.

(** ** Regular expressions: the fragment the handler uses *)

Module Regex.

Inductive class_item :=
| CChar (c : char16)       (* a literal member *)
| CSpace                   (* \s *)
| CNonSpace.               (* \S *)

Inductive atom :=
| Chr (c : char16)                              (* a pattern character *)
| Cls (negated : bool) (items : list class_item). (* [...] and [^...] *)

Inductive term :=
| One (a : atom)                                (* a      *)
| Rep (a : atom) (min : nat) (greedy : bool).   (* a* a+ a*? a+? *)

(** A pattern is a concatenation of terms. *)
Definition pattern := list term.

Record regexp := RegExp
  { source : pattern;
    ignoreCase : bool }.

(** Canonicalize of the [i] flag without the [u] flag: the upper-case
    mapping of the code unit, except that a code unit from 128 up is never
    mapped below 128.  Every pattern character of this program is ASCII, so
    only the ASCII part of the mapping can decide a comparison; code units
    from 128 up are left as they are. *)
Definition canonicalize (ic : bool) (c : char16) : char16 :=
  if ic && (0x61 <=? c)%N && (c <=? 0x7A)%N then (c - 0x20)%N else c.

Section Matcher.
Variable ic : bool.

Definition item_matches (i : class_item) (c : char16) : bool :=
  match i with
  | CChar x => N.eqb (canonicalize ic x) (canonicalize ic c)
  | CSpace => is_space c
  | CNonSpace => negb (is_space c)
  end.

Definition atom_matches (a : atom) (c : char16) : bool :=
  match a with
  | Chr x => N.eqb (canonicalize ic x) (canonicalize ic c)
  | Cls negated items => xorb negated (existsb (fun i => item_matches i c) items)
  end.

(** [a{min,}] followed by the continuation [k], with backtracking: the
    greedy form tries one more repetition before it tries [k], the lazy
    form tries [k] first. *)
Fixpoint rep_match (a : atom) (k : jsstring -> option jsstring)
         (min : nat) (greedy : bool) (s : jsstring) {struct s}
  : option jsstring :=
  match min with
  | S m =>
      match s with
      | c :: s' => if atom_matches a c then rep_match a k m greedy s' else None
      | [] => None
      end
  | O =>
      if greedy then
        match s with
        | c :: s' =>
            if atom_matches a c then
              match rep_match a k O greedy s' with
              | Some r => Some r
              | None => k s
              end
            else k s
        | [] => k s
        end
      else
        match k s with
        | Some r => Some r
        | None =>
            match s with
            | c :: s' => if atom_matches a c then rep_match a k O greedy s' else None
            | [] => None
            end
        end
  end.

(** The pattern matched at the start of [s]: the text after the match. *)
Fixpoint match_here (p : pattern) (s : jsstring) : option jsstring :=
  match p with
  | [] => Some s
  | One a :: p' =>
      match s with
      | c :: s' => if atom_matches a c then match_here p' s' else None
      | [] => None
      end
  | Rep a min greedy :: p' => rep_match a (match_here p') min greedy s
  end.
End Matcher.

Definition exec_at (r : regexp) (s : jsstring) : option jsstring :=
  match_here (ignoreCase r) (source r) s.

(** [String.prototype.replace] with a global pattern and a replacement
    without [$]: the matches are looked for from left to right, each search
    starting where the previous match ended; an empty match advances by
    one code unit.  [fuel] bounds the number of steps; [replace] gives
    enough of it. *)
Fixpoint replace_loop (fuel : nat) (r : regexp) (by_ : jsstring) (s : jsstring)
  : jsstring :=
  match fuel with
  | O => s
  | S fuel' =>
      match s with
      | [] => match exec_at r [] with Some _ => by_ | None => [] end
      | c :: t =>
          match exec_at r s with
          | Some rest =>
              if length rest <? length s
              then by_ ++ replace_loop fuel' r by_ rest
              else by_ ++ c :: replace_loop fuel' r by_ t
          | None => c :: replace_loop fuel' r by_ t
          end
      end
  end.

Definition replace (r : regexp) (by_ : jsstring) (s : jsstring) : jsstring :=
  replace_loop (S (length s)) r by_ s.

(** [String.prototype.split] with a pattern and no limit. [piece] is the
    text between the end of the last separator and the current position. *)
Fixpoint split_loop (fuel : nat) (r : regexp) (piece : jsstring) (s : jsstring)
  : list jsstring :=
  match fuel with
  | O => [piece ++ s]
  | S fuel' =>
      match s with
      | [] => [piece]
      | c :: t =>
          match exec_at r s with
          | Some rest =>
              if (length rest =? length s) && (length piece =? 0)
              then split_loop fuel' r (piece ++ [c]) t
              else piece :: split_loop fuel' r [] rest
          | None => split_loop fuel' r (piece ++ [c]) t
          end
      end
  end.

Definition split (r : regexp) (s : jsstring) : list jsstring :=
  match s with
  | [] => match exec_at r [] with Some _ => [] | None => [[]] end
  | _ => split_loop (S (2 * length s)) r [] s
  end.

End Regex.

Import Regex.

(** The least number of code units a match of the pattern takes. *)
Definition min_length (p : pattern) : nat :=
  fold_right (fun t n => match t with One _ => 1 | Rep _ m _ => m end + n) 0 p.

(** [k] answers with a later part of its text, at least [n] code units on. *)
Definition consumes (n : nat) (k : jsstring -> option jsstring) : Prop :=
  forall s r, k s = Some r -> exists pre, s = pre ++ r /\ n <= length pre.

(** The literal characters of a pattern. *)
Definition lit (s : string) : pattern := map (fun c => One (Chr c)) (str s).

Definition ch_gt : char16 := 0x3E%N.
Definition ch_lt : char16 := 0x3C%N.
Definition space : char16 := 0x20%N.

Definition not_gt : atom := Cls true [CChar ch_gt].        (* [^>]    *)
Definition anything : atom := Cls false [CSpace; CNonSpace]. (* [\s\S]  *)
Definition white : atom := Cls false [CSpace].          (* \s      *)

(** /<style[^>]*>[\s\S]*?<\/style>/gi *)
Definition re_style : regexp :=
  RegExp (lit "<style" ++ [Rep not_gt 0 true; One (Chr ch_gt); Rep anything 0 false]
          ++ lit "</style>") true.

(** /<script[^>]*>[\s\S]*?<\/script>/gi *)
Definition re_script : regexp :=
  RegExp (lit "<script" ++ [Rep not_gt 0 true; One (Chr ch_gt); Rep anything 0 false]
          ++ lit "</script>") true.

(** /<[^>]+>/g *)
Definition re_tag : regexp :=
  RegExp [One (Chr ch_lt); Rep not_gt 1 true; One (Chr ch_gt)] false.

(** /\s+/g *)
Definition re_spaces : regexp :=
  RegExp [Rep white 1 true] false.

(** [String.prototype.trim]. *)
Fixpoint trimStart (s : jsstring) : jsstring :=
  match s with
  | c :: t => if is_space c then trimStart t else s
  | [] => []
  end.

Definition trimEnd (s : jsstring) : jsstring := rev (trimStart (rev s)).

Definition trim (s : jsstring) : jsstring := trimEnd (trimStart s).

(** ** The platform

    [toLowerCase] is the Unicode lower-casing of the engine, and
    [corsHeaders] is imported from [../_shared/cors.ts]; neither is part of
    the handler's file.  They are taken as given, with what the development
    uses of the lower-casing: on ASCII text it maps [A-Z] to [a-z] and
    nothing else, and it leaves a text that does not start or end with white
    space that way. *)

Definition is_ascii (c : char16) : bool := (c <? 0x80)%N.

Definition ascii_lower (c : char16) : char16 :=
  if ((0x41 <=? c) && (c <=? 0x5A))%N then (c + 0x20)%N else c.

Definition headers := list (jsstring * jsstring).

Class Runtime := {
  toLowerCase : jsstring -> jsstring;
  corsHeaders : headers;
  toLowerCase_ascii :
    forall s, forallb is_ascii s = true -> toLowerCase s = map ascii_lower s;
  toLowerCase_trimmed :
    forall s, trim s = s -> trim (toLowerCase s) = toLowerCase s
}.

(** ** Values and numbers of the language *)

(** Numbers: the finite ones are kept exact (the source computes in
    binary64, which holds every count exactly and rounds the density). *)
Inductive number :=
| Num (q : Q)
| Infinity (negative : bool)
| NaN.

Inductive value :=
| VUndefined
| VNumber (n : Z)
| VString (s : jsstring)
| VFunction (name : jsstring).     (* a built-in function object *)

Definition is_digit (c : char16) : bool := ((0x30 <=? c) && (c <=? 0x39))%N.

Definition digits_value (s : jsstring) : Z :=
  fold_left (fun acc c => (10 * acc + Z.of_N (c - 0x30))%Z) s 0%Z.

(** StringToNumber on the texts this program can hand to it: white space
    around the text is dropped, the empty text is 0, a run of decimal digits
    is its value and a text that starts with a letter other than [I] is not
    a number.  (Signs, fractions, exponents, other radices and [Infinity]
    are not read; no text of those shapes is ever produced here.) *)
Definition string_to_number (s : jsstring) : number :=
  match trim s with
  | [] => Num 0
  | t => if forallb is_digit t then Num (inject_Z (digits_value t)) else NaN
  end.

(** The source text of a built-in function, which is what it becomes when a
    string is added to it. *)
Definition function_source (name : jsstring) : jsstring :=
  str "function " ++ name ++ str "() { [native code] }".

Definition to_number (v : value) : number :=
  match v with
  | VUndefined => NaN
  | VNumber n => Num (inject_Z n)
  | VString s => string_to_number s
  | VFunction _ => NaN
  end.

Definition number_div (a b : number) : number :=
  match a, b with
  | NaN, _ | _, NaN => NaN
  | Infinity _, Infinity _ => NaN
  | Infinity n, Num y => Infinity (xorb n (if Qlt_le_dec y 0 then true else false))
  | Num _, Infinity _ => Num 0
  | Num x, Num y =>
      if Qeq_bool y 0
      then (if Qeq_bool x 0 then NaN else Infinity (if Qlt_le_dec x 0 then true else false))
      else Num (x / y)
  end.

Definition number_mul (a b : number) : number :=
  match a, b with
  | NaN, _ | _, NaN => NaN
  | Infinity n, Infinity m => Infinity (xorb n m)
  | Infinity n, Num y | Num y, Infinity n =>
      if Qeq_bool y 0 then NaN
      else Infinity (xorb n (if Qlt_le_dec y 0 then true else false))
  | Num x, Num y => Num (x * y)
  end.

Definition number_sub (a b : number) : number :=
  match a, b with
  | NaN, _ | _, NaN => NaN
  | Infinity n, Infinity m => if Bool.eqb n m then NaN else Infinity n
  | Infinity n, Num _ => Infinity n
  | Num _, Infinity m => Infinity (negb m)
  | Num x, Num y => Num (x - y)
  end.

(** [a >= b] on numbers: false as soon as one side is not a number. *)
Definition number_ge (a b : number) : bool :=
  match a, b with
  | NaN, _ | _, NaN => false
  | Infinity n, Infinity m => negb n || m
  | Infinity n, Num _ => negb n
  | Num _, Infinity m => m
  | Num x, Num y => Qle_bool y x
  end.

Definition value_ge (a b : value) : bool := number_ge (to_number a) (to_number b).

(** ** Plain objects used as maps *)

(** The properties every plain object inherits from [Object.prototype] in
    the Deno runtime (which removes [__proto__]): each is a built-in
    function; the second component is the function's name. *)
Definition Object_prototype : list (jsstring * jsstring) :=
  [ (str "constructor", str "Object");
    (str "__defineGetter__", str "__defineGetter__");
    (str "__defineSetter__", str "__defineSetter__");
    (str "hasOwnProperty", str "hasOwnProperty");
    (str "__lookupGetter__", str "__lookupGetter__");
    (str "__lookupSetter__", str "__lookupSetter__");
    (str "isPrototypeOf", str "isPrototypeOf");
    (str "propertyIsEnumerable", str "propertyIsEnumerable");
    (str "toString", str "toString");
    (str "valueOf", str "valueOf");
    (str "toLocaleString", str "toLocaleString") ].

(** Own properties, in the order of their creation. *)
Definition object := list (jsstring * value).

Fixpoint lookup {A} (k : jsstring) (l : list (jsstring * A)) : option A :=
  match l with
  | [] => None
  | (k', v) :: l' => if jsstring_eqb k k' then Some v else lookup k l'
  end.

(** [o[k]]: the own property, else the inherited one, else undefined. *)
Definition Get (o : object) (k : jsstring) : value :=
  match lookup k o with
  | Some v => v
  | None =>
      match lookup k Object_prototype with
      | Some name => VFunction name
      | None => VUndefined
      end
  end.

(** [o[k] = v]: an own property keeps its place, a new one is created last. *)
Fixpoint Set_ (o : object) (k : jsstring) (v : value) : object :=
  match o with
  | [] => [(k, v)]
  | (k', v') :: o' =>
      if jsstring_eqb k k' then (k', v) :: o' else (k', v') :: Set_ o' k v
  end.

(** An array index: the canonical decimal text of an integer below 2^32 - 1. *)
Definition array_index (k : jsstring) : option N :=
  match k with
  | [] => None
  | c :: t =>
      if forallb is_digit k && (negb (c =? 0x30)%N || (length t =? 0)) then
        let n := Z.to_N (digits_value k) in
        if (n <? 4294967295)%N then Some n else None
      else None
  end.

Fixpoint insert_index {A} (n : N) (x : A) (l : list (N * A)) : list (N * A) :=
  match l with
  | [] => [(n, x)]
  | (m, y) :: l' => if (n <=? m)%N then (n, x) :: l else (m, y) :: insert_index n x l'
  end.

Definition index_entries (o : object) : list (N * (jsstring * value)) :=
  fold_right (fun e acc =>
                match array_index (fst e) with
                | Some n => insert_index n e acc
                | None => acc
                end) [] o.

Definition is_index_key (e : jsstring * value) : bool :=
  match array_index (fst e) with Some _ => true | None => false end.

(** [Object.entries]: the array-index keys in ascending numeric order, then
    the other keys in the order of their creation. *)
Definition Object_entries (o : object) : list (jsstring * value) :=
  map snd (index_entries o) ++ filter (fun e => negb (is_index_key e)) o.

(** [(v || 0) + 1]: undefined, 0 and the empty string give way to 0; a
    string or a function operand makes [+] a concatenation. *)
Definition or_zero_plus_one (v : value) : value :=
  match v with
  | VUndefined => VNumber 1
  | VNumber n => VNumber (n + 1)
  | VString [] => VNumber 1
  | VString s => VString (s ++ str "1")
  | VFunction name => VString (function_source name ++ str "1")
  end.

(** ** Array.prototype.sort *)

(** The sort is stable and puts [a] before [b] when the comparator's result
    is negative, after when it is positive; a result that is not a number
    counts as zero.  Modelled as a stable insertion sort (with a comparator
    that is not consistent the order is implementation-defined). *)
Definition comparator_positive (n : number) : bool :=
  match n with
  | Num q => if Qlt_le_dec 0 q then true else false
  | Infinity negative => negb negative
  | NaN => false
  end.

Section Sort.
Context {A : Type} (cmp : A -> A -> number).

Fixpoint insert_sorted (x : A) (l : list A) : list A :=
  match l with
  | [] => [x]
  | y :: l' =>
      if comparator_positive (cmp x y) then y :: insert_sorted x l' else x :: l
  end.

Fixpoint sort (l : list A) : list A :=
  match l with
  | [] => []
  | x :: l' => insert_sorted x (sort l')
  end.
End Sort.

(** ** The analysis (the body of the [try] block after the fetch) *)

Record KeywordDensity := mkKeywordDensity
  { keyword : jsstring;
    count : value;
    density : number }.

Record AnalysisResult := mkAnalysisResult
  { keywordDensity : list KeywordDensity;
    totalWords : nat }.

Section Analysis.
Context `{Runtime}.

Definition visibleText (html : jsstring) : jsstring :=
  toLowerCase
    (trim
       (replace re_spaces [space]
          (replace re_tag [space]
             (replace re_script []
                (replace re_style [] html))))).

Definition words (html : jsstring) : list jsstring :=
  split re_spaces (visibleText html).

(** One step of the [forEach]. *)
Definition count_word (wordFrequency : object) (word : jsstring) : object :=
  if 3 <? length word
  then Set_ wordFrequency word (or_zero_plus_one (Get wordFrequency word))
  else wordFrequency.

Definition wordFrequency (ws : list jsstring) : object :=
  fold_left count_word ws [].

Definition density_of (count : value) (totalWords : nat) : number :=
  number_mul (number_div (to_number count) (Num (inject_Z (Z.of_nat totalWords))))
             (Num 100).

Definition by_count_desc (a b : KeywordDensity) : number :=
  number_sub (to_number (count b)) (to_number (count a)).

Definition rank (freq : object) (totalWords : nat) : list KeywordDensity :=
  firstn 20
    (sort by_count_desc
       (map (fun e => mkKeywordDensity (fst e) (snd e) (density_of (snd e) totalWords))
            (Object_entries freq))).

Definition analyze (html : jsstring) : AnalysisResult :=
  let ws := words html in
  let total := length ws in
  mkAnalysisResult (rank (wordFrequency ws) total) total.
End Analysis.

(** ** The request handler *)

(** A parsed JSON text. *)
#[local] Unset Elimination Schemes.
Inductive json :=
| JNull
| JBool (b : bool)
| JNumber (q : Q)
| JString (s : jsstring)
| JArray (items : list json)
| JObject (fields : list (jsstring * json)).
#[local] Set Elimination Schemes.

(** What an [await] gives: a value, or a rejection with an [Error] whose
    [message] is what the [catch] clause reads. *)
Inductive awaited (A : Type) :=
| Resolved (a : A)
| Rejected (message : jsstring).
Arguments Resolved {A} a.
Arguments Rejected {A} message.

Record FetchResponse := mkFetchResponse
  { ok : bool;
    statusText : jsstring;
    text : awaited jsstring }.

Record Request := mkRequest
  { method : jsstring;
    body_json : awaited json }.         (* the outcome of [req.json()] *)

Inductive ResponseBody :=
| BodyText (s : jsstring)
| BodyError (message : jsstring)        (* JSON.stringify({ error }) *)
| BodyResult (r : AnalysisResult).      (* JSON.stringify({ keywordDensity, totalWords }) *)

(** The arguments of [new Response]. *)
Record Response := mkResponse
  { body : ResponseBody;
    response_headers : headers;
    status : nat }.

(** The last field of that name wins in a parsed object. *)
Fixpoint field (k : jsstring) (fields : list (jsstring * json)) : option json :=
  match fields with
  | [] => None
  | (k', v) :: fields' =>
      match field k fields' with
      | Some v' => Some v'
      | None => if jsstring_eqb k k' then Some v else None
      end
  end.

Definition destructure_null_message : jsstring :=
  str "Cannot destructure property 'url' of '(intermediate value)' as it is null.".

(** [const { url } = ...]: [None] is undefined; destructuring null throws. *)
Definition destructure_url (v : json) : awaited (option json) :=
  match v with
  | JNull => Rejected destructure_null_message
  | JObject fields => Resolved (field (str "url") fields)
  | _ => Resolved None
  end.

(** [!url] *)
Definition falsy (url : option json) : bool :=
  match url with
  | None => true
  | Some JNull => true
  | Some (JBool b) => negb b
  | Some (JNumber q) => Qeq_bool q 0
  | Some (JString s) => match s with [] => true | _ => false end
  | Some _ => false
  end.

(** [{ ...headers, [name]: v }] *)
Fixpoint with_header (hs : headers) (name v : jsstring) : headers :=
  match hs with
  | [] => [(name, v)]
  | (n, v') :: hs' =>
      if jsstring_eqb name n then (n, v) :: hs' else (n, v') :: with_header hs' name v
  end.

Section Handler.
Context `{Runtime}.

(** [fetch], as the network answers it. *)
Variable fetch : json -> awaited FetchResponse.

Definition bind {A B} (x : awaited A) (f : A -> awaited B) : awaited B :=
  match x with
  | Resolved a => f a
  | Rejected m => Rejected m
  end.

(** The [try] block: the result, or the message of what was thrown. *)
Definition try_block (req : Request) : awaited AnalysisResult :=
  bind (body_json req) (fun parsed =>
  bind (destructure_url parsed) (fun url =>
  if falsy url then Rejected (str "URL is required") else
  match url with
  | None => Rejected (str "URL is required")
  | Some u =>
      bind (fetch u) (fun response =>
      if negb (ok response)
      then Rejected (str "Failed to fetch URL: " ++ statusText response)
      else bind (text response) (fun html => Resolved (analyze html)))
  end)).

Definition json_headers : headers :=
  with_header corsHeaders (str "Content-Type") (str "application/json").

Definition handler (req : Request) : Response :=
  if jsstring_eqb (method req) (str "OPTIONS")
  then mkResponse (BodyText (str "ok")) corsHeaders 200
  else
    match try_block req with
    | Resolved r => mkResponse (BodyResult r) json_headers 200
    | Rejected message => mkResponse (BodyError message) json_headers 500
    end.
End Handler.

(** The text of [JSON.stringify({ error: message })]. *)
Definition dquote : char16 := 0x22%N.
Definition backslash : char16 := 0x5C%N.

Definition hex_digit (n : N) : char16 :=
  if (n <? 10)%N then (0x30 + n)%N else (0x61 + (n - 10))%N.

Definition unicode_escape (c : char16) : jsstring :=
  [backslash; 0x75%N;
   hex_digit (c / 4096); hex_digit ((c / 256) mod 16);
   hex_digit ((c / 16) mod 16); hex_digit (c mod 16)]%N.

Definition is_surrogate_lead (c : char16) : bool := ((0xD800 <=? c) && (c <=? 0xDBFF))%N.
Definition is_surrogate_trail (c : char16) : bool := ((0xDC00 <=? c) && (c <=? 0xDFFF))%N.

(** QuoteJSONString without the surrounding quotes. *)
Fixpoint json_escape (s : jsstring) : jsstring :=
  match s with
  | [] => []
  | c :: t =>
      if (c =? 0x08)%N then backslash :: 0x62%N :: json_escape t
      else if (c =? 0x09)%N then backslash :: 0x74%N :: json_escape t
      else if (c =? 0x0A)%N then backslash :: 0x6E%N :: json_escape t
      else if (c =? 0x0C)%N then backslash :: 0x66%N :: json_escape t
      else if (c =? 0x0D)%N then backslash :: 0x72%N :: json_escape t
      else if (c =? dquote)%N || (c =? backslash)%N then backslash :: c :: json_escape t
      else if (c <? 0x20)%N then unicode_escape c ++ json_escape t
      else if is_surrogate_lead c then
        match t with
        | d :: t' =>
            if is_surrogate_trail d then c :: d :: json_escape t'
            else unicode_escape c ++ json_escape t
        | [] => unicode_escape c
        end
      else if is_surrogate_trail c then unicode_escape c ++ json_escape t
      else c :: json_escape t
  end.

Definition stringify_error (message : jsstring) : jsstring :=
  str "{" ++ [dquote] ++ str "error" ++ [dquote] ++ str ":"
      ++ [dquote] ++ json_escape message ++ [dquote] ++ str "}".

(** ** The normalization as the specification words it *)

Module Spec.

(** Two code units that are the same up to the case of an ASCII letter. *)
Definition same_letter (a b : char16) : bool :=
  N.eqb (ascii_lower a) (ascii_lower b).

(** [w] at the start of [s], case-insensitively: the text after it. *)
Fixpoint starts_with_ci (w s : jsstring) : option jsstring :=
  match w, s with
  | [], _ => Some s
  | a :: w', c :: s' => if same_letter a c then starts_with_ci w' s' else None
  | _ :: _, [] => None
  end.

(** The text after the first [>]. *)
Fixpoint after_gt (s : jsstring) : option jsstring :=
  match s with
  | [] => None
  | c :: t => if N.eqb c ch_gt then Some t else after_gt t
  end.

(** The text after the first occurrence of [w], case-insensitively. *)
Fixpoint after_first_ci (w s : jsstring) : option jsstring :=
  match starts_with_ci w s with
  | Some r => Some r
  | None =>
      match s with
      | [] => None
      | _ :: t => after_first_ci w t
      end
  end.

Definition slash : char16 := 0x2F%N.

(** A [<name ...> ... </name>] block at the start of [s]: the opening
    tag runs to the first [>], the block to the first closing tag after
    it, on whatever line that is.  The result is the text after the block. *)
Definition block (name : jsstring) (s : jsstring) : option jsstring :=
  match starts_with_ci (ch_lt :: name) s with
  | Some r1 =>
      match after_gt r1 with
      | Some r2 => after_first_ci (ch_lt :: slash :: name ++ [ch_gt]) r2
      | None => None
      end
  | None => None
  end.

(** A tag at the start of [s]: [<], something, and the first [>]. *)
Definition tag (s : jsstring) : option jsstring :=
  match s with
  | c :: d :: t =>
      if N.eqb c ch_lt && negb (N.eqb d ch_gt) then after_gt t else None
  | _ => None
  end.

(** From left to right, every stretch that [at_] recognises is replaced
    by [by_]; [inside] counts the code units of the current stretch that
    are still to be passed over. *)
Fixpoint substitute (at_ : jsstring -> option jsstring) (by_ : jsstring)
         (inside : nat) (s : jsstring) : jsstring :=
  match s with
  | [] => []
  | c :: t =>
      match inside with
      | S n => substitute at_ by_ n t
      | O =>
          match at_ s with
          | Some rest => by_ ++ substitute at_ by_ (length t - length rest) t
          | None => c :: substitute at_ by_ 0 t
          end
      end
  end.

Definition remove_blocks (name : jsstring) (s : jsstring) : jsstring :=
  substitute (block name) [] 0 s.

Definition replace_tags (s : jsstring) : jsstring :=
  substitute tag [space] 0 s.

(** Every run of white space becomes one space. *)
Fixpoint collapse (in_run : bool) (s : jsstring) : jsstring :=
  match s with
  | [] => []
  | c :: t =>
      if is_space c
      then (if in_run then collapse true t else space :: collapse true t)
      else c :: collapse false t
  end.

Definition collapse_spaces (s : jsstring) : jsstring := collapse false s.

Definition normalize `{Runtime} (html : jsstring) : jsstring :=
  toLowerCase
    (trim
       (collapse_spaces
          (replace_tags
             (remove_blocks (str "script")
                (remove_blocks (str "style") html))))).

(** The tokens of a text: its maximal runs of code units that are not
    white space.  [cur] is the run being read, reversed. *)
Fixpoint tokens_from (cur : jsstring) (s : jsstring) : list jsstring :=
  match s with
  | [] => match cur with [] => [] | _ => [rev cur] end
  | c :: t =>
      if is_space c
      then match cur with
           | [] => tokens_from [] t
           | _ => rev cur :: tokens_from [] t
           end
      else tokens_from (c :: cur) t
  end.

Definition tokens (s : jsstring) : list jsstring := tokens_from [] s.

End Spec.

(** A text that starts, and one that ends, with something else than white
    space (the empty text ends clean and does not start clean). *)
Definition starts_clean (s : jsstring) : bool :=
  match s with
  | [] => false
  | c :: _ => negb (is_space c)
  end.

Fixpoint ends_clean (s : jsstring) : bool :=
  match s with
  | [] => true
  | c :: t =>
      match t with
      | [] => negb (is_space c)
      | _ :: _ => ends_clean t
      end
  end.

(** ** Notions used to state the properties of the ranking *)

(** A word that names a property every plain object inherits. *)
Definition inherited (w : jsstring) : bool :=
  match lookup w Object_prototype with
  | Some _ => true
  | None => false
  end.

(** The sum of the numeric values of an object. *)
Definition counts_sum (o : object) : Z :=
  fold_right (fun e acc => match snd e with VNumber n => n + acc | _ => acc end)%Z
             0%Z o.

Definition long_key (e : jsstring * value) : Prop := 3 < length (fst e).

Definition counted (e : jsstring * value) : Prop :=
  exists n, snd e = VNumber n /\ (1 <= n)%Z.

(** The count of an entry when it is a number. *)
Definition count_number (e : KeywordDensity) : Z :=
  match count e with
  | VNumber n => n
  | _ => 0
  end.

(** What C3 asks of an entry, for a document of [total] words. *)
Definition well_formed_entry (total : nat) (e : KeywordDensity) : Prop :=
  3 < length (keyword e)
  /\ exists n q,
      count e = VNumber n /\ (1 <= n <= Z.of_nat total)%Z
      /\ density e = Num q /\ (0 <= q <= 100)%Q.

(** What C4 asks of the order: the count at an earlier position is at
    least the count at a later one. *)
Definition ranked (l : list KeywordDensity) : Prop :=
  forall i j d, i < j < length l ->
    value_ge (count (nth i l d)) (count (nth j l d)) = true.

(** ** A runtime whose lower-casing knows ASCII only

    It shows that the assumptions on the platform can be met, and lets the
    analysis run on ASCII documents. *)

Ltac split_N_ranges :=
  repeat match goal with
    | |- context [(?a <=? ?b)%N] => destruct (N.leb_spec a b); try lia
    end.

Ltac split_N_tests :=
  repeat match goal with
    | |- context [(?a <=? ?b)%N] => destruct (N.leb_spec a b); try lia
    | |- context [(?a =? ?b)%N] => destruct (N.eqb_spec a b); try lia
    | |- context [(?a <? ?b)%N] => destruct (N.ltb_spec a b); try lia
    end.

#[refine] Instance ascii_runtime (cors : headers) : Runtime :=
  {| toLowerCase := map ascii_lower; corsHeaders := cors |}.
Proof.
  - reflexivity.
  - assert (Hsp : forall c, is_space (ascii_lower c) = is_space c).
    { intros c. unfold ascii_lower.
      destruct (N.leb_spec 0x41 c); simpl; [|reflexivity].
      destruct (N.leb_spec c 0x5A); simpl; [|reflexivity].
      unfold is_space. split_N_tests; reflexivity. }
    assert (Hts : forall s, trimStart (map ascii_lower s) = map ascii_lower (trimStart s)).
    { induction s as [|c t IH]; simpl; [reflexivity|].
      rewrite Hsp. destruct (is_space c); [exact IH|reflexivity]. }
    intros s Hs. unfold trim, trimEnd in *.
    rewrite Hts, <- map_rev, Hts, <- map_rev, Hs. reflexivity.
Defined.

(** *** Documents used in the examples *)

Definition doc_hello : jsstring :=
  str "<script>ignored</script><style>ignored</style><p>Hello hello WORLD</p>".

Definition doc_empty : jsstring := [].

Definition doc_constructor : jsstring := str "<p>constructor</p>".

Definition doc_hello_constructor : jsstring := str "<p>hello constructor</p>".

(** A number rounded to two decimals, halves upwards. *)
Definition round_to_cents (q : Q) : Q :=
  (inject_Z (Qfloor (q * 100 + (1 # 2))) / 100)%Q.

Definition request_of (m : string) (b : awaited json) : Request :=
  mkRequest (str m) b.

(** ** Notions used to state further properties of the analysis *)

(** The number of times [w] occurs among [ws]. *)
Definition occurrences (w : jsstring) (ws : list jsstring) : nat :=
  length (filter (jsstring_eqb w) ws).

(** The words longer than three code units, each once, in the order in
    which they first occur; [seen] are the words met before. *)
Fixpoint first_seen (seen ws : list jsstring) : list jsstring :=
  match ws with
  | [] => []
  | w :: ws' =>
      if (3 <? length w) && negb (existsb (jsstring_eqb w) seen)
      then w :: first_seen (seen ++ [w]) ws'
      else first_seen seen ws'
  end.



(** The own property of a word after [n] occurrences. *)
Definition tally (n : nat) : option value :=
  match n with
  | O => None
  | S _ => Some (VNumber (Z.of_nat n))
  end.

(** ** The CSV export of the service ([downloadTableAsCSV])

    The type of an analysis is declared in the store, which is not among
    the sources at hand.  The fields the export reads are taken as texts
    that may be null or undefined; [page_load_speed_cell] is the text that
    [row.page_load_speed || ''] gives once joined.  The download itself
    (the blob, the link and the click) is left out: the model ends at
    [csvContent]. *)

Module Csv.

Record SEOAnalysis := mkSEOAnalysis
  { url : option jsstring;
    company : option jsstring;
    current_title : option jsstring;
    current_description : option jsstring;
    current_h1 : option jsstring;
    suggested_title : option jsstring;
    suggested_description : option jsstring;
    suggested_h1 : option jsstring;
    page_load_speed_cell : jsstring }.

(** The pattern of the replacement: one double quote, globally. *)
Definition re_quote : regexp := RegExp [One (Chr dquote)] false.

(** [x || ''] *)
Definition or_empty (x : option jsstring) : jsstring :=
  match x with
  | Some s => s
  | None => []
  end.

(** The template of a quoted cell: a double quote, [x || ''] with every
    double quote replaced by two, a double quote. *)
Definition quoted_cell (x : option jsstring) : jsstring :=
  [dquote] ++ replace re_quote [dquote; dquote] (or_empty x) ++ [dquote].

(** [Array.prototype.join] on texts. *)
Fixpoint join (sep : jsstring) (l : list jsstring) : jsstring :=
  match l with
  | [] => []
  | x :: l' =>
      match l' with
      | [] => x
      | _ :: _ => x ++ sep ++ join sep l'
      end
  end.

Definition e_acute : char16 := 0xE9%N.

Definition headers : list jsstring :=
  [ str "URL";
    str "Entreprise";
    str "Titre actuel";
    str "Description actuelle";
    str "H1 actuel";
    str "Titre sugg" ++ [e_acute] ++ str "r" ++ [e_acute];
    str "Description sugg" ++ [e_acute] ++ str "r" ++ [e_acute] ++ str "e";
    str "H1 sugg" ++ [e_acute] ++ str "r" ++ [e_acute];
    str "Vitesse de chargement" ].

(** The cells of a row, before they are joined. *)
Definition row_cells (row : SEOAnalysis) : list jsstring :=
  [ or_empty (url row);
    or_empty (company row);
    quoted_cell (current_title row);
    quoted_cell (current_description row);
    quoted_cell (current_h1 row);
    quoted_cell (suggested_title row);
    quoted_cell (suggested_description row);
    quoted_cell (suggested_h1 row);
    page_load_speed_cell row ].

Definition comma : jsstring := [0x2C%N].
Definition newline : jsstring := [0x0A%N].

Definition csvContent (data : list SEOAnalysis) : jsstring :=
  join newline (join comma headers :: map (fun row => join comma (row_cells row)) data).

(** What is handed to the download: nothing when there is no data. *)
Definition downloadTableAsCSV (data : option (list SEOAnalysis)) : option jsstring :=
  match data with
  | None => None
  | Some [] => None
  | Some rows => Some (csvContent rows)
  end.

(** How a reader of CSV reads the inside of a quoted cell: two quotes
    stand for one, and a single quote ends the cell.  The result is the
    text read and what follows the closing quote. *)
Fixpoint read_quoted (s : jsstring) : option (jsstring * jsstring) :=
  match s with
  | [] => None
  | c :: t =>
      if N.eqb c dquote then
        match t with
        | d :: t' =>
            if N.eqb d dquote then
              match read_quoted t' with
              | Some (text, rest) => Some (dquote :: text, rest)
              | None => None
              end
            else Some ([], t)
        | [] => Some ([], [])
        end
      else
        match read_quoted t with
        | Some (text, rest) => Some (c :: text, rest)
        | None => None
        end
  end.

End Csv.

(** ** The comparison of heading arrays ([HeadingArrayComparison])

    The properties are taken as their declared type has them: an array of
    texts, or undefined, which the default value replaces by the empty
    array (so that the [Array.isArray] test passes).  What is rendered is
    modelled by its content: nothing at all, or one child per valid current
    item, a child being either nothing or a row. *)

Module Headings.

Definition non_defini : jsstring := str "Non d" ++ [0xE9%N] ++ str "fini".

(** [item && item !== 'Non defini'] *)
Definition valid_item (item : jsstring) : bool :=
  match item with
  | [] => false
  | _ :: _ => negb (jsstring_eqb item non_defini)
  end.

Record Row := mkRow
  { row_current : jsstring;
    row_suggested : jsstring;
    row_explanation : option jsstring }.

(** [l.map((x, index) => f x index)], the indices starting at [i]. *)
Fixpoint map_index {A B} (f : A -> nat -> B) (i : nat) (l : list A) : list B :=
  match l with
  | [] => []
  | x :: l' => f x i :: map_index f (S i) l'
  end.

(** [context[index] && ...]: the explanation shown, if any. *)
Definition explanation (context : list jsstring) (index : nat) : option jsstring :=
  match nth_error context index with
  | Some (c :: t) => Some (c :: t)
  | _ => None
  end.

Definition or_default (l : option (list jsstring)) : list jsstring :=
  match l with
  | Some a => a
  | None => []
  end.

Definition HeadingArrayComparison (current suggested context : option (list jsstring))
  : option (list (option Row)) :=
  let validCurrentItems := filter valid_item (or_default current) in
  let validSuggestedItems := filter valid_item (or_default suggested) in
  if length validCurrentItems =? 0 then None
  else
    Some (map_index
            (fun currentItem index =>
               match nth_error validSuggestedItems index with
               | Some (c :: t) =>
                   Some (mkRow currentItem (c :: t)
                               (explanation (or_default context) index))
               | _ => None
               end)
            0 validCurrentItems).

(** The rows among the children. *)
Definition rows (children : list (option Row)) : list Row :=
  flat_map (fun child => match child with Some r => [r] | None => [] end) children.

End Headings.

(** ** The toggle of the table ([toggleAdvanced] of [SEOTable])

    The state is an object from identifiers to booleans; an identifier is a
    number and is taken here as a natural number.  [shown] is the test
    [showAdvanced[item.id]] of the rendering. *)

Module Table.

Definition state := list (N * bool).

Fixpoint get (st : state) (id : N) : option bool :=
  match st with
  | [] => None
  | (k, v) :: st' => if N.eqb id k then Some v else get st' id
  end.

(** [{ ...prev, [id]: v }] *)
Fixpoint with_key (st : state) (id : N) (v : bool) : state :=
  match st with
  | [] => [(id, v)]
  | (k, v') :: st' =>
      if N.eqb id k then (k, v) :: st' else (k, v') :: with_key st' id v
  end.

(** [!prev[id]]: undefined counts as false. *)
Definition shown (st : state) (id : N) : bool :=
  match get st id with
  | Some b => b
  | None => false
  end.

Definition toggleAdvanced (prev : state) (id : N) : state :=
  with_key prev id (negb (shown prev id)).

End Table.

(** ** The list of exports by company ([ExportList])

    Of an analysis the component reads [company] (a text, null or
    undefined) and [archived]; [ident] stands for the rest of the row.  The
    grouping, the sort and the two updates of the local state are modelled;
    the calls to the database, [confirm] and the toasts appear through
    their outcomes. *)

Module Companies.

Record Analysis := mkAnalysis
  { ident : N;
    company : option jsstring;
    archived : bool }.

Definition default_company : jsstring := str "Sans nom d'entreprise".

(** [item.company?.trim() || 'Sans nom d\'entreprise'] *)
Definition company_key (item : Analysis) : jsstring :=
  match company item with
  | Some c =>
      match trim c with
      | [] => default_company
      | t => t
      end
  | None => default_company
  end.

(** In the browser a plain object also inherits the accessor [__proto__]. *)
Definition inherited_in_browser (k : jsstring) : bool :=
  inherited k || jsstring_eqb k (str "__proto__").

(** The accumulator of the [reduce]: own properties in creation order. *)
Definition groups := list (jsstring * list Analysis).

(** [o[k] = v] for an own property or a new one. *)
Fixpoint assign {A} (o : list (jsstring * A)) (k : jsstring) (v : A)
  : list (jsstring * A) :=
  match o with
  | [] => [(k, v)]
  | (k', v') :: o' =>
      if jsstring_eqb k k' then (k', v) :: o' else (k', v') :: assign o' k v
  end.

Definition push_not_a_function : jsstring := str "acc[company].push is not a function".

(** One step of the [reduce].  Every array is truthy, and so is whatever a
    name inherits: in that case no array is created and [push] fails. *)
Definition group_step (acc : groups) (item : Analysis) : awaited groups :=
  let k := company_key item in
  match lookup k acc with
  | Some items =>
      if archived item then Resolved acc
      else Resolved (assign acc k (items ++ [item]))
  | None =>
      if inherited_in_browser k then
        if archived item then Resolved acc else Rejected push_not_a_function
      else
        if archived item then Resolved (assign acc k [])
        else Resolved (assign acc k [item])
  end.

Fixpoint reduce (acc : groups) (seoData : list Analysis) : awaited groups :=
  match seoData with
  | [] => Resolved acc
  | item :: rest =>
      match group_step acc item with
      | Resolved acc' => reduce acc' rest
      | Rejected m => Rejected m
      end
  end.

Definition companiesData (seoData : list Analysis) : awaited groups :=
  reduce [] seoData.

(** [Object.entries] of the accumulator. *)
Definition entries {A} (o : list (jsstring * A)) : list (jsstring * A) :=
  map snd (fold_right (fun e acc =>
                         match array_index (fst e) with
                         | Some n => insert_index n e acc
                         | None => acc
                         end) [] o)
  ++ filter (fun e => match array_index (fst e) with Some _ => false | None => true end) o.

Section Sorted.
(** [a.localeCompare(b)], the collation of the platform. *)
Variable localeCompare : jsstring -> jsstring -> number.

Definition sortedCompanies (g : groups) : groups :=
  filter (fun e => 0 <? length (snd e))
         (sort (fun a b => localeCompare (fst a) (fst b)) (entries g)).
End Sorted.

(** [handleArchive]: the update of the local state, which takes place when
    the database reports no error. *)
Definition archive_local (seoData : list Analysis) (c : jsstring) : list Analysis :=
  map (fun item =>
         match company item with
         | Some x => if jsstring_eqb x c
                     then mkAnalysis (ident item) (company item) true
                     else item
         | None => item
         end) seoData.

Inductive toast := Succeeded | Failed | NoToast.

Definition handleArchive (update_error : bool) (seoData : list Analysis) (c : jsstring)
  : list Analysis * toast :=
  if update_error then (seoData, Failed)
  else (archive_local seoData c, Succeeded).

(** [handleDelete]: [confirmed] is the answer to [confirm]; [selected] is
    the outcome of the select (an error, or the rows found, possibly null);
    [delete_error] tells whether the delete reported an error. *)
Definition delete_local (seoData : list Analysis) (c : jsstring) : list Analysis :=
  filter (fun item =>
            match company item with
            | Some x => negb (jsstring_eqb x c)
            | None => true
            end) seoData.

Definition handleDelete (confirmed : bool) (selected : awaited (option (list N)))
           (delete_error : bool) (seoData : list Analysis) (c : jsstring)
  : list Analysis * toast :=
  if negb confirmed then (seoData, NoToast)
  else
    match selected with
    | Rejected _ => (seoData, Failed)
    | Resolved None => (seoData, Failed)
    | Resolved (Some []) => (seoData, Failed)
    | Resolved (Some (_ :: _)) =>
        if delete_error then (seoData, Failed)
        else (delete_local seoData c, Succeeded)
    end.

End Companies.

(** ** Notions used to state the properties of the list of exports *)

(** The analyses that are not archived and whose company reads [k]. *)
Definition company_members (k : jsstring) (data : list Companies.Analysis)
  : list Companies.Analysis :=
  filter (fun item => negb (Companies.archived item)
                      && jsstring_eqb (Companies.company_key item) k) data.

(** [item.company === c] *)
Definition company_is (c : jsstring) (item : Companies.Analysis) : bool :=
  match Companies.company item with
  | Some x => jsstring_eqb x c
  | None => false
  end.

(** An analysis on which the grouping fails: it is not archived and its
    company reads as the name of an inherited property. *)
Definition breaks_grouping (item : Companies.Analysis) : bool :=
  negb (Companies.archived item)
  && Companies.inherited_in_browser (Companies.company_key item).

(** What the grouping keeps while it runs over [seen]. *)
Definition groups_of (acc : Companies.groups) (seen : list Companies.Analysis) : Prop :=
  forall k,
    match lookup k acc with
    | Some items =>
        items = company_members k seen /\ Companies.inherited_in_browser k = false
    | None => company_members k seen = []
    end.

(** ** Reading a CSV text

    The reader against which the export is checked: cells are separated
    by commas and rows by line feeds; a cell that starts with a double quote
    is read as a quoted cell, any other cell runs to the next comma or line
    feed. *)

Module CsvReader.

Definition is_comma (c : char16) : bool := N.eqb c 0x2C.
Definition is_newline (c : char16) : bool := N.eqb c 0x0A.

Fixpoint read_plain (s : jsstring) : jsstring * jsstring :=
  match s with
  | [] => ([], [])
  | c :: t =>
      if is_comma c || is_newline c then ([], s)
      else let (text, rest) := read_plain t in (c :: text, rest)
  end.

Definition read_cell (s : jsstring) : option (jsstring * jsstring) :=
  match s with
  | c :: t => if N.eqb c dquote then Csv.read_quoted t else Some (read_plain s)
  | [] => Some ([], [])
  end.

(** [row] holds the cells of the current row read so far. *)
Fixpoint read_table (fuel : nat) (s : jsstring) (row : list jsstring)
  : option (list (list jsstring)) :=
  match fuel with
  | O => None
  | S fuel' =>
      match read_cell s with
      | None => None
      | Some (cell, rest) =>
          match rest with
          | [] => Some [row ++ [cell]]
          | c :: rest' =>
              if is_comma c then read_table fuel' rest' (row ++ [cell])
              else if is_newline c then
                match read_table fuel' rest' [] with
                | Some rows => Some ((row ++ [cell]) :: rows)
                | None => None
                end
              else None
          end
      end
  end.

Definition read_csv (s : jsstring) : option (list (list jsstring)) :=
  read_table (S (length s)) s [].

(** A text that can stand in a cell without quotes. *)
Definition plain (text : jsstring) : bool :=
  forallb (fun c => negb (is_comma c || is_newline c || N.eqb c dquote)) text.

(** The texts of the cells of a row of the export. *)
Definition row_texts (row : Csv.SEOAnalysis) : list jsstring :=
  [ Csv.or_empty (Csv.url row);
    Csv.or_empty (Csv.company row);
    Csv.or_empty (Csv.current_title row);
    Csv.or_empty (Csv.current_description row);
    Csv.or_empty (Csv.current_h1 row);
    Csv.or_empty (Csv.suggested_title row);
    Csv.or_empty (Csv.suggested_description row);
    Csv.or_empty (Csv.suggested_h1 row);
    Csv.page_load_speed_cell row ].

(** The cells that the export writes without quotes are plain. *)
Definition plain_fields (row : Csv.SEOAnalysis) : bool :=
  plain (Csv.or_empty (Csv.url row))
  && plain (Csv.or_empty (Csv.company row))
  && plain (Csv.page_load_speed_cell row).

(** A written cell and the text it stands for. *)
Definition encodes (cell : jsstring * jsstring) : Prop :=
  (fst cell = snd cell /\ plain (snd cell) = true)
  \/ exists x, fst cell = Csv.quoted_cell x /\ snd cell = Csv.or_empty x.

(** What may follow a cell: nothing, a comma or a line feed. *)
Definition after_cell (rest : jsstring) : Prop :=
  match rest with
  | [] => True
  | c :: _ => is_comma c = true \/ is_newline c = true
  end.

End CsvReader.

(** * Properties *)

(** ** The matcher on the four patterns *)

Lemma canonicalize_same_letter x c :
  N.eqb (canonicalize true x) (canonicalize true c) = Spec.same_letter x c.
Proof.
  unfold canonicalize, Spec.same_letter, ascii_lower. cbn [andb].
  split_N_ranges; cbn [andb]; split_N_tests; reflexivity.
Qed.

Lemma canonicalize_gt ic c :
  N.eqb (canonicalize ic ch_gt) (canonicalize ic c) = N.eqb c ch_gt.
Proof.
  unfold canonicalize, ch_gt. destruct ic; cbn [andb].
  - split_N_ranges; cbn [andb]; split_N_tests; reflexivity.
  - apply N.eqb_sym.
Qed.

Lemma canonicalize_lt c :
  N.eqb (canonicalize false ch_lt) (canonicalize false c) = N.eqb c ch_lt.
Proof. apply N.eqb_sym. Qed.

Lemma atom_matches_not_gt ic c :
  atom_matches ic not_gt c = negb (N.eqb c ch_gt).
Proof.
  unfold atom_matches, not_gt, existsb, item_matches.
  rewrite canonicalize_gt, orb_false_r. reflexivity.
Qed.

Lemma atom_matches_gt ic c :
  atom_matches ic (Chr ch_gt) c = N.eqb c ch_gt.
Proof. apply canonicalize_gt. Qed.

Lemma atom_matches_anything ic c : atom_matches ic anything c = true.
Proof.
  unfold atom_matches, anything, existsb, item_matches.
  destruct (is_space c); reflexivity.
Qed.

Lemma atom_matches_white ic c : atom_matches ic white c = is_space c.
Proof.
  unfold atom_matches, white, existsb, item_matches.
  destruct (is_space c); reflexivity.
Qed.

(** Literal pattern characters under the [i] flag compare as the
    specification's case-insensitive prefix test does. *)
Lemma match_here_literal w p s :
  match_here true (map (fun c => One (Chr c)) w ++ p) s
  = match Spec.starts_with_ci w s with
    | Some r => match_here true p r
    | None => None
    end.
Proof.
  revert s. induction w as [|a w IH]; intros s; simpl; [reflexivity|].
  destruct s as [|c s]; [reflexivity|].
  rewrite canonicalize_same_letter.
  destruct (Spec.same_letter a c); [apply IH|reflexivity].
Qed.

(** [[^>]*>]: greedy, and yet it stops at the first [>]. *)
Lemma match_here_to_gt ic p s :
  match_here ic (Rep not_gt 0 true :: One (Chr ch_gt) :: p) s
  = match Spec.after_gt s with
    | Some r => match_here ic p r
    | None => None
    end.
Proof.
  change (match_here ic (Rep not_gt 0 true :: One (Chr ch_gt) :: p) s)
    with (rep_match ic not_gt (match_here ic (One (Chr ch_gt) :: p)) 0 true s).
  assert (Hk : forall c t, match_here ic (One (Chr ch_gt) :: p) (c :: t)
                           = if N.eqb c ch_gt then match_here ic p t else None).
  { intros c t. cbn [match_here]. rewrite atom_matches_gt. reflexivity. }
  assert (Hk0 : match_here ic (One (Chr ch_gt) :: p) [] = None) by reflexivity.
  generalize dependent (match_here ic (One (Chr ch_gt) :: p)). intros k Hk Hk0.
  induction s as [|c t IH].
  - cbn [rep_match Spec.after_gt]. exact Hk0.
  - cbn [rep_match Spec.after_gt]. rewrite atom_matches_not_gt, Hk.
    destruct (N.eqb c ch_gt); cbn [negb]; [reflexivity|].
    rewrite IH. destruct (Spec.after_gt t) as [r|]; [|reflexivity].
    destruct (match_here ic p r); reflexivity.
Qed.

(** [[\s\S]*?] before a literal that ends the pattern: the first
    occurrence of the literal. *)
Lemma match_here_lazy_literal w s :
  match_here true (Rep anything 0 false :: map (fun c => One (Chr c)) w) s
  = Spec.after_first_ci w s.
Proof.
  change (match_here true (Rep anything 0 false :: map (fun c => One (Chr c)) w) s)
    with (rep_match true anything
            (match_here true (map (fun c => One (Chr c)) w)) 0 false s).
  assert (Hk : forall u, match_here true (map (fun c => One (Chr c)) w) u
                         = Spec.starts_with_ci w u).
  { intros u. rewrite <- (app_nil_r (map _ w)), match_here_literal.
    destruct (Spec.starts_with_ci w u); reflexivity. }
  induction s as [|c t IH]; cbn [rep_match Spec.after_first_ci]; rewrite Hk.
  - destruct (Spec.starts_with_ci w []); reflexivity.
  - rewrite atom_matches_anything, IH. reflexivity.
Qed.

(** The two block patterns recognise the specification's blocks. *)
Lemma exec_at_block name s :
  exec_at (RegExp (map (fun c => One (Chr c)) (ch_lt :: name)
                   ++ [Rep not_gt 0 true; One (Chr ch_gt); Rep anything 0 false]
                   ++ map (fun c => One (Chr c)) (ch_lt :: Spec.slash :: name ++ [ch_gt]))
                  true) s
  = Spec.block name s.
Proof.
  unfold exec_at, Spec.block. cbn [source ignoreCase].
  rewrite match_here_literal.
  destruct (Spec.starts_with_ci (ch_lt :: name) s) as [r1|]; [|reflexivity].
  cbn [app]. rewrite match_here_to_gt.
  destruct (Spec.after_gt r1) as [r2|]; [|reflexivity].
  apply match_here_lazy_literal.
Qed.

Lemma exec_at_style s : exec_at re_style s = Spec.block (str "style") s.
Proof. exact (exec_at_block (str "style") s). Qed.

Lemma exec_at_script s : exec_at re_script s = Spec.block (str "script") s.
Proof. exact (exec_at_block (str "script") s). Qed.

Lemma match_here_one ic a p c s :
  match_here ic (One a :: p) (c :: s)
  = if atom_matches ic a c then match_here ic p s else None.
Proof. reflexivity. Qed.

Lemma match_here_rep_succ ic a m g p c s :
  match_here ic (Rep a (S m) g :: p) (c :: s)
  = if atom_matches ic a c then match_here ic (Rep a m g :: p) s else None.
Proof. reflexivity. Qed.

Lemma exec_at_tag s : exec_at re_tag s = Spec.tag s.
Proof.
  unfold exec_at, re_tag, Spec.tag. cbn [source ignoreCase].
  destruct s as [|c s]; [reflexivity|].
  rewrite match_here_one. unfold atom_matches at 1. rewrite canonicalize_lt.
  destruct s as [|d t].
  - destruct (N.eqb c ch_lt); reflexivity.
  - rewrite match_here_rep_succ, atom_matches_not_gt, match_here_to_gt.
    destruct (N.eqb c ch_lt), (N.eqb d ch_gt); cbn [andb negb]; try reflexivity.
    destruct (Spec.after_gt t); reflexivity.
Qed.

(** ** A match is a stretch of the text, at least as long as the pattern asks *)

Lemma rep_match_consumes ic a k n g :
  consumes n k -> forall min, consumes (min + n) (rep_match ic a k min g).
Proof.
  intros Hk min s. revert min.
  induction s as [|c t IH]; intros min r Hr.
  - destruct min as [|m]; [|discriminate].
    cbn [rep_match] in Hr.
    assert (Hk' : k [] = Some r).
    { destruct g; [exact Hr|]. destruct (k []); [exact Hr|discriminate]. }
    apply Hk in Hk'. exact Hk'.
  - destruct min as [|m]; cbn [rep_match] in Hr.
    + assert (Hcases : k (c :: t) = Some r \/ rep_match ic a k 0 g t = Some r).
      { destruct g.
        - destruct (atom_matches ic a c); [|left; exact Hr].
          destruct (rep_match ic a k 0 true t); [right; exact Hr|left; exact Hr].
        - destruct (k (c :: t)); [left; exact Hr|].
          destruct (atom_matches ic a c); [right; exact Hr|discriminate]. }
      destruct Hcases as [Hr'|Hr'].
      * apply Hk in Hr'. exact Hr'.
      * apply IH in Hr'. destruct Hr' as (pre & -> & Hlen).
        exists (c :: pre). split; [reflexivity|]. simpl in *. lia.
    + destruct (atom_matches ic a c); [|discriminate].
      apply IH in Hr. destruct Hr as (pre & -> & Hlen).
      exists (c :: pre). split; [reflexivity|]. simpl in *. lia.
Qed.

Lemma match_here_consumes ic p : consumes (min_length p) (match_here ic p).
Proof.
  induction p as [|[a|a m g] p IH].
  - intros s r Hr. injection Hr as <-. exists []. split; [reflexivity|simpl; lia].
  - intros [|c s] r Hr; [discriminate|].
    rewrite match_here_one in Hr.
    destruct (atom_matches ic a c); [|discriminate].
    apply IH in Hr. destruct Hr as (pre & -> & Hlen).
    exists (c :: pre). split; [reflexivity|]. simpl in *. lia.
  - cbn [match_here min_length fold_right].
    apply rep_match_consumes. exact IH.
Qed.

Lemma exec_at_shorter r s rest :
  1 <= min_length (source r) -> exec_at r s = Some rest ->
  exists pre, s = pre ++ rest /\ 1 <= length pre.
Proof.
  intros Hmin Hr. apply match_here_consumes in Hr.
  destruct Hr as (pre & -> & Hlen). exists pre. split; [reflexivity|lia].
Qed.

(** ** The global replacement is the left-to-right substitution *)

Lemma substitute_inside at_ by_ n s :
  n <= length s ->
  Spec.substitute at_ by_ n s = Spec.substitute at_ by_ 0 (skipn n s).
Proof.
  revert n. induction s as [|c t IH]; intros n Hn.
  - destruct n; reflexivity.
  - destruct n as [|n]; [reflexivity|].
    cbn [Spec.substitute skipn]. apply IH. simpl in Hn. lia.
Qed.

Lemma substitute_ext f g by_ n s :
  (forall u, f u = g u) ->
  Spec.substitute f by_ n s = Spec.substitute g by_ n s.
Proof.
  intros Hfg. revert n. induction s as [|c t IH]; intros n; [reflexivity|].
  cbn [Spec.substitute]. destruct n; [|apply IH].
  rewrite Hfg. destruct (g (c :: t)); rewrite IH; reflexivity.
Qed.

Lemma substitute_match at_ by_ c pre rest :
  at_ (c :: pre ++ rest) = Some rest ->
  Spec.substitute at_ by_ 0 (c :: pre ++ rest)
  = by_ ++ Spec.substitute at_ by_ 0 rest.
Proof.
  intros Hat. cbn [Spec.substitute]. rewrite Hat. f_equal.
  rewrite substitute_inside by lia. f_equal.
  rewrite length_app.
  replace (length pre + length rest - length rest) with (length pre + 0) by lia.
  rewrite skipn_app, Nat.add_0_r, skipn_all, Nat.sub_diag. reflexivity.
Qed.

Lemma replace_loop_substitute r by_ :
  1 <= min_length (source r) ->
  forall fuel s, length s < fuel ->
    replace_loop fuel r by_ s = Spec.substitute (exec_at r) by_ 0 s.
Proof.
  intros Hmin. induction fuel as [|fuel IH]; intros s Hs; [lia|].
  destruct s as [|c t].
  - cbn [replace_loop Spec.substitute].
    destruct (exec_at r []) as [rest|] eqn:He; [|reflexivity].
    apply exec_at_shorter in He; [|exact Hmin].
    destruct He as ([|x pre] & He & Hlen); [simpl in Hlen; lia|discriminate].
  - cbn [replace_loop].
    destruct (exec_at r (c :: t)) as [rest|] eqn:He.
    + destruct (exec_at_shorter _ _ _ Hmin He) as ([|x pre] & Hs' & Hlen);
        [simpl in Hlen; lia|].
      injection Hs' as <- ->.
      rewrite substitute_match by exact He.
      assert (Hlt : (length rest <? length (c :: pre ++ rest)) = true).
      { apply Nat.ltb_lt. simpl. rewrite length_app. lia. }
      rewrite Hlt. f_equal. apply IH.
      simpl in Hs. rewrite length_app in Hs. lia.
    + cbn [Spec.substitute]. rewrite He. f_equal. apply IH. simpl in Hs. lia.
Qed.

Lemma replace_substitute r by_ s :
  1 <= min_length (source r) ->
  replace r by_ s = Spec.substitute (exec_at r) by_ 0 s.
Proof.
  intros Hmin. unfold replace. apply replace_loop_substitute; [exact Hmin|lia].
Qed.

Lemma replace_style s : replace re_style [] s = Spec.remove_blocks (str "style") s.
Proof.
  rewrite replace_substitute by (vm_compute; lia).
  apply substitute_ext, exec_at_style.
Qed.

Lemma replace_script s : replace re_script [] s = Spec.remove_blocks (str "script") s.
Proof.
  rewrite replace_substitute by (vm_compute; lia).
  apply substitute_ext, exec_at_script.
Qed.

Lemma replace_tag s : replace re_tag [space] s = Spec.replace_tags s.
Proof.
  rewrite replace_substitute by (vm_compute; lia).
  apply substitute_ext, exec_at_tag.
Qed.

(** [\s+] at a position: the whole run of white space that starts there. *)
Lemma rep_white_run ic t :
  rep_match ic white (fun u => Some u) 0 true t = Some (trimStart t).
Proof.
  induction t as [|c t IH]; [reflexivity|].
  cbn [rep_match trimStart]. rewrite atom_matches_white.
  destruct (is_space c); [rewrite IH|]; reflexivity.
Qed.

Lemma exec_at_spaces s :
  exec_at re_spaces s
  = match s with
    | c :: t => if is_space c then Some (trimStart t) else None
    | [] => None
    end.
Proof.
  unfold exec_at, re_spaces. cbn [source ignoreCase].
  destruct s as [|c t]; [reflexivity|].
  rewrite match_here_rep_succ, atom_matches_white.
  destruct (is_space c); [|reflexivity].
  apply rep_white_run.
Qed.

Lemma trimStart_suffix t : exists pre, t = pre ++ trimStart t.
Proof.
  induction t as [|c t [pre IH]]; [exists []; reflexivity|].
  cbn [trimStart]. destruct (is_space c).
  - exists (c :: pre). simpl. f_equal. exact IH.
  - exists []. reflexivity.
Qed.

Lemma collapse_in_run t : Spec.collapse true t = Spec.collapse false (trimStart t).
Proof.
  induction t as [|c t IH]; [reflexivity|].
  cbn [Spec.collapse trimStart].
  destruct (is_space c) eqn:Hc; [exact IH|].
  cbn [Spec.collapse]. rewrite Hc. reflexivity.
Qed.

Lemma substitute_spaces_collapse n :
  forall s, length s <= n ->
    Spec.substitute (exec_at re_spaces) [space] 0 s = Spec.collapse false s.
Proof.
  induction n as [|n IH]; intros [|c t] Hlen; try reflexivity.
  - simpl in Hlen. lia.
  - destruct (is_space c) eqn:Hc.
    + destruct (trimStart_suffix t) as [pre Hpre].
      assert (He : exec_at re_spaces (c :: pre ++ trimStart t) = Some (trimStart t)).
      { rewrite <- Hpre, exec_at_spaces, Hc. reflexivity. }
      rewrite Hpre at 1. rewrite substitute_match by exact He.
      cbn [Spec.collapse app]. rewrite Hc, collapse_in_run. f_equal.
      apply IH. simpl in Hlen.
      assert (length t = length pre + length (trimStart t))
        by (rewrite Hpre at 1; apply length_app).
      lia.
    + cbn [Spec.substitute Spec.collapse]. rewrite exec_at_spaces, Hc. f_equal.
      apply IH. simpl in Hlen. lia.
Qed.

Lemma replace_spaces s : replace re_spaces [space] s = Spec.collapse_spaces s.
Proof.
  rewrite replace_substitute by (vm_compute; lia).
  apply (substitute_spaces_collapse (length s)). lia.
Qed.

(** C1. For every HTML text the normalization of the handler (the four
    regular-expression replacements, [trim], [toLowerCase]) is the
    composition, in this order, of: removing the style blocks, removing the
    script blocks, replacing each remaining tag with one space, collapsing
    each run of white space to one space, trimming, lower-casing. *)
Theorem visibleText_normalize `{Runtime} (html : jsstring) :
  visibleText html = Spec.normalize html.
Proof.
  unfold visibleText, Spec.normalize.
  rewrite replace_style, replace_script, replace_tag, replace_spaces.
  reflexivity.
Qed.

(** ** Splitting: the number of words *)

Lemma split_loop_nonempty r fuel :
  forall piece s, 1 <= length (split_loop fuel r piece s).
Proof.
  induction fuel as [|fuel IH]; intros piece s; [simpl; lia|].
  destruct s as [|c t]; cbn [split_loop]; [simpl; lia|].
  destruct (exec_at r (c :: t)) as [rest|]; [|apply IH].
  destruct ((length rest =? length (c :: t)) && (length piece =? 0));
    [apply IH|simpl; lia].
Qed.

Lemma split_spaces_nonempty s : 1 <= length (split re_spaces s).
Proof.
  destruct s as [|c t]; [vm_compute; lia|].
  unfold split. apply split_loop_nonempty.
Qed.

(** C10. For every input text, the empty one included, splitting the
    normalized text on white space gives at least one element: [totalWords]
    is at least 1, and the division of the density computation, which the
    code does not guard, never has a zero divisor (a finite count divided
    by [totalWords] is their quotient). *)
Theorem totalWords_positive `{Runtime} (html : jsstring) :
  1 <= length (words html)
  /\ 1 <= totalWords (analyze html)
  /\ forall x : Q,
       number_div (Num x) (Num (inject_Z (Z.of_nat (totalWords (analyze html)))))
       = Num (x / inject_Z (Z.of_nat (totalWords (analyze html)))).
Proof.
  assert (Hw : 1 <= length (words html)) by apply split_spaces_nonempty.
  repeat split; try exact Hw.
  intros x. cbn [analyze totalWords number_div].
  destruct (Qeq_bool (inject_Z (Z.of_nat (length (words html)))) 0) eqn:Hz;
    [|reflexivity].
  apply Qeq_bool_eq in Hz. unfold Qeq, inject_Z in Hz. simpl in Hz. lia.
Qed.

(** ** The empty document *)

Lemma visibleText_empty `{Runtime} : visibleText doc_empty = [].
Proof.
  unfold visibleText, doc_empty.
  change (trim _) with (@nil char16).
  rewrite toLowerCase_ascii; reflexivity.
Qed.

Lemma words_empty_document `{Runtime} : words doc_empty = [[]].
Proof. unfold words. rewrite visibleText_empty. reflexivity. Qed.

(** C2, at the input where the code departs from it: for the empty
    document the normalized text has no token, and [totalWords] is 1. *)
Theorem totalWords_empty_document `{Runtime} :
  Spec.tokens (visibleText doc_empty) = []
  /\ words doc_empty = [[]]
  /\ totalWords (analyze doc_empty) = 1.
Proof.
  split; [rewrite visibleText_empty; reflexivity|].
  split; [apply words_empty_document|].
  cbn [analyze totalWords]. rewrite words_empty_document. reflexivity.
Qed.

(** C5 does not hold as it is written: for the empty document
    [totalWords] is not 0, and the request is answered with HTTP 200. *)
Lemma empty_document_total_not_zero :
  totalWords (@analyze (ascii_runtime []) doc_empty) <> 0
  /\ status (@handler (ascii_runtime [])
               (fun _ => Resolved (mkFetchResponse true (str "OK") (Resolved doc_empty)))
               (request_of "POST"
                  (Resolved (JObject [(str "url", JString (str "https://example.org/"))]))))
     = 200.
Proof. split; [vm_compute; discriminate|vm_compute; reflexivity]. Qed.

Lemma analyze_empty_document `{Runtime} :
  analyze doc_empty = mkAnalysisResult [] 1.
Proof.
  unfold analyze. rewrite words_empty_document. reflexivity.
Qed.

(** C5, amended. When the fetched document is empty the analysis has no
    keyword at all: no density is computed, nothing is divided, and the
    request is answered with HTTP 200 and that result rather than rejected. *)
Theorem empty_document_no_density `{Runtime}
        (fetch : json -> awaited FetchResponse) (req : Request)
        (fields : list (jsstring * json)) (u : json) (st : jsstring) :
  jsstring_eqb (method req) (str "OPTIONS") = false ->
  body_json req = Resolved (JObject fields) ->
  field (str "url") fields = Some u ->
  falsy (Some u) = false ->
  fetch u = Resolved (mkFetchResponse true st (Resolved doc_empty)) ->
  keywordDensity (analyze doc_empty) = []
  /\ exists r, handler fetch req = mkResponse (BodyResult r) json_headers 200
               /\ keywordDensity r = [].
Proof.
  intros Hm Hb Hf Hu Hfetch.
  rewrite analyze_empty_document. split; [reflexivity|].
  exists (mkAnalysisResult [] 1). split; [|reflexivity].
  unfold handler, try_block. rewrite Hm, Hb. cbn [bind destructure_url].
  rewrite Hf, Hu, Hfetch. cbn [bind ok negb text].
  rewrite analyze_empty_document. reflexivity.
Qed.

Lemma empty_document_no_density_witness :
  keywordDensity (@analyze (ascii_runtime []) doc_empty) = []
  /\ exists r,
      @handler (ascii_runtime [])
        (fun _ => Resolved (mkFetchResponse true (str "OK") (Resolved doc_empty)))
        (request_of "POST"
           (Resolved (JObject [(str "url", JString (str "https://example.org/"))])))
      = mkResponse (BodyResult r) (@json_headers (ascii_runtime [])) 200
      /\ keywordDensity r = [].
Proof.
  apply (@empty_document_no_density (ascii_runtime []) _ _
           [(str "url", JString (str "https://example.org/"))]
           (JString (str "https://example.org/")) (str "OK"));
    reflexivity.
Defined.

(** ** The handler's error paths *)

(** C7. When the body of a request other than OPTIONS is an object whose
    [url] is missing or the empty string, the [try] block fails with the
    message "URL is required", and the answer is HTTP 500 with the JSON body
    [{"error":"URL is required"}], the network not being asked. *)
Theorem url_required `{Runtime}
        (fetch : json -> awaited FetchResponse) (req : Request)
        (fields : list (jsstring * json)) :
  jsstring_eqb (method req) (str "OPTIONS") = false ->
  body_json req = Resolved (JObject fields) ->
  field (str "url") fields = None \/ field (str "url") fields = Some (JString []) ->
  try_block fetch req = Rejected (str "URL is required")
  /\ handler fetch req
     = mkResponse (BodyError (str "URL is required")) json_headers 500
  /\ stringify_error (str "URL is required")
     = str "{" ++ [dquote] ++ str "error" ++ [dquote] ++ str ":"
           ++ [dquote] ++ str "URL is required" ++ [dquote] ++ str "}".
Proof.
  intros Hm Hb Hurl.
  assert (Ht : try_block fetch req = Rejected (str "URL is required")).
  { unfold try_block. rewrite Hb. cbn [bind destructure_url].
    destruct Hurl as [-> | ->]; reflexivity. }
  split; [exact Ht|split; [|reflexivity]].
  unfold handler. rewrite Hm, Ht. reflexivity.
Qed.

Lemma url_required_witness :
  let fetch := fun _ : json => @Rejected FetchResponse (str "unused") in
  let req := request_of "POST" (Resolved (JObject [(str "other", JBool true)])) in
  @try_block (ascii_runtime []) fetch req = Rejected (str "URL is required")
  /\ @handler (ascii_runtime []) fetch req
     = mkResponse (BodyError (str "URL is required"))
                  (@json_headers (ascii_runtime [])) 500
  /\ stringify_error (str "URL is required")
     = str "{" ++ [dquote] ++ str "error" ++ [dquote] ++ str ":"
           ++ [dquote] ++ str "URL is required" ++ [dquote] ++ str "}".
Proof.
  intros fetch req.
  apply (@url_required (ascii_runtime []) fetch req [(str "other", JBool true)]).
  - reflexivity.
  - reflexivity.
  - left. reflexivity.
Defined.

(** C8 does not hold as it is written: when [fetch] itself fails there is
    no response and no status text; the answer carries the message of the
    transport error, which is not of the form "Failed to fetch URL: ...". *)
Lemma transport_failure_has_no_status_text :
  let fetch := fun _ : json => @Rejected FetchResponse (str "connection refused") in
  let req := request_of "POST"
               (Resolved (JObject [(str "url", JString (str "https://example.org/"))])) in
  @handler (ascii_runtime []) fetch req
  = mkResponse (BodyError (str "connection refused"))
               (@json_headers (ascii_runtime [])) 500
  /\ ~ exists statusText : jsstring,
         body (@handler (ascii_runtime []) fetch req)
         = BodyError (str "Failed to fetch URL: " ++ statusText).
Proof.
  split; [reflexivity|].
  intros [st Hst]. vm_compute in Hst. discriminate Hst.
Qed.

(** C8, amended. For a request with a usable [url]: when the GET answers
    with a status that is not a success, the handler answers HTTP 500 with
    the message "Failed to fetch URL: " followed by the upstream status
    text; when the GET fails in transport, the handler answers HTTP 500
    with the message of the transport error. *)
Theorem fetch_failure `{Runtime}
        (fetch : json -> awaited FetchResponse) (req : Request)
        (fields : list (jsstring * json)) (u : json) :
  jsstring_eqb (method req) (str "OPTIONS") = false ->
  body_json req = Resolved (JObject fields) ->
  field (str "url") fields = Some u ->
  falsy (Some u) = false ->
  (forall response, fetch u = Resolved response -> ok response = false ->
     handler fetch req
     = mkResponse (BodyError (str "Failed to fetch URL: " ++ statusText response))
                  json_headers 500)
  /\ (forall message, fetch u = Rejected message ->
        handler fetch req = mkResponse (BodyError message) json_headers 500).
Proof.
  intros Hm Hb Hf Hu. split.
  - intros response Hfetch Hok.
    unfold handler, try_block. rewrite Hm, Hb. cbn [bind destructure_url].
    rewrite Hf, Hu, Hfetch. cbn [bind]. rewrite Hok. reflexivity.
  - intros message Hfetch.
    unfold handler, try_block. rewrite Hm, Hb. cbn [bind destructure_url].
    rewrite Hf, Hu, Hfetch. reflexivity.
Qed.

Lemma fetch_failure_witness :
  let response := mkFetchResponse false (str "Not Found") (Resolved []) in
  let fetch := fun _ : json => Resolved response in
  let req := request_of "POST"
               (Resolved (JObject [(str "url", JString (str "https://example.org/x"))])) in
  @handler (ascii_runtime []) fetch req
  = mkResponse (BodyError (str "Failed to fetch URL: Not Found"))
               (@json_headers (ascii_runtime [])) 500.
Proof.
  intros response fetch req.
  apply (proj1 (@fetch_failure (ascii_runtime []) fetch req
                  [(str "url", JString (str "https://example.org/x"))]
                  (JString (str "https://example.org/x"))
                  eq_refl eq_refl eq_refl eq_refl) response);
    reflexivity.
Defined.

(** ** Preflight *)

(** C9 does not hold as it is written: the body of the answer to OPTIONS
    is the text "ok", not the empty text. *)
Lemma options_body_not_empty :
  body (@handler (ascii_runtime []) (fun _ => Rejected [])
          (request_of "OPTIONS" (Rejected [])))
  <> BodyText [].
Proof. vm_compute. discriminate. Qed.

(** C9, amended. Every OPTIONS request is answered with the status 200
    (the default of [Response]), the cross-origin headers and the two-letter
    body "ok"; neither the request body nor the network is looked at. *)
Theorem options_preflight `{Runtime}
        (fetch : json -> awaited FetchResponse) (req : Request) :
  jsstring_eqb (method req) (str "OPTIONS") = true ->
  handler fetch req = mkResponse (BodyText (str "ok")) corsHeaders 200.
Proof. intros Hm. unfold handler. rewrite Hm. reflexivity. Qed.

Lemma options_preflight_witness :
  @handler (ascii_runtime [(str "Access-Control-Allow-Origin", str "*")])
    (fun _ => Rejected []) (request_of "OPTIONS" (Rejected (str "no body")))
  = mkResponse (BodyText (str "ok"))
      [(str "Access-Control-Allow-Origin", str "*")] 200.
Proof.
  apply (@options_preflight
           (ascii_runtime [(str "Access-Control-Allow-Origin", str "*")])).
  reflexivity.
Defined.

(** ** ASCII documents *)

(** The analysis depends on the platform through the lower-casing alone:
    when what is left of the document after stripping is ASCII, every
    runtime computes what the ASCII runtime computes. *)
Lemma analyze_ascii `{Runtime} (html : jsstring) :
  forallb is_ascii
    (trim (replace re_spaces [space]
             (replace re_tag [space]
                (replace re_script [] (replace re_style [] html))))) = true ->
  analyze html = @analyze (ascii_runtime []) html.
Proof.
  intros Hascii. unfold analyze, words, visibleText.
  rewrite (toLowerCase_ascii _ Hascii). reflexivity.
Qed.

(** C6 does not hold as it is written: the density of "hello" is two
    thirds of a hundred, which is not 66.67. *)
Lemma hello_density_not_66_67 :
  ~ exists e q,
      In e (keywordDensity (@analyze (ascii_runtime []) doc_hello))
      /\ keyword e = str "hello" /\ count e = VNumber 2
      /\ density e = Num q /\ (q == 66.67)%Q.
Proof.
  intros (e & q & Hin & Hk & _ & Hd & Hq).
  vm_compute in Hin. destruct Hin as [<- | [<- | []]].
  - injection Hd as <-. vm_compute in Hq. discriminate Hq.
  - vm_compute in Hk. discriminate Hk.
Qed.

(** C6, amended. On that document [totalWords] is 3 and [keywordDensity]
    is "hello" with count 2 and density 200/3 (66.67 once rounded to two
    decimals), followed by "world" with count 1 and density 100/3. *)
Theorem hello_document `{Runtime} :
  exists q1 q2,
    analyze doc_hello
    = mkAnalysisResult
        [ mkKeywordDensity (str "hello") (VNumber 2) (Num q1);
          mkKeywordDensity (str "world") (VNumber 1) (Num q2) ] 3
    /\ (q1 == 200 # 3)%Q /\ (q2 == 100 # 3)%Q
    /\ (round_to_cents q1 == 66.67)%Q.
Proof.
  rewrite analyze_ascii by (vm_compute; reflexivity).
  eexists _, _. split; [vm_compute; reflexivity|].
  split; [|split]; vm_compute; reflexivity.
Qed.

(** ** A word that names an inherited property *)

(** C3, at an input where the code departs from it: the word
    "constructor" finds the function [Object] in the fresh object; its
    count is a string, not a number that is at least 1, and its density is
    not a number. *)
Theorem constructor_count_is_text `{Runtime} :
  exists e,
    keywordDensity (analyze doc_constructor) = [e]
    /\ keyword e = str "constructor"
    /\ count e = VString (str "function Object() { [native code] }1")
    /\ value_ge (count e) (VNumber 1) = false
    /\ density e = NaN.
Proof.
  rewrite analyze_ascii by (vm_compute; reflexivity).
  eexists. split; [vm_compute; reflexivity|].
  repeat split.
Qed.

(** C4, at an input where the code departs from it: with the words
    "hello" and "constructor" the comparator of the sort yields no number,
    the two entries stay as they are, and the count of the first is not at
    least the count of the second. *)
Theorem constructor_unranked `{Runtime} :
  exists e0 e1,
    keywordDensity (analyze doc_hello_constructor) = [e0; e1]
    /\ keyword e0 = str "hello" /\ count e0 = VNumber 1
    /\ keyword e1 = str "constructor"
    /\ by_count_desc e0 e1 = NaN
    /\ value_ge (count e0) (count e1) = false.
Proof.
  rewrite analyze_ascii by (vm_compute; reflexivity).
  eexists _, _. split; [vm_compute; reflexivity|].
  repeat split.
Qed.

(** ** Words and tokens *)

Lemma trimStart_length s : length (trimStart s) <= length s.
Proof.
  destruct (trimStart_suffix s) as [pre Hpre].
  rewrite Hpre at 2. rewrite length_app. lia.
Qed.

Lemma trimStart_fixed s :
  length (trimStart s) = length s -> s <> [] -> starts_clean s = true.
Proof.
  destruct s as [|c t]; [congruence|]. intros Hlen _.
  cbn [trimStart starts_clean] in *.
  destruct (is_space c); [|reflexivity].
  pose proof (trimStart_length t). simpl in Hlen. lia.
Qed.

Lemma ends_clean_rev s :
  ends_clean s = match rev s with [] => true | c :: _ => negb (is_space c) end.
Proof.
  induction s as [|c t IH]; [reflexivity|].
  destruct t as [|d t]; [reflexivity|].
  change (ends_clean (c :: d :: t)) with (ends_clean (d :: t)). rewrite IH.
  change (rev (c :: d :: t)) with (rev (d :: t) ++ [c]).
  destruct (rev (d :: t)) as [|x r] eqn:Hr; [|reflexivity].
  apply (f_equal (@length _)) in Hr. rewrite length_rev in Hr. discriminate.
Qed.

Lemma trim_fixed s :
  trim s = s -> s <> [] -> starts_clean s = true /\ ends_clean s = true.
Proof.
  intros Ht Hne. unfold trim, trimEnd in Ht.
  assert (H1 : length (trimStart (rev (trimStart s))) <= length (trimStart s)).
  { rewrite <- (length_rev (trimStart s)). apply trimStart_length. }
  assert (H2 : length (trimStart s) <= length s) by apply trimStart_length.
  assert (H3 : length (trimStart (rev (trimStart s))) = length s).
  { rewrite <- (length_rev (trimStart _)), Ht. reflexivity. }
  assert (Hs : length (trimStart s) = length s) by lia.
  split; [apply trimStart_fixed; assumption|].
  assert (Heq : trimStart s = s).
  { destruct (trimStart_suffix s) as [pre Hpre].
    assert (length pre = 0).
    { apply (f_equal (@length _)) in Hpre. rewrite length_app in Hpre. lia. }
    destruct pre; [symmetry; exact Hpre|discriminate]. }
  rewrite Heq in *.
  assert (Hr : starts_clean (rev s) = true).
  { apply trimStart_fixed.
    - rewrite H3, length_rev. reflexivity.
    - intros Hnil. apply Hne. rewrite <- (rev_involutive s), Hnil. reflexivity. }
  rewrite ends_clean_rev. destruct (rev s); [reflexivity|exact Hr].
Qed.

Lemma trimStart_clean t :
  t <> [] -> ends_clean t = true ->
  starts_clean (trimStart t) = true /\ ends_clean (trimStart t) = true.
Proof.
  induction t as [|c t IH]; [congruence|]. intros _ He.
  cbn [trimStart]. destruct (is_space c) eqn:Hc.
  - destruct t as [|d t]; [simpl in He; rewrite Hc in He; discriminate|].
    apply IH; [discriminate|exact He].
  - split; [simpl; rewrite Hc; reflexivity|exact He].
Qed.

Lemma tokens_from_trimStart t :
  Spec.tokens_from [] t = Spec.tokens_from [] (trimStart t).
Proof.
  induction t as [|c t IH]; [reflexivity|].
  cbn [trimStart Spec.tokens_from].
  destruct (is_space c) eqn:Hc; [exact IH|].
  cbn [Spec.tokens_from]. rewrite Hc. reflexivity.
Qed.

Lemma split_loop_tokens fuel :
  forall piece s,
    length s < fuel ->
    piece <> [] \/ starts_clean s = true ->
    ends_clean s = true ->
    split_loop fuel re_spaces piece s = Spec.tokens_from (rev piece) s.
Proof.
  induction fuel as [|fuel IH]; intros piece s Hfuel Hstart Hend; [lia|].
  destruct s as [|c t].
  - destruct Hstart as [Hp|Hs]; [|discriminate].
    cbn [split_loop Spec.tokens_from].
    destruct (rev piece) eqn:Hr; [|rewrite <- Hr, rev_involutive; reflexivity].
    exfalso. apply Hp. rewrite <- (rev_involutive piece), Hr. reflexivity.
  - cbn [split_loop Spec.tokens_from]. rewrite exec_at_spaces.
    destruct (is_space c) eqn:Hc.
    + destruct Hstart as [Hp|Hs]; [|simpl in Hs; rewrite Hc in Hs; discriminate].
      assert (Ht : t <> [] /\ ends_clean t = true).
      { destruct t; [simpl in Hend; rewrite Hc in Hend; discriminate|].
        split; [discriminate|exact Hend]. }
      destruct Ht as [Htne Htend].
      destruct (trimStart_clean t Htne Htend) as [Hcs Hce].
      pose proof (trimStart_length t) as Hlen.
      assert (Hneq : (length (trimStart t) =? length (c :: t)) = false).
      { apply Nat.eqb_neq. simpl. lia. }
      rewrite Hneq. cbn [andb].
      rewrite IH; [| simpl in Hfuel; lia | right; exact Hcs | exact Hce].
      rewrite <- tokens_from_trimStart.
      destruct (rev piece) eqn:Hr; [|rewrite <- Hr, rev_involutive; reflexivity].
      exfalso. apply Hp. rewrite <- (rev_involutive piece), Hr. reflexivity.
    + rewrite IH.
      * rewrite rev_app_distr. reflexivity.
      * simpl in Hfuel. lia.
      * left. destruct piece; discriminate.
      * destruct t; [reflexivity|exact Hend].
Qed.

(** A text that is not empty and has no white space at either end is split
    into its tokens. *)
Lemma split_spaces_tokens s :
  s <> [] -> trim s = s -> split re_spaces s = Spec.tokens s.
Proof.
  intros Hne Ht. destruct (trim_fixed s Ht Hne) as [Hs He].
  destruct s as [|c t]; [congruence|].
  unfold split, Spec.tokens.
  apply split_loop_tokens; [lia|right; exact Hs|exact He].
Qed.

Lemma trimStart_idempotent s : trimStart (trimStart s) = trimStart s.
Proof.
  induction s as [|c t IH]; [reflexivity|].
  cbn [trimStart]. destruct (is_space c) eqn:Hc; [exact IH|].
  cbn [trimStart]. rewrite Hc. reflexivity.
Qed.

Lemma trimStart_snoc l c :
  is_space c = false -> exists x, trimStart (l ++ [c]) = x ++ [c].
Proof.
  intros Hc. induction l as [|d l [x IH]].
  - exists []. simpl. rewrite Hc. reflexivity.
  - cbn [app trimStart]. destruct (is_space d).
    + exists x. exact IH.
    + exists (d :: l). reflexivity.
Qed.

Lemma trim_idempotent s : trim (trim s) = trim s.
Proof.
  unfold trim.
  assert (Hstart : trimStart (trimEnd (trimStart s)) = trimEnd (trimStart s)).
  { pose proof (trimStart_idempotent s) as Hi.
    destruct (trimStart s) as [|c t]; [reflexivity|].
    cbn [trimStart] in Hi. destruct (is_space c) eqn:Hc.
    - pose proof (trimStart_length t) as Hl.
      apply (f_equal (@length _)) in Hi. simpl in Hi. lia.
    - unfold trimEnd. cbn [rev].
      destruct (trimStart_snoc (rev t) c Hc) as [x ->].
      rewrite rev_app_distr. cbn [rev app trimStart]. rewrite Hc. reflexivity. }
  rewrite Hstart. unfold trimEnd.
  rewrite rev_involutive, trimStart_idempotent. reflexivity.
Qed.

Lemma visibleText_trimmed `{Runtime} html : trim (visibleText html) = visibleText html.
Proof. unfold visibleText. apply toLowerCase_trimmed, trim_idempotent. Qed.

(** Where C2 holds: whenever the normalized text is not empty, the words
    are exactly its tokens, so [totalWords] is their number, the short ones
    included. *)
Lemma totalWords_counts_tokens `{Runtime} (html : jsstring) :
  visibleText html <> [] ->
  words html = Spec.tokens (visibleText html)
  /\ totalWords (analyze html) = length (Spec.tokens (visibleText html)).
Proof.
  intros Hne.
  assert (Hw : words html = Spec.tokens (visibleText html)).
  { unfold words. apply split_spaces_tokens; [exact Hne|apply visibleText_trimmed]. }
  split; [exact Hw|]. cbn [analyze totalWords]. rewrite Hw. reflexivity.
Qed.

(** ** The frequency object *)

Lemma lookup_In {A} k (l : list (jsstring * A)) v :
  lookup k l = Some v -> exists k', In (k', v) l.
Proof.
  induction l as [|[k' v'] l IH]; [discriminate|].
  cbn [lookup]. destruct (jsstring_eqb k k').
  - intros [= ->]. exists k'. left. reflexivity.
  - intros Hl. destruct (IH Hl) as [k'' Hin]. exists k''. right. exact Hin.
Qed.

Lemma Set_long_key o k v :
  3 < length k -> Forall long_key o -> Forall long_key (Set_ o k v).
Proof.
  intros Hk Ho. induction Ho as [|[k' v'] o Hhd Htl IH]; cbn [Set_].
  - constructor; [exact Hk|constructor].
  - destruct (jsstring_eqb k k'); constructor; assumption.
Qed.

Lemma Set_counted o k n :
  (1 <= n)%Z -> Forall counted o -> Forall counted (Set_ o k (VNumber n)).
Proof.
  intros Hn Ho.
  assert (Hnew : forall k', counted (k', VNumber n)) by (intros k'; exists n; auto).
  induction Ho as [|[k' v'] o Hhd Htl IH]; cbn [Set_].
  - constructor; [apply Hnew|constructor].
  - destruct (jsstring_eqb k k'); constructor; auto.
Qed.

Lemma Set_sum_new o k n :
  lookup k o = None ->
  counts_sum (Set_ o k (VNumber n)) = (counts_sum o + n)%Z.
Proof.
  induction o as [|[k' v'] o IH]; cbn [lookup Set_]; intros Hl.
  - simpl. lia.
  - destruct (jsstring_eqb k k'); [discriminate|].
    cbn [counts_sum fold_right snd] in *. fold (counts_sum o) in *.
    fold (counts_sum (Set_ o k (VNumber n))). rewrite (IH Hl).
    destruct v'; lia.
Qed.

Lemma Set_sum_update o k m n :
  lookup k o = Some (VNumber m) ->
  counts_sum (Set_ o k (VNumber n)) = (counts_sum o - m + n)%Z.
Proof.
  induction o as [|[k' v'] o IH]; cbn [lookup Set_]; intros Hl; [discriminate|].
  destruct (jsstring_eqb k k').
  - injection Hl as ->. cbn [counts_sum fold_right snd]. lia.
  - cbn [counts_sum fold_right snd] in *. fold (counts_sum o) in *.
    fold (counts_sum (Set_ o k (VNumber n))). rewrite (IH Hl).
    destruct v'; lia.
Qed.

Lemma count_word_long_key o w :
  Forall long_key o -> Forall long_key (count_word o w).
Proof.
  intros Ho. unfold count_word.
  destruct (3 <? length w) eqn:Hw; [|exact Ho].
  apply Set_long_key; [apply Nat.ltb_lt; exact Hw|exact Ho].
Qed.

Lemma wordFrequency_long_key ws : Forall long_key (wordFrequency ws).
Proof.
  unfold wordFrequency.
  assert (Hgen : forall o, Forall long_key o ->
                           Forall long_key (fold_left count_word ws o)).
  { induction ws as [|w ws IH]; intros o Ho; [exact Ho|].
    cbn [fold_left]. apply IH, count_word_long_key, Ho. }
  apply Hgen. constructor.
Qed.

(** One step of the count on a word that names nothing inherited: the
    values stay numbers from 1 up, and their sum grows by at most one. *)
Lemma count_word_counted o w m :
  inherited w = false ->
  Forall counted o -> (counts_sum o <= m)%Z ->
  Forall counted (count_word o w) /\ (counts_sum (count_word o w) <= m + 1)%Z.
Proof.
  intros Hw Ho Hsum. unfold count_word.
  destruct (3 <? length w); [|split; [exact Ho|lia]].
  unfold Get. destruct (lookup w o) as [v|] eqn:Hl.
  - destruct (lookup_In _ _ _ Hl) as [k' Hin].
    rewrite Forall_forall in Ho. destruct (Ho _ Hin) as (n & Hv & Hn).
    cbn [snd] in Hv. subst v. cbn [or_zero_plus_one].
    split.
    + apply Set_counted; [lia|apply Forall_forall; exact Ho].
    + rewrite (Set_sum_update _ _ _ _ Hl). lia.
  - unfold inherited in Hw.
    destruct (lookup w Object_prototype); [discriminate|].
    cbn [or_zero_plus_one]. split.
    + apply Set_counted; [lia|exact Ho].
    + rewrite (Set_sum_new _ _ _ Hl). lia.
Qed.

Lemma wordFrequency_counted ws :
  forallb (fun w => negb (inherited w)) ws = true ->
  Forall counted (wordFrequency ws)
  /\ (counts_sum (wordFrequency ws) <= Z.of_nat (length ws))%Z.
Proof.
  unfold wordFrequency.
  assert (Hgen : forall o m,
             forallb (fun w => negb (inherited w)) ws = true ->
             Forall counted o -> (counts_sum o <= m)%Z ->
             Forall counted (fold_left count_word ws o)
             /\ (counts_sum (fold_left count_word ws o) <= m + Z.of_nat (length ws))%Z).
  { induction ws as [|w ws IH]; intros o m Hws Ho Hm.
    - split; [exact Ho|simpl; lia].
    - cbn [forallb] in Hws. apply andb_prop in Hws. destruct Hws as [Hw Hws].
      apply negb_true_iff in Hw.
      destruct (count_word_counted o w m Hw Ho Hm) as [Ho' Hm'].
      destruct (IH _ _ Hws Ho' Hm') as [Hf Hs].
      cbn [fold_left]. split; [exact Hf|].
      change (length (w :: ws)) with (S (length ws)). lia. }
  intros Hws. apply (Hgen [] 0%Z Hws); [constructor|simpl; lia].
Qed.

Lemma counted_below_sum o :
  Forall counted o ->
  forall k n, In (k, VNumber n) o -> (n <= counts_sum o)%Z /\ (0 <= counts_sum o)%Z.
Proof.
  induction 1 as [|[k' v'] o (n' & Hv & Hn') Htl IH]; intros k n Hin; [destruct Hin|].
  cbn [snd] in Hv. subst v'.
  cbn [counts_sum fold_right snd]. fold (counts_sum o).
  assert (Hnonneg : (0 <= counts_sum o)%Z).
  { clear -Htl. induction Htl as [|[k v] o (n & Hv & Hn) _ IH]; [simpl; lia|].
    cbn [snd] in Hv. subst v.
    cbn [counts_sum fold_right snd]. fold (counts_sum o). lia. }
  destruct Hin as [[= _ <-]|Hin]; [lia|].
  destruct (IH _ _ Hin). lia.
Qed.

(** ** Entries, sort and cut *)

Lemma insert_index_In {A} n (x : A) l z :
  In z (insert_index n x l) -> z = (n, x) \/ In z l.
Proof.
  induction l as [|[m y] l IH]; cbn [insert_index].
  - intros [<-|[]]. left. reflexivity.
  - destruct (n <=? m)%N.
    + intros [<-|Hin]; [left; reflexivity|right; exact Hin].
    + intros [<-|Hin]; [right; left; reflexivity|].
      destruct (IH Hin) as [->|Hin']; [left; reflexivity|right; right; exact Hin'].
Qed.

Lemma index_entries_In o z : In z (index_entries o) -> In (snd z) o.
Proof.
  induction o as [|e o IH]; [intros []|].
  unfold index_entries. cbn [fold_right]. fold (index_entries o).
  destruct (array_index (fst e)) as [n|]; [|intros Hin; right; apply IH, Hin].
  intros Hin. apply insert_index_In in Hin.
  destruct Hin as [->|Hin]; [left; reflexivity|right; apply IH, Hin].
Qed.

(** [Object.entries] lists own properties only. *)
Lemma Object_entries_In o e : In e (Object_entries o) -> In e o.
Proof.
  unfold Object_entries. intros Hin. apply in_app_or in Hin.
  destruct Hin as [Hin|Hin].
  - apply in_map_iff in Hin. destruct Hin as (z & <- & Hz).
    apply index_entries_In, Hz.
  - apply filter_In in Hin. apply Hin.
Qed.

Lemma insert_sorted_In {A} (cmp : A -> A -> number) x l z :
  In z (insert_sorted cmp x l) -> z = x \/ In z l.
Proof.
  induction l as [|y l IH]; cbn [insert_sorted].
  - intros [<-|[]]. left. reflexivity.
  - destruct (comparator_positive (cmp x y)).
    + intros [<-|Hin]; [right; left; reflexivity|].
      destruct (IH Hin) as [->|Hin']; [left; reflexivity|right; right; exact Hin'].
    + intros [<-|Hin]; [left; reflexivity|right; exact Hin].
Qed.

Lemma sort_In {A} (cmp : A -> A -> number) l z : In z (sort cmp l) -> In z l.
Proof.
  revert z. induction l as [|x l IH]; intros z; [intros []|].
  cbn [sort]. intros Hin. apply insert_sorted_In in Hin.
  destruct Hin as [->|Hin]; [left; reflexivity|right; apply IH, Hin].
Qed.

Lemma firstn_In {A} n (l : list A) z : In z (firstn n l) -> In z l.
Proof.
  intros Hin. rewrite <- (firstn_skipn n l). apply in_or_app. left. exact Hin.
Qed.

(** Every ranked entry comes from an own property of the frequency object. *)
Lemma rank_In freq total e :
  In e (rank freq total) ->
  In (keyword e, count e) freq /\ density e = density_of (count e) total.
Proof.
  unfold rank. intros Hin.
  apply firstn_In, sort_In, in_map_iff in Hin.
  destruct Hin as ([k v] & <- & Hin). cbn [keyword count density fst snd].
  split; [apply Object_entries_In, Hin|reflexivity].
Qed.

(** The sort orders a list whose comparator follows an integer key. *)
Lemma insert_sorted_sorted {A} (cmp : A -> A -> number) (key : A -> Z) x l :
  (forall y, In y l -> comparator_positive (cmp x y) = (key x <? key y)%Z) ->
  StronglySorted (fun a b => (key b <= key a)%Z) l ->
  StronglySorted (fun a b => (key b <= key a)%Z) (insert_sorted cmp x l).
Proof.
  intros Hcmp Hs. induction Hs as [|y l Hs IH Hy]; cbn [insert_sorted].
  - constructor; constructor.
  - rewrite (Hcmp y (or_introl eq_refl)).
    destruct (Z.ltb_spec (key x) (key y)) as [Hlt|Hge].
    + constructor.
      * apply IH. intros z Hz. apply Hcmp. right. exact Hz.
      * apply Forall_forall. intros z Hz. apply insert_sorted_In in Hz.
        destruct Hz as [->|Hz]; [lia|].
        rewrite Forall_forall in Hy. apply Hy, Hz.
    + constructor; [constructor; assumption|].
      constructor; [exact Hge|].
      apply Forall_forall. intros z Hz.
      rewrite Forall_forall in Hy. specialize (Hy z Hz). lia.
Qed.

Lemma sort_sorted {A} (cmp : A -> A -> number) (key : A -> Z) l :
  (forall x y, In x l -> In y l ->
     comparator_positive (cmp x y) = (key x <? key y)%Z) ->
  StronglySorted (fun a b => (key b <= key a)%Z) (sort cmp l).
Proof.
  induction l as [|x l IH]; intros Hcmp; [constructor|].
  cbn [sort]. apply insert_sorted_sorted.
  - intros y Hy. apply Hcmp; [left; reflexivity|right; apply (sort_In cmp), Hy].
  - apply IH. intros a b Ha Hb. apply Hcmp; right; assumption.
Qed.

Lemma StronglySorted_firstn {A} (R : A -> A -> Prop) n l :
  StronglySorted R l -> StronglySorted R (firstn n l).
Proof.
  intros Hs. revert n. induction Hs as [|x l Hs IH Hx]; intros [|n];
    cbn [firstn]; try constructor.
  - apply IH.
  - apply Forall_forall. intros z Hz. apply firstn_In in Hz.
    rewrite Forall_forall in Hx. apply Hx, Hz.
Qed.

Lemma StronglySorted_nth {A} (R : A -> A -> Prop) l :
  StronglySorted R l ->
  forall i j d, i < j < length l -> R (nth i l d) (nth j l d).
Proof.
  induction 1 as [|x l Hs IH Hx]; intros i j d Hij; [simpl in Hij; lia|].
  destruct j as [|j]; [lia|]. destruct i as [|i].
  - cbn [nth]. rewrite Forall_forall in Hx. apply Hx, nth_In.
    simpl in Hij. lia.
  - cbn [nth]. apply IH. simpl in Hij. lia.
Qed.

(** ** The density of a numeric count *)

Lemma density_of_number n total :
  (1 <= n <= Z.of_nat total)%Z ->
  exists q, density_of (VNumber n) total = Num q /\ (0 <= q <= 100)%Q.
Proof.
  intros Hn. unfold density_of. cbn [to_number number_div].
  destruct (Qeq_bool (inject_Z (Z.of_nat total)) 0) eqn:Hz.
  { apply Qeq_bool_eq in Hz. unfold Qeq, inject_Z in Hz. simpl in Hz. lia. }
  cbn [number_mul]. eexists. split; [reflexivity|].
  assert (Hpos : (0 < inject_Z (Z.of_nat total))%Q).
  { unfold Qlt, inject_Z. simpl. lia. }
  assert (Hfrac : (0 <= inject_Z n / inject_Z (Z.of_nat total) <= 1)%Q).
  { split.
    - apply Qle_shift_div_l; [exact Hpos|].
      rewrite Qmult_0_l. unfold Qle, inject_Z. simpl. lia.
    - apply Qle_shift_div_r; [exact Hpos|].
      rewrite Qmult_1_l. unfold Qle, inject_Z. simpl. lia. }
  destruct Hfrac as [H0 H1]. split.
  - apply Qmult_le_0_compat; [exact H0|discriminate].
  - setoid_replace 100%Q with (1 * 100)%Q at 2 by reflexivity.
    apply Qmult_le_compat_r; [exact H1|discriminate].
Qed.

Lemma comparator_numbers a b :
  comparator_positive (number_sub (Num (inject_Z b)) (Num (inject_Z a)))
  = (a <? b)%Z.
Proof.
  cbn [number_sub comparator_positive].
  destruct (Qlt_le_dec 0 (inject_Z b - inject_Z a)) as [Hq|Hq];
    destruct (Z.ltb_spec a b) as [Hz|Hz]; try reflexivity; exfalso;
    unfold Qlt, Qle, Qminus, Qplus, Qopp, inject_Z in Hq; simpl in Hq; lia.
Qed.

Lemma value_ge_numbers a b : (b <= a)%Z -> value_ge (VNumber a) (VNumber b) = true.
Proof.
  intros Hab. unfold value_ge. cbn [to_number number_ge].
  apply Qle_bool_iff. unfold Qle, inject_Z. simpl. lia.
Qed.

(** ** The ranking in general *)

(** Where C3 holds without condition: every keyword is longer than three
    code units. *)
Lemma keyword_longer_than_3 `{Runtime} (html : jsstring) :
  Forall (fun e => 3 < length (keyword e)) (keywordDensity (analyze html)).
Proof.
  apply Forall_forall. intros e Hin. cbn [analyze keywordDensity] in Hin.
  apply rank_In in Hin. destruct Hin as [Hin _].
  pose proof (wordFrequency_long_key (words html)) as Hk.
  rewrite Forall_forall in Hk. apply (Hk _ Hin).
Qed.

(** Where C4 holds without condition: at most 20 entries. *)
Lemma keywordDensity_at_most_20 `{Runtime} (html : jsstring) :
  length (keywordDensity (analyze html)) <= 20.
Proof. cbn [analyze keywordDensity]. unfold rank. apply firstn_le_length. Qed.

Lemma ranked_entry_counted ws e :
  forallb (fun w => negb (inherited w)) ws = true ->
  In e (rank (wordFrequency ws) (length ws)) ->
  exists n, count e = VNumber n /\ (1 <= n <= Z.of_nat (length ws))%Z.
Proof.
  intros Hws Hin. apply rank_In in Hin. destruct Hin as [Hin _].
  destruct (wordFrequency_counted ws Hws) as [Hc Hsum].
  pose proof Hc as Hc'. rewrite Forall_forall in Hc'.
  destruct (Hc' _ Hin) as (n & Hv & Hn). cbn [snd] in Hv.
  exists n. split; [exact Hv|].
  rewrite Hv in Hin. destruct (counted_below_sum _ Hc _ _ Hin). lia.
Qed.

(** Where the rest of C3 holds: when no word of the document names an
    inherited property, every entry has a numeric count between 1 and
    [totalWords] and a density between 0 and 100. *)
Lemma keywordDensity_well_formed `{Runtime} (html : jsstring) :
  forallb (fun w => negb (inherited w)) (words html) = true ->
  Forall (well_formed_entry (totalWords (analyze html)))
         (keywordDensity (analyze html)).
Proof.
  intros Hws. apply Forall_forall. intros e Hin.
  split.
  { pose proof (keyword_longer_than_3 html) as Hk.
    rewrite Forall_forall in Hk. apply Hk, Hin. }
  cbn [analyze keywordDensity totalWords] in *.
  destruct (ranked_entry_counted _ _ Hws Hin) as (n & Hv & Hn).
  apply rank_In in Hin. destruct Hin as [_ Hd].
  destruct (density_of_number n _ Hn) as (q & Hq & Hrange).
  exists n, q. rewrite Hd, Hv. auto.
Qed.

(** Where the order of C4 holds: when no word of the document names an
    inherited property, the counts never increase along the sequence. *)
Lemma keywordDensity_ranked `{Runtime} (html : jsstring) :
  forallb (fun w => negb (inherited w)) (words html) = true ->
  ranked (keywordDensity (analyze html)).
Proof.
  intros Hws. cbn [analyze keywordDensity].
  set (ws := words html) in *.
  assert (Hnum : forall e, In e (rank (wordFrequency ws) (length ws)) ->
                           count e = VNumber (count_number e)).
  { intros e Hin. destruct (ranked_entry_counted _ _ Hws Hin) as (n & Hv & _).
    unfold count_number. rewrite Hv. reflexivity. }
  assert (Hsorted : StronglySorted (fun a b => (count_number b <= count_number a)%Z)
                      (rank (wordFrequency ws) (length ws))).
  { unfold rank. apply StronglySorted_firstn, sort_sorted.
    assert (Hall : forall x, In x (map (fun e => mkKeywordDensity (fst e) (snd e)
                                      (density_of (snd e) (length ws)))
                                   (Object_entries (wordFrequency ws))) ->
                             count x = VNumber (count_number x)).
    { intros x Hx. apply in_map_iff in Hx. destruct Hx as ([k v] & <- & Hx).
      apply Object_entries_In in Hx.
      destruct (wordFrequency_counted ws Hws) as [Hc _].
      rewrite Forall_forall in Hc. destruct (Hc _ Hx) as (n & Hv & _).
      cbn [snd fst] in *. subst v. reflexivity. }
    intros x y Hx Hy. unfold by_count_desc.
    rewrite (Hall x Hx), (Hall y Hy). cbn [to_number]. apply comparator_numbers. }
  intros i j d Hij.
  pose proof (StronglySorted_nth _ _ Hsorted i j d Hij) as Hle.
  rewrite (Hnum (nth i _ d)), (Hnum (nth j _ d)) by (apply nth_In; lia).
  apply value_ge_numbers, Hle.
Qed.

(** ** The loops have fuel enough *)

Lemma replace_loop_fuel r by_ f1 :
  forall f2 s, length s < f1 -> length s < f2 ->
    replace_loop f1 r by_ s = replace_loop f2 r by_ s.
Proof.
  induction f1 as [|f1 IH]; intros f2 s H1 H2; [lia|].
  destruct f2 as [|f2]; [lia|].
  destruct s as [|c t]; [reflexivity|].
  cbn [replace_loop]. simpl in H1, H2.
  destruct (exec_at r (c :: t)) as [rest|].
  - destruct (Nat.ltb_spec (length rest) (length (c :: t))) as [Hlt|Hge].
    + simpl in Hlt. rewrite (IH f2 rest) by lia. reflexivity.
    + rewrite (IH f2 t) by lia. reflexivity.
  - rewrite (IH f2 t) by lia. reflexivity.
Qed.

Lemma exec_at_not_longer r s rest :
  exec_at r s = Some rest -> length rest <= length s.
Proof.
  intros Hr. apply match_here_consumes in Hr.
  destruct Hr as (pre & -> & _). rewrite length_app. lia.
Qed.

Lemma split_loop_fuel r f1 :
  forall f2 piece s,
    2 * length s + (if length piece =? 0 then 0 else 1) < f1 ->
    2 * length s + (if length piece =? 0 then 0 else 1) < f2 ->
    split_loop f1 r piece s = split_loop f2 r piece s.
Proof.
  induction f1 as [|f1 IH]; intros f2 piece s H1 H2; [lia|].
  destruct f2 as [|f2]; [lia|].
  destruct s as [|c t]; [reflexivity|].
  cbn [split_loop].
  assert (Hgrow : split_loop f1 r (piece ++ [c]) t
                  = split_loop f2 r (piece ++ [c]) t).
  { apply IH; rewrite length_app; simpl in *;
      rewrite Nat.add_1_r; cbn [Nat.eqb]; lia. }
  destruct (exec_at r (c :: t)) as [rest|] eqn:He; [|exact Hgrow].
  pose proof (exec_at_not_longer _ _ _ He) as Hle.
  destruct (Nat.eqb_spec (length rest) (length (c :: t))) as [Heq|Hneq];
    destruct (Nat.eqb_spec (length piece) 0) as [Hp|Hp]; cbn [andb].
  - exact Hgrow.
  - f_equal. apply IH; cbn [length Nat.eqb]; simpl in *; lia.
  - f_equal. apply IH; cbn [length Nat.eqb]; simpl in *; lia.
  - f_equal. apply IH; cbn [length Nat.eqb]; simpl in *; lia.
Qed.

(** More fuel than [replace] and [split] give changes nothing. *)
Lemma replace_fuel r by_ s n :
  replace_loop (S (length s) + n) r by_ s = replace r by_ s.
Proof. unfold replace. apply replace_loop_fuel; lia. Qed.

Lemma split_fuel r c t n :
  split_loop (S (2 * length (c :: t)) + n) r [] (c :: t) = split r (c :: t).
Proof. unfold split. apply split_loop_fuel; cbn [length Nat.eqb]; lia. Qed.

(** ** The conditions of the general lemmas can be met *)

Example well_formed_on_hello :
  Forall (well_formed_entry 3) (keywordDensity (@analyze (ascii_runtime []) doc_hello)).
Proof.
  apply (@keywordDensity_well_formed (ascii_runtime []) doc_hello).
  vm_compute. reflexivity.
Qed.

Example ranked_on_hello :
  ranked (keywordDensity (@analyze (ascii_runtime []) doc_hello)).
Proof.
  apply (@keywordDensity_ranked (ascii_runtime []) doc_hello).
  vm_compute. reflexivity.
Qed.

Example tokens_on_hello :
  @words (ascii_runtime []) doc_hello = [str "hello"; str "hello"; str "world"]
  /\ totalWords (@analyze (ascii_runtime []) doc_hello) = 3.
Proof.
  destruct (@totalWords_counts_tokens (ascii_runtime []) doc_hello) as [Hw Ht].
  - vm_compute. discriminate.
  - rewrite Hw, Ht. vm_compute. split; reflexivity.
Qed.

(** * Further properties of the handler *)

Lemma jsstring_eqb_eq a b : jsstring_eqb a b = true <-> a = b.
Proof.
  revert b. induction a as [|x a IH]; intros [|y b]; cbn [jsstring_eqb];
    try (split; [discriminate|congruence]); [split; reflexivity|].
  rewrite andb_true_iff, N.eqb_eq, IH. split.
  - intros [-> ->]. reflexivity.
  - intros [= -> ->]. split; reflexivity.
Qed.

Lemma jsstring_eqb_refl a : jsstring_eqb a a = true.
Proof. apply jsstring_eqb_eq. reflexivity. Qed.

Lemma jsstring_eqb_neq a b : jsstring_eqb a b = false <-> a <> b.
Proof.
  split.
  - intros Hf Heq. apply jsstring_eqb_eq in Heq. congruence.
  - intros Hne. destruct (jsstring_eqb a b) eqn:He; [|reflexivity].
    apply jsstring_eqb_eq in He. contradiction.
Qed.

(** X1. Whatever the request and the network, the answer is one of three
    shapes: status 200 with the body "ok" (preflight), status 200 with a
    result, or status 500 with an error message.  A result never comes with
    500 nor an error with 200, and every JSON answer has the JSON headers. *)
Theorem handler_shapes `{Runtime}
        (fetch : json -> awaited FetchResponse) (req : Request) :
  handler fetch req = mkResponse (BodyText (str "ok")) corsHeaders 200
  \/ (exists r, handler fetch req = mkResponse (BodyResult r) json_headers 200)
  \/ (exists m, handler fetch req = mkResponse (BodyError m) json_headers 500).
Proof.
  unfold handler.
  destruct (jsstring_eqb (method req) (str "OPTIONS")); [left; reflexivity|].
  right. destruct (try_block fetch req) as [r|m].
  - left. exists r. reflexivity.
  - right. exists m. reflexivity.
Qed.

(** X2. The headers of a JSON answer give [application/json] for
    [Content-Type] and, for every other name, what [corsHeaders] gives. *)
Theorem json_headers_lookup `{Runtime} :
  lookup (str "Content-Type") json_headers = Some (str "application/json")
  /\ forall name, name <> str "Content-Type" ->
       lookup name json_headers = lookup name corsHeaders.
Proof.
  unfold json_headers. generalize corsHeaders as hs.
  intros hs. split.
  - induction hs as [|[n v] hs IH]; cbn [with_header lookup].
    + rewrite jsstring_eqb_refl. reflexivity.
    + destruct (jsstring_eqb (str "Content-Type") n) eqn:He; cbn [lookup];
        rewrite He; [reflexivity|exact IH].
  - intros name Hne. induction hs as [|[n v] hs IH]; cbn [with_header lookup].
    + apply jsstring_eqb_neq in Hne. rewrite Hne. reflexivity.
    + destruct (jsstring_eqb (str "Content-Type") n) eqn:He; cbn [lookup].
      * apply jsstring_eqb_eq in He. subst n.
        apply jsstring_eqb_neq in Hne. rewrite Hne. reflexivity.
      * rewrite IH. reflexivity.
Qed.

(** X3. Every body that can be destructured and whose [url] is falsy
    (absent, null, false, 0 or the empty string, and every body that is an
    array, a string, a number or a boolean) is answered with HTTP 500 and
    "URL is required", and the answer does not depend on the network: no
    fetch takes place. *)
Theorem falsy_url_required `{Runtime} (req : Request) (parsed : json)
        (url : option json) :
  jsstring_eqb (method req) (str "OPTIONS") = false ->
  body_json req = Resolved parsed ->
  destructure_url parsed = Resolved url ->
  falsy url = true ->
  forall fetch,
    handler fetch req
    = mkResponse (BodyError (str "URL is required")) json_headers 500.
Proof.
  intros Hm Hb Hd Hf fetch.
  unfold handler, try_block. rewrite Hm, Hb. cbn [bind].
  rewrite Hd. cbn [bind]. rewrite Hf. reflexivity.
Qed.

Lemma falsy_url_required_witness :
  @handler (ascii_runtime [])
    (fun _ => Resolved (mkFetchResponse true (str "OK") (Resolved (str "never read"))))
    (request_of "POST" (Resolved (JObject [(str "url", JNumber 0)])))
  = mkResponse (BodyError (str "URL is required"))
               (@json_headers (ascii_runtime [])) 500.
Proof.
  apply (@falsy_url_required (ascii_runtime []) _
           (JObject [(str "url", JNumber 0)]) (Some (JNumber 0)));
    reflexivity.
Defined.

(** X4. When the body cannot be read as JSON the answer is HTTP 500 with
    the message of that failure, and when it is the JSON [null] the answer
    is HTTP 500 with the message of the failed destructuring; in both cases
    whatever the network would say. *)
Theorem unreadable_body `{Runtime} (req : Request) :
  jsstring_eqb (method req) (str "OPTIONS") = false ->
  forall fetch,
    (forall message, body_json req = Rejected message ->
       handler fetch req = mkResponse (BodyError message) json_headers 500)
    /\ (body_json req = Resolved JNull ->
        handler fetch req
        = mkResponse (BodyError destructure_null_message) json_headers 500).
Proof.
  intros Hm fetch. split.
  - intros message Hb. unfold handler, try_block. rewrite Hm, Hb. reflexivity.
  - intros Hb. unfold handler, try_block. rewrite Hm, Hb. reflexivity.
Qed.

Lemma unreadable_body_witness :
  @handler (ascii_runtime []) (fun _ => Rejected [])
    (request_of "POST" (Rejected (str "Unexpected end of JSON input")))
  = mkResponse (BodyError (str "Unexpected end of JSON input"))
               (@json_headers (ascii_runtime [])) 500.
Proof.
  apply (proj1 (@unreadable_body (ascii_runtime [])
                  (request_of "POST" (Rejected (str "Unexpected end of JSON input")))
                  eq_refl (fun _ => Rejected []))).
  reflexivity.
Defined.

(** X5. For a request with a usable [url]: when the GET succeeds and its
    text arrives, the answer is HTTP 200 with the analysis of that text,
    whatever the status text; when reading the text fails, the answer is
    HTTP 500 with the message of that failure. *)
Theorem fetched_document `{Runtime}
        (fetch : json -> awaited FetchResponse) (req : Request)
        (parsed u : json) (response : FetchResponse) :
  jsstring_eqb (method req) (str "OPTIONS") = false ->
  body_json req = Resolved parsed ->
  destructure_url parsed = Resolved (Some u) ->
  falsy (Some u) = false ->
  fetch u = Resolved response ->
  ok response = true ->
  (forall html, text response = Resolved html ->
     handler fetch req = mkResponse (BodyResult (analyze html)) json_headers 200)
  /\ (forall message, text response = Rejected message ->
        handler fetch req = mkResponse (BodyError message) json_headers 500).
Proof.
  intros Hm Hb Hd Hf Hfetch Hok.
  assert (Ht : try_block fetch req = bind (text response)
                                       (fun html => Resolved (analyze html))).
  { unfold try_block. rewrite Hb. cbn [bind]. rewrite Hd. cbn [bind].
    rewrite Hf, Hfetch. cbn [bind]. rewrite Hok. reflexivity. }
  split; intros x Hx; unfold handler; rewrite Hm, Ht, Hx; reflexivity.
Qed.

Lemma fetched_document_witness :
  let response := mkFetchResponse true (str "OK") (Resolved doc_hello) in
  let fetch := fun _ : json => Resolved response in
  let req := request_of "POST"
               (Resolved (JObject [(str "url", JString (str "https://example.org/"))])) in
  @handler (ascii_runtime []) fetch req
  = mkResponse (BodyResult (@analyze (ascii_runtime []) doc_hello))
               (@json_headers (ascii_runtime [])) 200.
Proof.
  intros response fetch req.
  apply (proj1 (@fetched_document (ascii_runtime []) fetch req
                  (JObject [(str "url", JString (str "https://example.org/"))])
                  (JString (str "https://example.org/")) response
                  eq_refl eq_refl eq_refl eq_refl eq_refl eq_refl) doc_hello).
  reflexivity.
Defined.

(** * Further properties of the analysis *)

(** ** What the frequency object holds *)

Lemma lookup_Set_same o k v : lookup k (Set_ o k v) = Some v.
Proof.
  induction o as [|[k' v'] o IH]; cbn [Set_ lookup].
  - rewrite jsstring_eqb_refl. reflexivity.
  - destruct (jsstring_eqb k k') eqn:He; cbn [lookup]; rewrite He;
      [reflexivity|exact IH].
Qed.

Lemma lookup_Set_other o k k' v :
  k <> k' -> lookup k (Set_ o k' v) = lookup k o.
Proof.
  intros Hne. induction o as [|[k'' v''] o IH]; cbn [Set_ lookup].
  - apply jsstring_eqb_neq in Hne. rewrite Hne. reflexivity.
  - destruct (jsstring_eqb k' k'') eqn:He; cbn [lookup].
    + apply jsstring_eqb_eq in He. subst k''.
      rewrite (proj2 (jsstring_eqb_neq _ _) Hne). reflexivity.
    + rewrite IH. reflexivity.
Qed.

Lemma lookup_count_word_other o w x :
  w <> x -> lookup w (count_word o x) = lookup w o.
Proof.
  intros Hne. unfold count_word.
  destruct (3 <? length x); [|reflexivity].
  apply lookup_Set_other, Hne.
Qed.

Lemma lookup_count_word_same o w n :
  3 < length w -> inherited w = false ->
  lookup w o = tally n -> lookup w (count_word o w) = tally (S n).
Proof.
  intros Hlen Hinh Hl. unfold count_word.
  apply Nat.ltb_lt in Hlen. rewrite Hlen.
  rewrite lookup_Set_same. unfold Get. rewrite Hl.
  destruct n as [|n]; cbn [tally].
  - unfold inherited in Hinh.
    destruct (lookup w Object_prototype); [discriminate|]. reflexivity.
  - cbn [or_zero_plus_one]. do 2 f_equal. lia.
Qed.

Lemma occurrences_cons w x ws :
  occurrences w (x :: ws)
  = if jsstring_eqb w x then S (occurrences w ws) else occurrences w ws.
Proof.
  unfold occurrences. cbn [filter]. destruct (jsstring_eqb w x); reflexivity.
Qed.

Lemma fold_count_word_lookup w ws :
  3 < length w -> inherited w = false ->
  forall o n, lookup w o = tally n ->
    lookup w (fold_left count_word ws o) = tally (n + occurrences w ws).
Proof.
  intros Hlen Hinh. induction ws as [|x ws IH]; intros o n Hl.
  - cbn [fold_left]. rewrite Hl. f_equal. unfold occurrences. simpl. lia.
  - cbn [fold_left]. rewrite occurrences_cons.
    destruct (jsstring_eqb w x) eqn:He.
    + apply jsstring_eqb_eq in He. subst x.
      rewrite (IH _ (S n)) by (apply lookup_count_word_same; assumption).
      f_equal. lia.
    + apply jsstring_eqb_neq in He.
      apply IH. rewrite lookup_count_word_other by exact He. exact Hl.
Qed.

Lemma wordFrequency_tally (ws : list jsstring) (w : jsstring) :
  3 < length w -> inherited w = false ->
  lookup w (wordFrequency ws) = tally (occurrences w ws).
Proof.
  intros Hlen Hinh. unfold wordFrequency.
  apply (fold_count_word_lookup w ws Hlen Hinh [] 0). reflexivity.
Qed.

(** X6. The frequency object counts occurrences: for a word longer than
    three code units that names no inherited property, the own property of
    that name is the number of times the word occurs, and is absent when the
    word does not occur; what the object gives for the word is then that
    number, or undefined. *)
Theorem wordFrequency_occurrences (ws : list jsstring) (w : jsstring) :
  3 < length w -> inherited w = false ->
  lookup w (wordFrequency ws) = tally (occurrences w ws)
  /\ Get (wordFrequency ws) w
     = match occurrences w ws with
       | O => VUndefined
       | S n => VNumber (Z.of_nat (S n))
       end.
Proof.
  intros Hlen Hinh.
  pose proof (wordFrequency_tally ws w Hlen Hinh) as Hl.
  split; [exact Hl|].
  unfold Get. rewrite Hl. destruct (occurrences w ws); cbn [tally]; [|reflexivity].
  unfold inherited in Hinh.
  destruct (lookup w Object_prototype); [discriminate|reflexivity].
Qed.

Lemma wordFrequency_occurrences_witness :
  lookup (str "hello") (wordFrequency [str "hello"; str "the"; str "hello"])
  = Some (VNumber 2)
  /\ Get (wordFrequency [str "hello"; str "the"; str "hello"]) (str "hello")
     = VNumber 2.
Proof.
  apply (wordFrequency_occurrences [str "hello"; str "the"; str "hello"] (str "hello"));
    [vm_compute; lia|reflexivity].
Defined.

(** ** The order and the names of the own properties *)

Lemma Set_keys_present o k v :
  existsb (jsstring_eqb k) (map fst o) = true ->
  map fst (Set_ o k v) = map fst o.
Proof.
  induction o as [|[k' v'] o IH]; cbn [Set_ map fst existsb]; [discriminate|].
  destruct (jsstring_eqb k k') eqn:He; cbn [orb map fst]; [reflexivity|].
  intros Hex. rewrite IH by exact Hex. reflexivity.
Qed.

Lemma Set_keys_absent o k v :
  existsb (jsstring_eqb k) (map fst o) = false ->
  map fst (Set_ o k v) = map fst o ++ [k].
Proof.
  induction o as [|[k' v'] o IH]; cbn [Set_ map fst existsb app]; [reflexivity|].
  destruct (jsstring_eqb k k') eqn:He; cbn [orb map fst]; [discriminate|].
  intros Hex. rewrite IH by exact Hex. reflexivity.
Qed.

Lemma fold_count_word_keys ws :
  forall o, map fst (fold_left count_word ws o)
            = map fst o ++ first_seen (map fst o) ws.
Proof.
  induction ws as [|w ws IH]; intros o; cbn [fold_left first_seen].
  - rewrite app_nil_r. reflexivity.
  - rewrite IH. unfold count_word.
    destruct (3 <? length w); cbn [andb]; [|reflexivity].
    destruct (existsb (jsstring_eqb w) (map fst o)) eqn:Hex; cbn [negb].
    + rewrite Set_keys_present by exact Hex. reflexivity.
    + rewrite Set_keys_absent by exact Hex. rewrite <- app_assoc. reflexivity.
Qed.

Lemma wordFrequency_first_seen (ws : list jsstring) :
  map fst (wordFrequency ws) = first_seen [] ws.
Proof. unfold wordFrequency. apply (fold_count_word_keys ws []). Qed.

Lemma existsb_jsstring_In w l : existsb (jsstring_eqb w) l = true <-> In w l.
Proof.
  rewrite existsb_exists. split.
  - intros (x & Hx & He). apply jsstring_eqb_eq in He. subst x. exact Hx.
  - intros Hin. exists w. split; [exact Hin|apply jsstring_eqb_refl].
Qed.

Lemma first_seen_In ws :
  forall seen x,
    In x (first_seen seen ws) <-> In x ws /\ 3 < length x /\ ~ In x seen.
Proof.
  induction ws as [|w ws IH]; intros seen x; cbn [first_seen].
  - split; [intros []|intros [[] _]].
  - destruct (Nat.ltb_spec 3 (length w)) as [Hlen|Hlen]; cbn [andb].
    + destruct (existsb (jsstring_eqb w) seen) eqn:Hex; cbn [negb].
      * apply existsb_jsstring_In in Hex. rewrite IH. split.
        -- intros (Hin & Hl & Hs). repeat split; [right; exact Hin|exact Hl|exact Hs].
        -- intros ([<-|Hin] & Hl & Hs); [contradiction|]. repeat split; assumption.
      * assert (Hns : ~ In w seen).
        { intros Hin. apply existsb_jsstring_In in Hin. congruence. }
        cbn [In]. rewrite IH. split.
        -- intros [<-|(Hin & Hl & Hs)].
           ++ repeat split; [left; reflexivity|exact Hlen|exact Hns].
           ++ repeat split; [right; exact Hin|exact Hl|].
              intros Hx. apply Hs, in_or_app. left. exact Hx.
        -- intros ([<-|Hin] & Hl & Hs); [left; reflexivity|].
           destruct (list_eq_dec N.eq_dec w x) as [->|Hne]; [left; reflexivity|].
           right. repeat split; [exact Hin|exact Hl|].
           intros Hx. apply in_app_or in Hx. destruct Hx as [Hx|[->|[]]];
             [apply Hs, Hx|apply Hne; reflexivity].
    + rewrite IH. split.
      * intros (Hin & Hl & Hs). repeat split; [right; exact Hin|exact Hl|exact Hs].
      * intros ([<-|Hin] & Hl & Hs); [lia|]. repeat split; assumption.
Qed.

Lemma first_seen_NoDup ws : forall seen, NoDup (first_seen seen ws).
Proof.
  induction ws as [|w ws IH]; intros seen; cbn [first_seen]; [constructor|].
  destruct ((3 <? length w) && negb (existsb (jsstring_eqb w) seen)); [|apply IH].
  constructor; [|apply IH].
  intros Hin. apply first_seen_In in Hin. destruct Hin as (_ & _ & Hs).
  apply Hs, in_or_app. right. left. reflexivity.
Qed.

(** X7. The own properties of the frequency object are created in the
    order in which the words longer than three code units first occur in
    the text, whatever their values: their names are those words, each
    once. *)
Theorem wordFrequency_keys (ws : list jsstring) :
  map fst (wordFrequency ws) = first_seen [] ws
  /\ NoDup (map fst (wordFrequency ws))
  /\ forall w, In w (map fst (wordFrequency ws)) <-> In w ws /\ 3 < length w.
Proof.
  rewrite wordFrequency_first_seen.
  split; [reflexivity|]. split; [apply first_seen_NoDup|].
  intros w. rewrite first_seen_In. split.
  - intros (Hin & Hl & _). split; assumption.
  - intros [Hin Hl]. repeat split; [exact Hin|exact Hl|intros []].
Qed.

(** ** [Object.entries], the sort and the cut keep the entries they are given *)

Lemma insert_index_Permutation {A} n (x : A) l :
  Permutation (insert_index n x l) ((n, x) :: l).
Proof.
  induction l as [|[m y] l IH]; cbn [insert_index]; [reflexivity|].
  destruct (n <=? m)%N; [reflexivity|].
  rewrite IH. apply perm_swap.
Qed.

Lemma index_entries_Permutation o :
  Permutation (map snd (index_entries o)) (filter is_index_key o).
Proof.
  induction o as [|e o IH]; [reflexivity|].
  unfold index_entries. cbn [fold_right filter]. fold (index_entries o).
  unfold is_index_key at 1.
  destruct (array_index (fst e)) as [n|]; [|exact IH].
  rewrite insert_index_Permutation. cbn [map snd]. constructor. exact IH.
Qed.

Lemma filter_split_Permutation {A} (p : A -> bool) l :
  Permutation (filter p l ++ filter (fun x => negb (p x)) l) l.
Proof.
  induction l as [|x l IH]; [reflexivity|].
  cbn [filter]. destruct (p x); cbn [negb app].
  - constructor. exact IH.
  - rewrite <- Permutation_middle. constructor. exact IH.
Qed.

(** [Object.entries] lists every own property exactly once: its result is
    a rearrangement of the own properties. *)
Lemma Object_entries_Permutation (o : object) :
  Permutation (Object_entries o) o.
Proof.
  unfold Object_entries. rewrite index_entries_Permutation.
  apply filter_split_Permutation.
Qed.

Lemma insert_sorted_Permutation {A} (cmp : A -> A -> number) x l :
  Permutation (insert_sorted cmp x l) (x :: l).
Proof.
  induction l as [|y l IH]; cbn [insert_sorted]; [reflexivity|].
  destruct (comparator_positive (cmp x y)); [|reflexivity].
  rewrite IH. apply perm_swap.
Qed.

Lemma sort_Permutation {A} (cmp : A -> A -> number) l :
  Permutation (sort cmp l) l.
Proof.
  induction l as [|x l IH]; [reflexivity|].
  cbn [sort]. rewrite insert_sorted_Permutation. constructor. exact IH.
Qed.

Lemma NoDup_firstn {A} n (l : list A) : NoDup l -> NoDup (firstn n l).
Proof.
  intros Hnd. rewrite <- (firstn_skipn n l) in Hnd.
  apply NoDup_app_remove_r in Hnd. exact Hnd.
Qed.

(** The ranked entries before the cut. *)
Lemma rank_sorted_all freq total :
  rank freq total
  = firstn 20 (sort by_count_desc
                 (map (fun e => mkKeywordDensity (fst e) (snd e)
                                  (density_of (snd e) total))
                      (Object_entries freq))).
Proof. reflexivity. Qed.

Lemma keywords_before_cut freq total :
  Permutation
    (map keyword (sort by_count_desc
                    (map (fun e => mkKeywordDensity (fst e) (snd e)
                                     (density_of (snd e) total))
                         (Object_entries freq))))
    (map fst freq).
Proof.
  rewrite sort_Permutation, map_map. cbn [keyword].
  apply Permutation_map, Object_entries_Permutation.
Qed.

(** X8. For every document the keywords returned are pairwise distinct,
    each is a word of the document longer than three code units, and there
    are as many as there are distinct such words, up to 20. *)
Theorem keywords_distinct_words `{Runtime} (html : jsstring) :
  NoDup (map keyword (keywordDensity (analyze html)))
  /\ (forall k, In k (map keyword (keywordDensity (analyze html))) ->
        In k (words html) /\ 3 < length k)
  /\ length (keywordDensity (analyze html))
     = Nat.min 20 (length (first_seen [] (words html))).
Proof.
  cbn [analyze keywordDensity]. set (ws := words html).
  rewrite rank_sorted_all.
  pose proof (keywords_before_cut (wordFrequency ws) (length ws)) as Hperm.
  rewrite wordFrequency_first_seen in Hperm.
  set (sorted := sort by_count_desc _) in *.
  assert (Hnd : NoDup (map keyword sorted)).
  { apply (Permutation_NoDup (Permutation_sym Hperm)), first_seen_NoDup. }
  split; [|split].
  - rewrite <- firstn_map. apply NoDup_firstn, Hnd.
  - intros k Hk. rewrite <- firstn_map in Hk. apply firstn_In in Hk.
    apply (Permutation_in _ Hperm) in Hk. apply first_seen_In in Hk.
    destruct Hk as (Hin & Hl & _). split; assumption.
  - rewrite length_firstn. f_equal.
    rewrite <- (length_map keyword). apply Permutation_length, Hperm.
Qed.

(** ** Count and density of an entry *)

Lemma In_lookup {A} (l : list (jsstring * A)) k v :
  NoDup (map fst l) -> In (k, v) l -> lookup k l = Some v.
Proof.
  induction l as [|[k' v'] l IH]; cbn [map fst lookup]; [intros _ []|].
  intros Hnd [Heq|Hin].
  - injection Heq as -> ->. rewrite jsstring_eqb_refl. reflexivity.
  - apply NoDup_cons_iff in Hnd. destruct Hnd as [Hk Hnd].
    destruct (jsstring_eqb k k') eqn:He; [|apply IH; assumption].
    apply jsstring_eqb_eq in He. subst k'.
    exfalso. apply Hk. apply (in_map fst) in Hin. exact Hin.
Qed.

Lemma wordFrequency_NoDup ws : NoDup (map fst (wordFrequency ws)).
Proof. rewrite wordFrequency_first_seen. apply first_seen_NoDup. Qed.

(** X9. For every document, an entry whose keyword names no inherited
    property has as count the number of times the keyword occurs among the
    words, at least once, and as density that number divided by
    [totalWords], times 100. *)
Theorem entry_count_density `{Runtime} (html : jsstring) (e : KeywordDensity) :
  In e (keywordDensity (analyze html)) ->
  inherited (keyword e) = false ->
  let n := occurrences (keyword e) (words html) in
  1 <= n
  /\ count e = VNumber (Z.of_nat n)
  /\ density e
     = Num (inject_Z (Z.of_nat n)
            / inject_Z (Z.of_nat (totalWords (analyze html))) * 100).
Proof.
  intros Hin Hinh n. cbn [analyze keywordDensity totalWords] in *.
  set (ws := words html) in *.
  apply rank_In in Hin. destruct Hin as [Hin Hd].
  assert (Hlen : 3 < length (keyword e)).
  { pose proof (wordFrequency_long_key ws) as Hk.
    rewrite Forall_forall in Hk. apply (Hk _ Hin). }
  pose proof (In_lookup _ _ _ (wordFrequency_NoDup ws) Hin) as Hl.
  rewrite (wordFrequency_tally ws _ Hlen Hinh) in Hl. fold n in Hl.
  destruct n as [|n']; [discriminate|]. cbn [tally] in Hl. injection Hl as Hc.
  split; [lia|]. split; [symmetry; exact Hc|].
  rewrite Hd, <- Hc. unfold density_of. cbn [to_number number_div].
  assert (Hpos : 1 <= length ws) by apply split_spaces_nonempty.
  destruct (Qeq_bool (inject_Z (Z.of_nat (length ws))) 0) eqn:Hz; [|reflexivity].
  apply Qeq_bool_eq in Hz. unfold Qeq, inject_Z in Hz. simpl in Hz. lia.
Qed.

Lemma entry_count_density_witness :
  let e := mkKeywordDensity (str "hello") (VNumber 2) (Num (200 # 3)) in
  1 <= occurrences (keyword e) (@words (ascii_runtime []) doc_hello)
  /\ count e = VNumber (Z.of_nat (occurrences (keyword e)
                                    (@words (ascii_runtime []) doc_hello)))
  /\ density e
     = Num (inject_Z (Z.of_nat (occurrences (keyword e)
                                  (@words (ascii_runtime []) doc_hello)))
            / inject_Z (Z.of_nat (totalWords (@analyze (ascii_runtime []) doc_hello)))
            * 100).
Proof.
  intros e.
  apply (@entry_count_density (ascii_runtime []) doc_hello e).
  - vm_compute. left. reflexivity.
  - reflexivity.
Defined.

(** ** Ties, the cut and the sum of the densities *)

Lemma insert_sorted_stable {A} (cmp : A -> A -> number) (key : A -> Z) c x l :
  (forall y, In y l -> comparator_positive (cmp x y) = (key x <? key y)%Z) ->
  filter (fun e => (key e =? c)%Z) (insert_sorted cmp x l)
  = filter (fun e => (key e =? c)%Z) (x :: l).
Proof.
  induction l as [|y l IH]; intros Hcmp; cbn [insert_sorted]; [reflexivity|].
  rewrite (Hcmp y (or_introl eq_refl)).
  destruct (Z.ltb_spec (key x) (key y)) as [Hlt|Hge]; [|reflexivity].
  cbn [filter]. rewrite IH by (intros z Hz; apply Hcmp; right; exact Hz).
  cbn [filter].
  destruct (Z.eqb_spec (key x) c), (Z.eqb_spec (key y) c); try reflexivity; lia.
Qed.

Lemma sort_stable {A} (cmp : A -> A -> number) (key : A -> Z) c l :
  (forall x y, In x l -> In y l ->
     comparator_positive (cmp x y) = (key x <? key y)%Z) ->
  filter (fun e => (key e =? c)%Z) (sort cmp l)
  = filter (fun e => (key e =? c)%Z) l.
Proof.
  induction l as [|x l IH]; intros Hcmp; [reflexivity|].
  cbn [sort]. rewrite insert_sorted_stable.
  - cbn [filter]. rewrite IH by (intros a b Ha Hb; apply Hcmp; right; assumption).
    reflexivity.
  - intros y Hy. apply Hcmp; [left; reflexivity|right; apply (sort_In cmp), Hy].
Qed.

(** When no word names an inherited property, the comparator of the sort
    follows the numeric counts on the entries of the frequency object. *)
Lemma comparator_follows_counts ws total x y :
  forallb (fun w => negb (inherited w)) ws = true ->
  In x (map (fun e => mkKeywordDensity (fst e) (snd e) (density_of (snd e) total))
            (Object_entries (wordFrequency ws))) ->
  In y (map (fun e => mkKeywordDensity (fst e) (snd e) (density_of (snd e) total))
            (Object_entries (wordFrequency ws))) ->
  comparator_positive (by_count_desc x y) = (count_number x <? count_number y)%Z.
Proof.
  intros Hws Hx Hy.
  assert (Hall : forall z,
             In z (map (fun e => mkKeywordDensity (fst e) (snd e)
                                   (density_of (snd e) total))
                       (Object_entries (wordFrequency ws))) ->
             count z = VNumber (count_number z)).
  { intros z Hz. apply in_map_iff in Hz. destruct Hz as ([k v] & <- & Hz).
    apply Object_entries_In in Hz.
    destruct (wordFrequency_counted ws Hws) as [Hc _].
    rewrite Forall_forall in Hc. destruct (Hc _ Hz) as (n & Hv & _).
    cbn [snd fst] in *. subst v. reflexivity. }
  unfold by_count_desc. rewrite (Hall x Hx), (Hall y Hy). cbn [to_number].
  apply comparator_numbers.
Qed.

Lemma filter_firstn_skipn {A} (p : A -> bool) n (l : list A) :
  filter p l = filter p (firstn n l) ++ filter p (skipn n l).
Proof. rewrite <- filter_app, firstn_skipn. reflexivity. Qed.

(** X10. The sort is stable on the counts: when no word of the document
    names an inherited property, the returned entries that share a count
    are, in this order, the first of the entries of [Object.entries] with
    that count. *)
Theorem ties_keep_entries_order `{Runtime} (html : jsstring) (c : Z) :
  forallb (fun w => negb (inherited w)) (words html) = true ->
  exists cut,
    filter (fun e => (count_number e =? c)%Z)
           (map (fun e => mkKeywordDensity (fst e) (snd e)
                            (density_of (snd e) (length (words html))))
                (Object_entries (wordFrequency (words html))))
    = filter (fun e => (count_number e =? c)%Z) (keywordDensity (analyze html))
      ++ cut.
Proof.
  intros Hws. cbn [analyze keywordDensity]. rewrite rank_sorted_all.
  set (all := map _ (Object_entries _)).
  exists (filter (fun e => (count_number e =? c)%Z)
                 (skipn 20 (sort by_count_desc all))).
  rewrite <- filter_firstn_skipn. symmetry.
  apply sort_stable. intros x y Hx Hy.
  apply (comparator_follows_counts _ _ _ _ Hws Hx Hy).
Qed.

Lemma ties_keep_entries_order_witness :
  exists cut,
    filter (fun e => (count_number e =? 1)%Z)
           (map (fun e => mkKeywordDensity (fst e) (snd e)
                            (density_of (snd e)
                               (length (@words (ascii_runtime []) doc_hello))))
                (Object_entries (wordFrequency (@words (ascii_runtime []) doc_hello))))
    = filter (fun e => (count_number e =? 1)%Z)
             (keywordDensity (@analyze (ascii_runtime []) doc_hello))
      ++ cut.
Proof.
  apply (@ties_keep_entries_order (ascii_runtime []) doc_hello 1%Z).
  vm_compute. reflexivity.
Defined.

Lemma StronglySorted_app_inv {A} (R : A -> A -> Prop) l1 l2 :
  StronglySorted R (l1 ++ l2) ->
  forall x y, In x l1 -> In y l2 -> R x y.
Proof.
  induction l1 as [|a l1 IH]; intros Hs x y Hx Hy; [destruct Hx|].
  cbn [app] in Hs. apply StronglySorted_inv in Hs. destruct Hs as [Hs Ha].
  destruct Hx as [<-|Hx].
  - rewrite Forall_forall in Ha. apply Ha, in_or_app. right. exact Hy.
  - apply IH; assumption.
Qed.

(** X11. The cut keeps the most frequent: when no word of the document
    names an inherited property, a word of the frequency object that is not
    among the returned keywords has a count that is at most the count of
    every returned entry. *)
Theorem cut_keeps_most_frequent `{Runtime} (html : jsstring) (k : jsstring) (n : Z) :
  forallb (fun w => negb (inherited w)) (words html) = true ->
  In (k, VNumber n) (wordFrequency (words html)) ->
  ~ In k (map keyword (keywordDensity (analyze html))) ->
  forall e, In e (keywordDensity (analyze html)) -> (n <= count_number e)%Z.
Proof.
  intros Hws Hin Hout e He. cbn [analyze keywordDensity] in *.
  set (ws := words html) in *. rewrite rank_sorted_all in *.
  set (all := map _ (Object_entries _)) in *.
  assert (Hsorted : StronglySorted (fun a b => (count_number b <= count_number a)%Z)
                      (sort by_count_desc all)).
  { apply sort_sorted. intros x y Hx Hy.
    apply (comparator_follows_counts _ _ _ _ Hws Hx Hy). }
  set (entry := mkKeywordDensity k (VNumber n) (density_of (VNumber n) (length ws))).
  assert (Hall : In entry (sort by_count_desc all)).
  { apply (Permutation_in _ (Permutation_sym (sort_Permutation _ _))).
    apply in_map_iff. exists (k, VNumber n). split; [reflexivity|].
    apply (Permutation_in _ (Permutation_sym (Object_entries_Permutation _))), Hin. }
  rewrite <- (firstn_skipn 20 (sort by_count_desc all)) in Hall, Hsorted.
  apply in_app_or in Hall. destruct Hall as [Hkept|Hcut].
  - exfalso. apply Hout. apply (in_map keyword) in Hkept. exact Hkept.
  - apply (StronglySorted_app_inv _ _ _ Hsorted e entry He Hcut).
Qed.

Lemma cut_keeps_most_frequent_witness :
  let html := str "aaaa bbbb cccc dddd eeee ffff gggg hhhh iiii jjjj kkkk llll mmmm nnnn oooo pppp qqqq rrrr ssss tttt uuuu tttt" in
  Forall (fun e => (1 <= count_number e)%Z)
         (keywordDensity (@analyze (ascii_runtime []) html)).
Proof.
  intros html. apply Forall_forall.
  apply (@cut_keeps_most_frequent (ascii_runtime []) html (str "uuuu") 1%Z).
  - vm_compute. reflexivity.
  - vm_compute. do 20 right. left. reflexivity.
  - vm_compute. intros Hin.
    repeat (destruct Hin as [Hin|Hin]; [discriminate Hin|]). exact Hin.
Defined.









(** * Further properties of the normalization *)

Lemma tokens_from_clean s :
  forall cur,
    forallb (fun c => negb (is_space c)) cur = true ->
    Forall (fun w => w <> [] /\ forallb (fun c => negb (is_space c)) w = true)
           (Spec.tokens_from cur s).
Proof.
  assert (Hrev : forall cur, cur <> [] ->
             forallb (fun c => negb (is_space c)) cur = true ->
             rev cur <> [] /\ forallb (fun c => negb (is_space c)) (rev cur) = true).
  { intros cur Hne Hc. split.
    - intros Hr. apply Hne. rewrite <- (rev_involutive cur), Hr. reflexivity.
    - apply forallb_forall. intros x Hx. apply in_rev in Hx.
      rewrite forallb_forall in Hc. apply Hc, Hx. }
  induction s as [|c t IH]; intros cur Hcur; cbn [Spec.tokens_from].
  - destruct cur as [|x cur]; [constructor|].
    constructor; [apply Hrev; [discriminate|exact Hcur]|constructor].
  - destruct (is_space c) eqn:Hc.
    + destruct cur as [|x cur]; [apply IH; reflexivity|].
      constructor; [apply Hrev; [discriminate|exact Hcur]|apply IH; reflexivity].
    + apply IH. cbn [forallb]. rewrite Hc, Hcur. reflexivity.
Qed.

(** X13. No word has white space in it, whatever the document; and when
    the normalized text is not empty, no word is empty. *)
Theorem words_have_no_space `{Runtime} (html : jsstring) :
  Forall (fun w => forallb (fun c => negb (is_space c)) w = true) (words html)
  /\ (visibleText html <> [] -> Forall (fun w => w <> []) (words html)).
Proof.
  destruct (visibleText html) as [|c t] eqn:Hv.
  - unfold words. rewrite Hv. split; [|congruence].
    constructor; [reflexivity|constructor].
  - assert (Hw : words html = Spec.tokens (visibleText html)).
    { unfold words. apply split_spaces_tokens;
        [rewrite Hv; discriminate|apply visibleText_trimmed]. }
    rewrite Hw. pose proof (tokens_from_clean (visibleText html) [] eq_refl) as Hc.
    fold (Spec.tokens (visibleText html)) in Hc. rewrite Forall_forall in Hc.
    split; [|intros _]; apply Forall_forall; intros w Hin; apply (Hc w Hin).
Qed.

Lemma same_letter_lt c : Spec.same_letter ch_lt c = N.eqb c ch_lt.
Proof.
  unfold Spec.same_letter, ascii_lower, ch_lt.
  split_N_ranges; cbn [andb]; split_N_tests; reflexivity.
Qed.

Lemma block_needs_lt name (c : char16) (t : jsstring) :
  N.eqb c ch_lt = false -> Spec.block name (c :: t) = None.
Proof.
  intros Hc. unfold Spec.block. cbn [Spec.starts_with_ci].
  rewrite same_letter_lt, Hc. reflexivity.
Qed.

Lemma tag_needs_lt (c : char16) (t : jsstring) :
  N.eqb c ch_lt = false -> Spec.tag (c :: t) = None.
Proof.
  intros Hc. unfold Spec.tag. destruct t; [reflexivity|]. rewrite Hc. reflexivity.
Qed.

Lemma substitute_without_lt at_ by_ s :
  (forall c t, N.eqb c ch_lt = false -> at_ (c :: t) = None) ->
  forallb (fun c => negb (N.eqb c ch_lt)) s = true ->
  Spec.substitute at_ by_ 0 s = s.
Proof.
  intros Hat. induction s as [|c t IH]; [reflexivity|].
  cbn [forallb Spec.substitute]. intros Hs.
  apply andb_prop in Hs. destruct Hs as [Hc Hs]. apply negb_true_iff in Hc.
  rewrite (Hat c t Hc), (IH Hs). reflexivity.
Qed.

(** X14. A document without any [<] is left alone by the three markup
    replacements: its normalized text is its own text with the runs of white
    space collapsed, trimmed and lower-cased. *)
Theorem text_without_markup `{Runtime} (html : jsstring) :
  forallb (fun c => negb (N.eqb c ch_lt)) html = true ->
  replace re_tag [space] (replace re_script [] (replace re_style [] html)) = html
  /\ visibleText html = toLowerCase (trim (Spec.collapse_spaces html)).
Proof.
  intros Hlt.
  assert (Hsame : replace re_tag [space]
                    (replace re_script [] (replace re_style [] html)) = html).
  { rewrite replace_style. unfold Spec.remove_blocks.
    rewrite substitute_without_lt by (auto using block_needs_lt).
    rewrite replace_script. unfold Spec.remove_blocks.
    rewrite substitute_without_lt by (auto using block_needs_lt).
    rewrite replace_tag. unfold Spec.replace_tags.
    apply substitute_without_lt; auto using tag_needs_lt. }
  split; [exact Hsame|].
  unfold visibleText. rewrite Hsame, replace_spaces. reflexivity.
Qed.

Lemma text_without_markup_witness :
  @visibleText (ascii_runtime []) (str "  Plain   TEXT > here ")
  = str "plain text > here".
Proof.
  destruct (@text_without_markup (ascii_runtime []) (str "  Plain   TEXT > here "))
    as [_ Hv]; [reflexivity|].
  rewrite Hv. reflexivity.
Defined.

(** * Further properties of the error body *)





(** * No tag is left after the tag replacement *)

Lemma after_gt_In s r : Spec.after_gt s = Some r -> In ch_gt s.
Proof.
  revert r. induction s as [|c t IH]; intros r; cbn [Spec.after_gt]; [discriminate|].
  destruct (N.eqb_spec c ch_gt) as [->|_]; [left; reflexivity|].
  intros Hr. right. apply (IH _ Hr).
Qed.

Lemma tag_needs_gt s r : Spec.tag s = Some r -> In ch_gt s.
Proof.
  unfold Spec.tag. destruct s as [|c [|d t]]; try discriminate.
  destruct (N.eqb c ch_lt && negb (N.eqb d ch_gt)); [|discriminate].
  intros Hr. right. right. apply (after_gt_In _ _ Hr).
Qed.

Lemma tag_shorter s r :
  Spec.tag s = Some r -> exists c pre, s = c :: pre ++ r.
Proof.
  rewrite <- exec_at_tag. intros Hr.
  destruct (exec_at_shorter re_tag s r) as ([|c pre] & Hs & Hlen);
    [vm_compute; lia|exact Hr|simpl in Hlen; lia|].
  exists c, pre. exact Hs.
Qed.

(** A text in which no tag starts anywhere is left as it is. *)
Lemma replace_tags_nothing s :
  (forall pre u, s = pre ++ u -> Spec.tag u = None) ->
  Spec.replace_tags s = s.
Proof.
  unfold Spec.replace_tags. induction s as [|c t IH]; intros Hno; [reflexivity|].
  cbn [Spec.substitute]. rewrite (Hno [] (c :: t) eq_refl). f_equal.
  apply IH. intros pre u Hu. apply (Hno (c :: pre) u). rewrite Hu. reflexivity.
Qed.

Lemma no_tag_without_gt s :
  ~ In ch_gt s -> forall pre u, s = pre ++ u -> Spec.tag u = None.
Proof.
  intros Hgt pre u Hs. destruct (Spec.tag u) as [r|] eqn:Ht; [|reflexivity].
  exfalso. apply Hgt. rewrite Hs. apply in_or_app. right.
  apply (tag_needs_gt _ _ Ht).
Qed.

Lemma after_gt_None s : Spec.after_gt s = None -> ~ In ch_gt s.
Proof.
  induction s as [|c t IH]; cbn [Spec.after_gt]; [intros _ []|].
  destruct (N.eqb_spec c ch_gt) as [->|Hne]; [discriminate|].
  intros Hn [Heq|Hin]; [congruence|apply (IH Hn Hin)].
Qed.

Lemma replace_tags_no_tag_upto n :
  forall s, length s <= n ->
    forall pre u, Spec.replace_tags s = pre ++ u -> Spec.tag u = None.
Proof.
  unfold Spec.replace_tags.
  induction n as [|n IH]; intros [|c t] Hlen pre u Hu;
    try (simpl in Hlen; lia).
  - destruct pre; [|discriminate]. cbn [app Spec.substitute] in Hu. subst u. reflexivity.
  - destruct pre; [|discriminate]. cbn [app Spec.substitute] in Hu. subst u. reflexivity.
  - destruct (Spec.tag (c :: t)) as [rest|] eqn:Ht.
    + destruct (tag_shorter _ _ Ht) as (c' & mid & Hs).
      injection Hs as <- ->.
      rewrite (substitute_match Spec.tag [space] c mid rest Ht) in Hu.
      cbn [app] in Hu.
      destruct pre as [|x pre]; cbn [app] in Hu.
      * subst u. apply tag_needs_lt. reflexivity.
      * injection Hu as _ Hu. apply (IH rest) with (pre := pre); [|exact Hu].
        simpl in Hlen. rewrite length_app in Hlen. lia.
    + cbn [Spec.substitute] in Hu. rewrite Ht in Hu.
      destruct pre as [|x pre]; cbn [app] in Hu.
      2:{ injection Hu as _ Hu.
          apply (IH t) with (pre := pre); [simpl in Hlen; lia|exact Hu]. }
      subst u.
      destruct (N.eqb_spec c ch_lt) as [->|Hne];
        [|apply tag_needs_lt, N.eqb_neq, Hne].
      destruct t as [|d t']; [reflexivity|].
      destruct (N.eqb_spec d ch_gt) as [->|Hd].
      * pose proof (tag_needs_lt ch_gt t' eq_refl) as Hg.
        cbn [Spec.substitute]. rewrite Hg. reflexivity.
      * assert (Hnone : Spec.after_gt t' = None).
        { unfold Spec.tag in Ht. rewrite N.eqb_refl in Ht.
          apply N.eqb_neq in Hd. rewrite Hd in Ht. exact Ht. }
        assert (Hgt : ~ In ch_gt (d :: t')).
        { intros [Heq|Hin]; [congruence|apply (after_gt_None _ Hnone Hin)]. }
        pose proof (replace_tags_nothing _ (no_tag_without_gt _ Hgt)) as Hid.
        unfold Spec.replace_tags in Hid. rewrite Hid. exact Ht.
Qed.

(** X16. After the tag replacement no tag is left anywhere in the text,
    so that replacing the tags once more changes nothing. *)
Theorem no_tag_left (s : jsstring) :
  (forall pre u, replace re_tag [space] s = pre ++ u -> exec_at re_tag u = None)
  /\ replace re_tag [space] (replace re_tag [space] s) = replace re_tag [space] s.
Proof.
  assert (Hno : forall pre u, Spec.replace_tags s = pre ++ u -> Spec.tag u = None)
    by (apply (replace_tags_no_tag_upto (length s)); lia).
  split.
  - intros pre u Hu. rewrite exec_at_tag. rewrite replace_tag in Hu.
    apply (Hno pre u Hu).
  - rewrite !replace_tag. apply replace_tags_nothing, Hno.
Qed.

(** * The CSV export *)

Lemma exec_at_quote s :
  exec_at Csv.re_quote s
  = match s with
    | c :: t => if N.eqb c dquote then Some t else None
    | [] => None
    end.
Proof.
  unfold exec_at, Csv.re_quote. cbn [source ignoreCase].
  destruct s as [|c t]; [reflexivity|].
  rewrite match_here_one. unfold atom_matches, canonicalize. cbn [andb match_here].
  rewrite N.eqb_sym. reflexivity.
Qed.

(** The replacement doubles every double quote and changes nothing else. *)
Lemma replace_quote_doubles s :
  replace Csv.re_quote [dquote; dquote] s
  = flat_map (fun c => if N.eqb c dquote then [dquote; dquote] else [c]) s.
Proof.
  rewrite replace_substitute by (vm_compute; lia).
  induction s as [|c t IH]; [reflexivity|].
  cbn [Spec.substitute flat_map]. rewrite exec_at_quote.
  destruct (N.eqb c dquote).
  - rewrite Nat.sub_diag, IH. reflexivity.
  - rewrite IH. reflexivity.
Qed.

Lemma read_quoted_doubled s rest :
  match rest with c :: _ => N.eqb c dquote = false | [] => True end ->
  Csv.read_quoted
    (flat_map (fun c => if N.eqb c dquote then [dquote; dquote] else [c]) s
     ++ dquote :: rest)
  = Some (s, rest).
Proof.
  intros Hrest. induction s as [|c t IH].
  - cbn [flat_map app Csv.read_quoted]. rewrite N.eqb_refl.
    destruct rest as [|d rest']; [reflexivity|]. rewrite Hrest. reflexivity.
  - cbn [flat_map]. destruct (N.eqb c dquote) eqn:Hc.
    + apply N.eqb_eq in Hc. subst c.
      cbn [app Csv.read_quoted]. rewrite N.eqb_refl, IH. reflexivity.
    + cbn [app Csv.read_quoted]. rewrite Hc, IH. reflexivity.
Qed.

(** X17. A quoted cell can be read back: what follows its opening quote,
    read as CSV (two quotes stand for one, a single quote closes the cell),
    is the text of the field, or the empty text for a missing field, and
    leaves what comes after the cell.  Two fields with different texts
    therefore never give the same cell. *)
Theorem quoted_cell_reads_back (x : option jsstring) (rest : jsstring) :
  match rest with c :: _ => N.eqb c dquote = false | [] => True end ->
  (exists inside,
     Csv.quoted_cell x ++ rest = dquote :: inside
     /\ Csv.read_quoted inside = Some (Csv.or_empty x, rest))
  /\ forall y, Csv.quoted_cell x = Csv.quoted_cell y ->
               Csv.or_empty x = Csv.or_empty y.
Proof.
  intros Hrest.
  assert (Hread : forall z r,
             match r with c :: _ => N.eqb c dquote = false | [] => True end ->
             exists inside,
               Csv.quoted_cell z ++ r = dquote :: inside
               /\ Csv.read_quoted inside = Some (Csv.or_empty z, r)).
  { intros z r Hr. unfold Csv.quoted_cell. rewrite replace_quote_doubles.
    eexists. split.
    - cbn [app]. rewrite <- app_assoc. reflexivity.
    - cbn [app]. apply read_quoted_doubled, Hr. }
  split; [apply Hread, Hrest|].
  intros y Heq.
  destruct (Hread x [] I) as (ix & Hx & Hrx).
  destruct (Hread y [] I) as (iy & Hy & Hry).
  rewrite Heq, Hy in Hx. injection Hx as <-.
  rewrite Hrx in Hry. injection Hry as Hxy. exact Hxy.
Qed.

Lemma quoted_cell_reads_back_witness :
  exists inside,
    Csv.quoted_cell (Some (str "a, b")) ++ str ",x" = dquote :: inside
    /\ Csv.read_quoted inside = Some (str "a, b", str ",x").
Proof.
  apply (proj1 (quoted_cell_reads_back (Some (str "a, b")) (str ",x") eq_refl)).
Defined.

(** * The comparison of heading arrays *)

Lemma valid_item_nonempty item : Headings.valid_item item = true -> item <> [].
Proof. destruct item; [discriminate|discriminate]. Qed.

Lemma skipn_nth_error {A} (l : list A) i x :
  nth_error l i = Some x -> skipn i l = x :: skipn (S i) l.
Proof.
  revert i. induction l as [|y l IH]; intros [|i]; cbn [nth_error skipn];
    try discriminate.
  - intros [= ->]. reflexivity.
  - intros Hn. rewrite (IH i Hn). reflexivity.
Qed.

Lemma skipn_nth_error_None {A} (l : list A) i :
  nth_error l i = None -> skipn i l = [].
Proof. intros Hn. apply skipn_all2, nth_error_None, Hn. Qed.

Lemma heading_rows context suggested :
  Forall (fun item => item <> []) suggested ->
  forall current i,
    Headings.rows
      (Headings.map_index
         (fun currentItem index =>
            match nth_error suggested index with
            | Some (c :: t) =>
                Some (Headings.mkRow currentItem (c :: t)
                        (Headings.explanation context index))
            | _ => None
            end) i current)
    = Headings.map_index
        (fun pair index =>
           Headings.mkRow (fst pair) (snd pair) (Headings.explanation context index))
        i (combine current (skipn i suggested)).
Proof.
  intros Hs. induction current as [|a current IH]; intros i; [reflexivity|].
  cbn [Headings.map_index Headings.rows flat_map].
  fold (Headings.rows). rewrite IH.
  destruct (nth_error suggested i) as [[|c t]|] eqn:Hn.
  - exfalso. rewrite Forall_forall in Hs.
    apply (Hs [] (nth_error_In _ _ Hn)). reflexivity.
  - rewrite (skipn_nth_error _ _ _ Hn). reflexivity.
  - rewrite (skipn_nth_error_None _ _ Hn).
    rewrite (skipn_all2 suggested) by (apply nth_error_None in Hn; lia).
    cbn [app]. destruct current; reflexivity.
Qed.

Lemma map_index_length {A B} (f : A -> nat -> B) l :
  forall i, length (Headings.map_index f i l) = length l.
Proof.
  induction l as [|x l IH]; intros i; [reflexivity|].
  cbn [Headings.map_index length]. rewrite IH. reflexivity.
Qed.

Lemma map_index_columns context l :
  forall i,
    map (fun r => (Headings.row_current r, Headings.row_suggested r))
        (Headings.map_index
           (fun pair index =>
              Headings.mkRow (fst pair) (snd pair) (Headings.explanation context index))
           i l)
    = l.
Proof.
  induction l as [|[a b] l IH]; intros i; [reflexivity|].
  cbn [Headings.map_index map Headings.row_current Headings.row_suggested fst snd].
  rewrite IH. reflexivity.
Qed.

(** X19. The comparison renders nothing when no current item is valid.
    Otherwise it has one child per valid current item, and the rows among
    the children pair, in order, the valid current items with the valid
    suggested items, as far as both go; the explanation of a row is the
    context at the position of the row among the valid items.  No row shows
    an empty text or "Non defini" on either side. *)
Theorem heading_rows_pair_valid_items (current suggested context : option (list jsstring)) :
  let validCurrent := filter Headings.valid_item (Headings.or_default current) in
  let validSuggested := filter Headings.valid_item (Headings.or_default suggested) in
  match Headings.HeadingArrayComparison current suggested context with
  | None => validCurrent = []
  | Some children =>
      validCurrent <> []
      /\ length children = length validCurrent
      /\ Headings.rows children
         = Headings.map_index
             (fun pair index =>
                Headings.mkRow (fst pair) (snd pair)
                  (Headings.explanation (Headings.or_default context) index))
             0 (combine validCurrent validSuggested)
      /\ map (fun r => (Headings.row_current r, Headings.row_suggested r))
             (Headings.rows children)
         = combine validCurrent validSuggested
      /\ Forall (fun r => Headings.valid_item (Headings.row_current r) = true
                          /\ Headings.valid_item (Headings.row_suggested r) = true)
                (Headings.rows children)
  end.
Proof.
  intros vc vs. unfold Headings.HeadingArrayComparison. fold vc. fold vs.
  destruct (Nat.eqb_spec (length vc) 0) as [Hzero|Hpos];
    [apply length_zero_iff_nil, Hzero|].
  cbv beta iota.
  match goal with |- context [length ?ch = length vc] => set (children := ch) end.
  assert (Hne : Forall (fun item => item <> []) vs).
  { apply Forall_forall. intros x Hx. apply filter_In in Hx.
    apply valid_item_nonempty, Hx. }
  assert (Hrows : Headings.rows children
                  = Headings.map_index
                      (fun pair index =>
                         Headings.mkRow (fst pair) (snd pair)
                           (Headings.explanation (Headings.or_default context) index))
                      0 (combine vc vs)).
  { exact (heading_rows (Headings.or_default context) vs Hne vc 0). }
  split; [intros Hnil; apply Hpos; rewrite Hnil; reflexivity|].
  split; [apply map_index_length|].
  split; [exact Hrows|].
  rewrite Hrows.
  pose proof (map_index_columns (Headings.or_default context) (combine vc vs) 0)
    as Hcols.
  split; [exact Hcols|].
  apply Forall_forall. intros r Hr.
  assert (Hin : In (Headings.row_current r, Headings.row_suggested r) (combine vc vs)).
  { rewrite <- Hcols. apply in_map_iff. exists r. split; [reflexivity|exact Hr]. }
  split.
  - apply in_combine_l in Hin. apply filter_In in Hin. apply Hin.
  - apply in_combine_r in Hin. apply filter_In in Hin. apply Hin.
Qed.

(** * The toggle of the table *)

Lemma table_get_with_key_same st id v : Table.get (Table.with_key st id v) id = Some v.
Proof.
  induction st as [|[k v'] st IH]; cbn [Table.with_key Table.get].
  - rewrite N.eqb_refl. reflexivity.
  - destruct (N.eqb id k) eqn:He; cbn [Table.get]; rewrite He; [reflexivity|exact IH].
Qed.

Lemma table_get_with_key_other st id j v :
  j <> id -> Table.get (Table.with_key st id v) j = Table.get st j.
Proof.
  intros Hne. induction st as [|[k v'] st IH]; cbn [Table.with_key Table.get].
  - apply N.eqb_neq in Hne. rewrite Hne. reflexivity.
  - destruct (N.eqb_spec id k) as [->|Hk]; cbn [Table.get].
    + apply N.eqb_neq in Hne. rewrite Hne. reflexivity.
    + rewrite IH. reflexivity.
Qed.

(** X20. Toggling an identifier flips whether its advanced analysis is
    shown and leaves every other identifier as it was; toggling it twice
    shows exactly what was shown before. *)
Theorem toggle_flips_one (st : Table.state) (id : N) :
  Table.shown (Table.toggleAdvanced st id) id = negb (Table.shown st id)
  /\ (forall j, j <> id ->
        Table.shown (Table.toggleAdvanced st id) j = Table.shown st j)
  /\ (forall j,
        Table.shown (Table.toggleAdvanced (Table.toggleAdvanced st id) id) j
        = Table.shown st j).
Proof.
  assert (Hsame : forall s, Table.shown (Table.toggleAdvanced s id) id
                            = negb (Table.shown s id)).
  { intros s. unfold Table.toggleAdvanced, Table.shown at 1.
    rewrite table_get_with_key_same. reflexivity. }
  assert (Hother : forall s j, j <> id ->
             Table.shown (Table.toggleAdvanced s id) j = Table.shown s j).
  { intros s j Hne. unfold Table.toggleAdvanced, Table.shown at 1 3.
    rewrite table_get_with_key_other by exact Hne. reflexivity. }
  split; [apply Hsame|]. split; [apply Hother|].
  intros j. destruct (N.eq_dec j id) as [->|Hne].
  - rewrite !Hsame. apply negb_involutive.
  - rewrite !Hother by exact Hne. reflexivity.
Qed.

(** * The list of exports by company *)

Lemma lookup_assign_same {A} (o : list (jsstring * A)) k v :
  lookup k (Companies.assign o k v) = Some v.
Proof.
  induction o as [|[k' v'] o IH]; cbn [Companies.assign lookup].
  - rewrite jsstring_eqb_refl. reflexivity.
  - destruct (jsstring_eqb k k') eqn:He; cbn [lookup]; rewrite He;
      [reflexivity|exact IH].
Qed.

Lemma lookup_assign_other {A} (o : list (jsstring * A)) k k' v :
  k <> k' -> lookup k (Companies.assign o k' v) = lookup k o.
Proof.
  intros Hne. induction o as [|[k'' v''] o IH]; cbn [Companies.assign lookup].
  - apply jsstring_eqb_neq in Hne. rewrite Hne. reflexivity.
  - destruct (jsstring_eqb k' k'') eqn:He; cbn [lookup].
    + apply jsstring_eqb_eq in He. subst k''.
      rewrite (proj2 (jsstring_eqb_neq _ _) Hne). reflexivity.
    + rewrite IH. reflexivity.
Qed.

Lemma lookup_None_keys {A} (o : list (jsstring * A)) k :
  lookup k o = None -> ~ In k (map fst o).
Proof.
  induction o as [|[k' v'] o IH]; cbn [lookup map fst]; [intros _ []|].
  destruct (jsstring_eqb k k') eqn:He; [discriminate|].
  apply jsstring_eqb_neq in He. intros Hl [Heq|Hin]; [congruence|apply (IH Hl Hin)].
Qed.

Lemma lookup_Some_In {A} (o : list (jsstring * A)) k v :
  lookup k o = Some v -> In (k, v) o.
Proof.
  induction o as [|[k' v'] o IH]; cbn [lookup]; [discriminate|].
  destruct (jsstring_eqb k k') eqn:He.
  - apply jsstring_eqb_eq in He. subst k'. intros [= ->]. left. reflexivity.
  - intros Hl. right. apply IH, Hl.
Qed.

Lemma assign_keys_NoDup {A} (o : list (jsstring * A)) k v :
  NoDup (map fst o) -> NoDup (map fst (Companies.assign o k v)).
Proof.
  intros Hnd.
  destruct (lookup k o) as [x|] eqn:Hl.
  - assert (Hsame : map fst (Companies.assign o k v) = map fst o).
    { clear Hnd. revert Hl. induction o as [|[k' v'] o IH];
        cbn [lookup Companies.assign map fst]; [discriminate|].
      destruct (jsstring_eqb k k'); [reflexivity|].
      intros Hl. cbn [map fst]. rewrite IH by exact Hl. reflexivity. }
    rewrite Hsame. exact Hnd.
  - assert (Happ : map fst (Companies.assign o k v) = map fst o ++ [k]).
    { clear Hnd. revert Hl. induction o as [|[k' v'] o IH];
        cbn [lookup Companies.assign map fst app]; [reflexivity|].
      destruct (jsstring_eqb k k'); [discriminate|].
      intros Hl. cbn [map fst]. rewrite IH by exact Hl. reflexivity. }
    rewrite Happ. apply NoDup_app; [exact Hnd|repeat constructor; intros []|].
    intros x Hx [<-|[]]. apply (lookup_None_keys _ _ Hl Hx).
Qed.

Lemma company_members_snoc k seen item :
  company_members k (seen ++ [item])
  = company_members k seen
    ++ (if negb (Companies.archived item)
           && jsstring_eqb (Companies.company_key item) k
        then [item] else []).
Proof. unfold company_members. rewrite filter_app. reflexivity. Qed.

Lemma company_members_snoc_other k seen item :
  Companies.archived item = true \/ Companies.company_key item <> k ->
  company_members k (seen ++ [item]) = company_members k seen.
Proof.
  intros Hcase. rewrite company_members_snoc.
  destruct Hcase as [Ha|Hk].
  - rewrite Ha. cbn [negb andb]. apply app_nil_r.
  - apply jsstring_eqb_neq in Hk. rewrite Hk, andb_false_r. apply app_nil_r.
Qed.

Lemma company_members_snoc_same seen item :
  Companies.archived item = false ->
  company_members (Companies.company_key item) (seen ++ [item])
  = company_members (Companies.company_key item) seen ++ [item].
Proof.
  intros Ha. rewrite company_members_snoc, Ha, jsstring_eqb_refl. reflexivity.
Qed.

(** One step of the grouping keeps the groups in line with the analyses
    read, and fails exactly on an analysis that breaks the grouping. *)
Lemma group_step_groups acc seen item :
  groups_of acc seen -> NoDup (map fst acc) ->
  if breaks_grouping item
  then Companies.group_step acc item = Rejected Companies.push_not_a_function
  else exists acc',
      Companies.group_step acc item = Resolved acc'
      /\ groups_of acc' (seen ++ [item]) /\ NoDup (map fst acc').
Proof.
  intros Hinv Hnd. unfold breaks_grouping, Companies.group_step.
  set (k0 := Companies.company_key item).
  pose proof (Hinv k0) as Hk0.
  assert (Hkeep : groups_of acc seen -> Companies.archived item = true ->
                  groups_of acc (seen ++ [item])).
  { intros Hi Ha k. specialize (Hi k).
    rewrite company_members_snoc_other by (left; exact Ha). exact Hi. }
  assert (Hput : forall items,
             Companies.archived item = false \/ items = [] ->
             (Companies.archived item = false -> items = company_members k0 seen ++ [item]) ->
             (Companies.archived item = true -> company_members k0 seen = []) ->
             Companies.inherited_in_browser k0 = false ->
             groups_of (Companies.assign acc k0 items) (seen ++ [item])).
  { intros items Hor Hitems Hempty Hinh k.
    destruct (list_eq_dec N.eq_dec k k0) as [->|Hne].
    - rewrite lookup_assign_same. split; [|exact Hinh].
      destruct (Companies.archived item) eqn:Ha.
      + rewrite company_members_snoc_other by (left; exact Ha).
        destruct Hor as [Hf | ->]; [discriminate|]. symmetry. apply Hempty. reflexivity.
      + fold k0. unfold k0 at 1. rewrite company_members_snoc_same by exact Ha.
        apply Hitems. reflexivity.
    - rewrite lookup_assign_other by exact Hne. specialize (Hinv k).
      rewrite company_members_snoc_other by (right; fold k0; congruence).
      exact Hinv. }
  destruct (lookup k0 acc) as [items|] eqn:Hl.
  - destruct Hk0 as [Hitems Hinh]. rewrite Hinh, andb_false_r.
    destruct (Companies.archived item) eqn:Ha.
    + exists acc. split; [reflexivity|]. split; [apply Hkeep; auto|exact Hnd].
    + eexists. split; [reflexivity|]. split; [|apply assign_keys_NoDup, Hnd].
      apply Hput; [left; reflexivity| |discriminate|exact Hinh].
      intros _. rewrite Hitems. reflexivity.
  - destruct (Companies.inherited_in_browser k0) eqn:Hinh.
    + destruct (Companies.archived item) eqn:Ha; cbn [negb andb]; [|reflexivity].
      exists acc. split; [reflexivity|]. split; [apply Hkeep; auto|exact Hnd].
    + rewrite andb_false_r.
      destruct (Companies.archived item) eqn:Ha.
      * eexists. split; [reflexivity|]. split; [|apply assign_keys_NoDup, Hnd].
        apply Hput; [right; reflexivity|discriminate|intros _; exact Hk0|reflexivity].
      * eexists. split; [reflexivity|]. split; [|apply assign_keys_NoDup, Hnd].
        apply Hput; [left; reflexivity| |discriminate|reflexivity].
        intros _. rewrite Hk0. reflexivity.
Qed.

Lemma reduce_groups data :
  forall acc seen,
    groups_of acc seen -> NoDup (map fst acc) ->
    if existsb breaks_grouping data
    then Companies.reduce acc data = Rejected Companies.push_not_a_function
    else exists g,
        Companies.reduce acc data = Resolved g
        /\ groups_of g (seen ++ data) /\ NoDup (map fst g).
Proof.
  induction data as [|item data IH]; intros acc seen Hinv Hnd.
  - cbn [existsb Companies.reduce]. exists acc. rewrite app_nil_r. auto.
  - cbn [existsb Companies.reduce].
    pose proof (group_step_groups acc seen item Hinv Hnd) as Hstep.
    destruct (breaks_grouping item); cbn [orb].
    + rewrite Hstep. reflexivity.
    + destruct Hstep as (acc' & -> & Hinv' & Hnd').
      specialize (IH acc' (seen ++ [item]) Hinv' Hnd').
      rewrite <- app_assoc in IH. exact IH.
Qed.

Lemma groups_of_nil : groups_of [] [].
Proof. intros k. reflexivity. Qed.

(** X21. The grouping fails, with [push] not being a function, exactly
    when some analysis that is not archived has a company that reads as the
    name of a property every object inherits.  Otherwise the groups have
    distinct names, each group holds, in their order, exactly the analyses
    of that company that are not archived, and a name without a group has
    none. *)
Theorem companies_grouped (seoData : list Companies.Analysis) :
  if existsb breaks_grouping seoData
  then Companies.companiesData seoData = Rejected Companies.push_not_a_function
  else exists g,
      Companies.companiesData seoData = Resolved g
      /\ NoDup (map fst g)
      /\ forall k,
           lookup k g = Some (company_members k seoData)
           \/ (lookup k g = None /\ company_members k seoData = []).
Proof.
  unfold Companies.companiesData.
  pose proof (reduce_groups seoData [] [] groups_of_nil (NoDup_nil _)) as Hr.
  destruct (existsb breaks_grouping seoData); [exact Hr|].
  destruct Hr as (g & Hg & Hinv & Hnd). cbn [app] in Hinv.
  exists g. split; [exact Hg|]. split; [exact Hnd|].
  intros k. specialize (Hinv k).
  destruct (lookup k g) as [items|].
  - left. destruct Hinv as [-> _]. reflexivity.
  - right. split; [reflexivity|exact Hinv].
Qed.

Lemma companies_grouped_aux (seoData : list Companies.Analysis) g :
  Companies.companiesData seoData = Resolved g ->
  NoDup (map fst g)
  /\ forall k,
       lookup k g = Some (company_members k seoData)
       \/ (lookup k g = None /\ company_members k seoData = []).
Proof.
  unfold Companies.companiesData. intros Hg.
  pose proof (reduce_groups seoData [] [] groups_of_nil (NoDup_nil _)) as Hr.
  destruct (existsb breaks_grouping seoData); [congruence|].
  destruct Hr as (g' & Hg' & Hinv & Hnd). cbn [app] in Hinv.
  rewrite Hg in Hg'. injection Hg' as <-.
  split; [exact Hnd|].
  intros k. specialize (Hinv k).
  destruct (lookup k g) as [items|].
  - left. destruct Hinv as [-> _]. reflexivity.
  - right. split; [reflexivity|exact Hinv].
Qed.

Lemma companies_entries_Permutation {A} (o : list (jsstring * A)) :
  Permutation (Companies.entries o) o.
Proof.
  unfold Companies.entries.
  assert (Hidx : Permutation
                   (map snd (fold_right
                               (fun e acc =>
                                  match array_index (fst e) with
                                  | Some n => insert_index n e acc
                                  | None => acc
                                  end) [] o))
                   (filter (fun e => match array_index (fst e) with
                                     | Some _ => true | None => false end) o)).
  { induction o as [|e o IH]; [reflexivity|].
    cbn [fold_right filter].
    destruct (array_index (fst e)) as [n|]; [|exact IH].
    rewrite insert_index_Permutation. cbn [map snd]. constructor. exact IH. }
  rewrite Hidx.
  rewrite <- (filter_split_Permutation
                (fun e : jsstring * A =>
                   match array_index (fst e) with Some _ => true | None => false end) o)
    at 3.
  apply Permutation_app_head.
  assert (Hext : forall l : list (jsstring * A),
             filter (fun e => match array_index (fst e) with
                              | Some _ => false | None => true end) l
             = filter (fun x => negb match array_index (fst x) with
                                     | Some _ => true | None => false end) l).
  { intros l. apply filter_ext. intros e. destruct (array_index (fst e)); reflexivity. }
  rewrite Hext. reflexivity.
Qed.

Lemma NoDup_map_filter {A B} (f : A -> B) (p : A -> bool) l :
  NoDup (map f l) -> NoDup (map f (filter p l)).
Proof.
  induction l as [|x l IH]; cbn [map filter]; [constructor|].
  intros Hnd. apply NoDup_cons_iff in Hnd. destruct Hnd as [Hx Hnd].
  destruct (p x); [|apply IH, Hnd].
  cbn [map]. constructor; [|apply IH, Hnd].
  intros Hin. apply Hx. apply in_map_iff in Hin.
  destruct Hin as (y & Hy & Hin). apply filter_In in Hin.
  apply in_map_iff. exists y. split; [exact Hy|apply Hin].
Qed.

(** X22. Whatever the collation, when the grouping succeeds the companies
    displayed have distinct names, and a name is displayed with a list of
    analyses exactly when that list is not empty and is the list of the
    analyses of that company that are not archived. *)
Theorem companies_displayed (localeCompare : jsstring -> jsstring -> number)
        (seoData : list Companies.Analysis) (g : Companies.groups) :
  Companies.companiesData seoData = Resolved g ->
  NoDup (map fst (Companies.sortedCompanies localeCompare g))
  /\ forall k items,
       In (k, items) (Companies.sortedCompanies localeCompare g)
       <-> items = company_members k seoData /\ items <> [].
Proof.
  intros Hg. pose proof (companies_grouped_aux seoData g Hg) as [Hnd Hinv].
  unfold Companies.sortedCompanies.
  set (sorted := sort _ (Companies.entries g)).
  assert (Hperm : Permutation sorted g).
  { unfold sorted. rewrite sort_Permutation. apply companies_entries_Permutation. }
  split.
  - apply NoDup_map_filter.
    apply (Permutation_NoDup (Permutation_map fst (Permutation_sym Hperm))), Hnd.
  - intros k items. rewrite filter_In. cbn [snd]. split.
    + intros [Hin Hlen]. apply (Permutation_in _ Hperm) in Hin.
      apply (In_lookup _ _ _ Hnd) in Hin.
      destruct (Hinv k) as [Hk|[Hk _]]; [|congruence].
      rewrite Hk in Hin. injection Hin as <-.
      split; [reflexivity|]. apply Nat.ltb_lt in Hlen.
      intros Hnil. rewrite Hnil in Hlen. simpl in Hlen. lia.
    + intros [-> Hne]. split.
      * apply (Permutation_in _ (Permutation_sym Hperm)).
        destruct (Hinv k) as [Hk|[_ Hk]]; [|contradiction].
        apply lookup_Some_In, Hk.
      * apply Nat.ltb_lt. destruct (company_members k seoData); [congruence|simpl; lia].
Qed.

Lemma companies_displayed_witness :
  let first := Companies.mkAnalysis 1 (Some (str " Acme ")) false in
  let data := [first; Companies.mkAnalysis 2 None true] in
  let g := [(str "Acme", [first]); (Companies.default_company, [])] in
  let by_nothing := fun _ _ : jsstring => Num 0 in
  NoDup (map fst (Companies.sortedCompanies by_nothing g))
  /\ forall k items,
       In (k, items) (Companies.sortedCompanies by_nothing g)
       <-> items = company_members k data /\ items <> [].
Proof.
  intros first data g by_nothing.
  apply (companies_displayed by_nothing data g). reflexivity.
Defined.

(** ** Archiving and deleting *)

Lemma company_members_archive_local data c k :
  company_members k (Companies.archive_local data c)
  = filter (fun item => negb (company_is c item)) (company_members k data).
Proof.
  unfold company_members, Companies.archive_local, company_is.
  induction data as [|[i co a] data IH]; [reflexivity|].
  cbn [map filter Companies.company Companies.archived Companies.ident].
  destruct co as [x|].
  - destruct (jsstring_eqb x c) eqn:Hx;
      cbn [Companies.archived Companies.company negb andb].
    + rewrite IH.
      destruct (negb a && jsstring_eqb
                  (Companies.company_key (Companies.mkAnalysis i (Some x) a)) k);
        cbn [filter Companies.company]; [rewrite Hx|]; reflexivity.
    + rewrite IH.
      destruct (negb a && jsstring_eqb
                  (Companies.company_key (Companies.mkAnalysis i (Some x) a)) k);
        cbn [filter Companies.company]; [rewrite Hx|]; reflexivity.
  - cbn [Companies.archived]. rewrite IH.
    destruct (negb a && jsstring_eqb
                (Companies.company_key (Companies.mkAnalysis i None a)) k);
      cbn [filter Companies.company negb]; reflexivity.
Qed.

Lemma company_members_delete_local data c k :
  company_members k (Companies.delete_local data c)
  = filter (fun item => negb (company_is c item)) (company_members k data).
Proof.
  unfold company_members, Companies.delete_local, company_is.
  induction data as [|item data IH]; [reflexivity|].
  cbn [filter].
  destruct (Companies.company item) as [x|] eqn:Hco.
  - destruct (jsstring_eqb x c) eqn:Hx; cbn [negb].
    + rewrite IH.
      destruct (negb (Companies.archived item)
                && jsstring_eqb (Companies.company_key item) k);
        cbn [filter]; [rewrite Hco, Hx|]; reflexivity.
    + cbn [filter]. rewrite IH.
      destruct (negb (Companies.archived item)
                && jsstring_eqb (Companies.company_key item) k);
        cbn [filter]; [rewrite Hco, Hx|]; reflexivity.
  - cbn [filter]. rewrite IH.
    destruct (negb (Companies.archived item)
              && jsstring_eqb (Companies.company_key item) k);
      cbn [filter]; [rewrite Hco|]; reflexivity.
Qed.

(** X23. Archiving and deleting a company act alike on what is listed:
    after either update of the local state, every company keeps, of its
    analyses that are not archived, those whose [company] field is not
    exactly the name given.  So the company named disappears from the list
    when all its listed analyses carry exactly that name, and an analysis
    whose field only trims to that name stays listed. *)
Theorem archive_and_delete_unlist (seoData : list Companies.Analysis) (c k : jsstring) :
  company_members k (Companies.archive_local seoData c)
  = filter (fun item => negb (company_is c item)) (company_members k seoData)
  /\ company_members k (Companies.delete_local seoData c)
     = filter (fun item => negb (company_is c item)) (company_members k seoData)
  /\ (Forall (fun item => company_is c item = true) (company_members k seoData) ->
      company_members k (Companies.archive_local seoData c) = []
      /\ company_members k (Companies.delete_local seoData c) = []).
Proof.
  split; [apply company_members_archive_local|].
  split; [apply company_members_delete_local|].
  intros Hall.
  rewrite company_members_archive_local, company_members_delete_local.
  assert (Hnil : filter (fun item => negb (company_is c item))
                        (company_members k seoData) = []).
  { induction Hall as [|x l Hx _ IH]; [reflexivity|].
    cbn [filter]. rewrite Hx. exact IH. }
  rewrite Hnil. split; reflexivity.
Qed.

(** X24. The local state changes only when everything succeeded.  An
    archive whose update reports an error leaves the state as it was.  A
    delete leaves it as it was unless the user confirmed, the select found
    at least one row and the delete reported no error; only then is the
    success toast shown, and then no analysis with exactly that company is
    left while every other analysis is kept, in order.  Without
    confirmation there is no toast at all. *)
Theorem state_changes_on_success (seoData : list Companies.Analysis) (c : jsstring)
        (confirmed : bool) (selected : awaited (option (list N)))
        (delete_error : bool) :
  let done := confirmed
              && match selected with
                 | Resolved (Some (_ :: _)) => negb delete_error
                 | _ => false
                 end in
  Companies.handleArchive true seoData c = (seoData, Companies.Failed)
  /\ Companies.handleArchive false seoData c
     = (Companies.archive_local seoData c, Companies.Succeeded)
  /\ Companies.handleDelete confirmed selected delete_error seoData c
     = (if done then Companies.delete_local seoData c else seoData,
        if done then Companies.Succeeded
        else if confirmed then Companies.Failed else Companies.NoToast)
  /\ Forall (fun item => company_is c item = false) (Companies.delete_local seoData c)
  /\ Companies.delete_local seoData c
     = filter (fun item => negb (company_is c item)) seoData
  /\ length (Companies.archive_local seoData c) = length seoData.
Proof.
  intros done. subst done.
  split; [reflexivity|]. split; [reflexivity|].
  assert (Hfilter : Companies.delete_local seoData c
                    = filter (fun item => negb (company_is c item)) seoData).
  { unfold Companies.delete_local, company_is. apply filter_ext.
    intros item. destruct (Companies.company item); reflexivity. }
  split; [|split; [|split; [exact Hfilter|apply length_map]]].
  - unfold Companies.handleDelete.
    destruct confirmed; cbn [negb andb]; [|reflexivity].
    destruct selected as [[[|x l]|]|m]; try reflexivity.
    destruct delete_error; reflexivity.
  - rewrite Hfilter. apply Forall_forall. intros item Hin.
    apply filter_In in Hin. destruct Hin as [_ Hc].
    apply negb_true_iff, Hc.
Qed.

(** * The export reads back *)

Lemma read_plain_cell text rest :
  CsvReader.plain text = true -> CsvReader.after_cell rest ->
  CsvReader.read_plain (text ++ rest) = (text, rest).
Proof.
  intros Hp Hrest. induction text as [|c t IH].
  - destruct rest as [|c rest]; [reflexivity|].
    cbn [app CsvReader.read_plain]. cbn [CsvReader.after_cell] in Hrest.
    destruct Hrest as [-> | ->]; [reflexivity|].
    rewrite orb_true_r. reflexivity.
  - cbn [CsvReader.plain forallb] in Hp. apply andb_prop in Hp.
    destruct Hp as [Hc Ht]. apply negb_true_iff in Hc.
    apply orb_false_elim in Hc. destruct Hc as [Hc _].
    cbn [app CsvReader.read_plain]. rewrite Hc, (IH Ht). reflexivity.
Qed.

Lemma after_cell_not_quote rest :
  CsvReader.after_cell rest ->
  match rest with c :: _ => N.eqb c dquote = false | [] => True end.
Proof.
  destruct rest as [|c rest]; [trivial|]. cbn [CsvReader.after_cell].
  unfold CsvReader.is_comma, CsvReader.is_newline, dquote.
  intros [Hc|Hc]; apply N.eqb_eq in Hc; subst c; reflexivity.
Qed.

Lemma read_cell_encoded cell rest :
  CsvReader.encodes cell -> CsvReader.after_cell rest ->
  CsvReader.read_cell (fst cell ++ rest) = Some (snd cell, rest).
Proof.
  intros [[Hfst Hplain]|(x & Hfst & Hsnd)] Hrest; rewrite Hfst.
  - pose proof (read_plain_cell _ _ Hplain Hrest) as Hread.
    unfold CsvReader.read_cell.
    destruct (snd cell ++ rest) as [|c t] eqn:Hs.
    + apply app_eq_nil in Hs. destruct Hs as [-> ->]. reflexivity.
    + assert (Hq : N.eqb c dquote = false).
      { destruct (snd cell) as [|d text].
        - cbn [app] in Hs. subst rest. apply (after_cell_not_quote _ Hrest).
        - cbn [app] in Hs. injection Hs as -> _.
          cbn [CsvReader.plain forallb] in Hplain. apply andb_prop in Hplain.
          destruct Hplain as [Hc _]. apply negb_true_iff in Hc.
          apply orb_false_elim in Hc. apply Hc. }
      rewrite Hq, Hread. reflexivity.
  - rewrite Hsnd. unfold Csv.quoted_cell. rewrite replace_quote_doubles.
    cbn [app CsvReader.read_cell]. rewrite N.eqb_refl, <- app_assoc.
    cbn [app]. apply read_quoted_doubled, after_cell_not_quote, Hrest.
Qed.

Lemma read_table_after_comma fuel cell text rest acc :
  CsvReader.read_cell (cell ++ Csv.comma ++ rest) = Some (text, Csv.comma ++ rest) ->
  CsvReader.read_table (S fuel) (cell ++ Csv.comma ++ rest) acc
  = CsvReader.read_table fuel rest (acc ++ [text]).
Proof. intros Hread. cbn [CsvReader.read_table]. rewrite Hread. reflexivity. Qed.

Lemma read_table_after_newline fuel cell text rest acc :
  CsvReader.read_cell (cell ++ Csv.newline ++ rest) = Some (text, Csv.newline ++ rest) ->
  CsvReader.read_table (S fuel) (cell ++ Csv.newline ++ rest) acc
  = match CsvReader.read_table fuel rest [] with
    | Some rows => Some ((acc ++ [text]) :: rows)
    | None => None
    end.
Proof. intros Hread. cbn [CsvReader.read_table]. rewrite Hread. reflexivity. Qed.

Lemma read_table_at_end fuel cell text acc :
  CsvReader.read_cell cell = Some (text, []) ->
  CsvReader.read_table (S fuel) cell acc = Some [acc ++ [text]].
Proof. intros Hread. cbn [CsvReader.read_table]. rewrite Hread. reflexivity. Qed.

(** A row of cells, read with enough fuel for its cells. *)
Lemma read_table_row cells :
  cells <> [] -> Forall CsvReader.encodes cells ->
  forall acc fuel,
    length cells <= fuel ->
    CsvReader.read_table fuel (Csv.join Csv.comma (map fst cells)) acc
    = Some [acc ++ map snd cells]
    /\ forall more,
        CsvReader.read_table fuel
          (Csv.join Csv.comma (map fst cells) ++ Csv.newline ++ more) acc
        = match CsvReader.read_table (fuel - length cells) more [] with
          | Some rows => Some ((acc ++ map snd cells) :: rows)
          | None => None
          end.
Proof.
  induction cells as [|cell cells IH]; [congruence|].
  intros _ Henc acc fuel Hfuel.
  apply Forall_cons_iff in Henc. destruct Henc as [Hcell Hcells].
  destruct fuel as [|fuel]; [simpl in Hfuel; lia|].
  destruct cells as [|cell2 cells].
  - cbn [map Csv.join length]. split.
    + apply read_table_at_end.
      rewrite <- (app_nil_r (fst cell)).
      apply (read_cell_encoded cell [] Hcell I).
    + intros more. replace (S fuel - 1) with fuel by lia.
      apply read_table_after_newline.
      apply (read_cell_encoded cell _ Hcell). right. reflexivity.
  - assert (Hne : cell2 :: cells <> []) by discriminate.
    assert (Hlen : length (cell2 :: cells) <= fuel) by (simpl in *; lia).
    change (Csv.join Csv.comma (map fst (cell :: cell2 :: cells)))
      with (fst cell ++ Csv.comma ++ Csv.join Csv.comma (map fst (cell2 :: cells))).
    change (map snd (cell :: cell2 :: cells))
      with ([snd cell] ++ map snd (cell2 :: cells)).
    rewrite (app_assoc acc [snd cell]).
    change (S fuel - length (cell :: cell2 :: cells))
      with (fuel - length (cell2 :: cells)).
    destruct (IH Hne Hcells (acc ++ [snd cell]) fuel Hlen) as [Hrow Hmore].
    split.
    + rewrite <- Hrow. apply read_table_after_comma.
      apply (read_cell_encoded cell _ Hcell). left. reflexivity.
    + intros more. rewrite <- Hmore, <- !app_assoc.
      apply read_table_after_comma.
      apply (read_cell_encoded cell _ Hcell). left. reflexivity.
Qed.

Lemma join_cons sep x y l :
  Csv.join sep (x :: y :: l) = x ++ sep ++ Csv.join sep (y :: l).
Proof. reflexivity. Qed.

Lemma join_length sep l :
  l <> [] ->
  S (length (Csv.join sep l))
  = fold_right (fun x n => length x + n) 0 l + length sep * (length l - 1) + 1.
Proof.
  induction l as [|x l IH]; [congruence|]. intros _.
  destruct l as [|y l].
  - cbn [Csv.join fold_right length]. lia.
  - rewrite join_cons, !length_app.
    assert (Hne : y :: l <> []) by discriminate.
    specialize (IH Hne). cbn [fold_right length] in *. lia.
Qed.

Lemma join_length_cells l :
  length l <= S (length (Csv.join Csv.comma l)).
Proof.
  destruct l as [|x l]; [simpl; lia|].
  rewrite join_length by discriminate.
  change (length Csv.comma) with 1. lia.
Qed.

(** Rows of cells, read with enough fuel for all the cells. *)
Lemma read_table_rows rows :
  rows <> [] ->
  Forall (fun r => r <> [] /\ Forall CsvReader.encodes r) rows ->
  forall fuel,
    length (concat rows) <= fuel ->
    CsvReader.read_table fuel
      (Csv.join Csv.newline (map (fun r => Csv.join Csv.comma (map fst r)) rows)) []
    = Some (map (map snd) rows).
Proof.
  induction rows as [|r rows IH]; [congruence|].
  intros _ Hrows fuel Hfuel.
  apply Forall_cons_iff in Hrows. destruct Hrows as [[Hne Henc] Hrows].
  cbn [concat] in Hfuel. rewrite length_app in Hfuel.
  destruct rows as [|r2 rows].
  - cbn [map Csv.join].
    destruct (read_table_row r Hne Henc [] fuel) as [Hrow _]; [lia|].
    rewrite Hrow. reflexivity.
  - cbn [map]. rewrite join_cons.
    destruct (read_table_row r Hne Henc [] fuel) as [_ Hmore]; [lia|].
    rewrite Hmore.
    change (Csv.join Csv.comma (map fst r2)
            :: map (fun r0 => Csv.join Csv.comma (map fst r0)) rows)
      with (map (fun r0 => Csv.join Csv.comma (map fst r0)) (r2 :: rows)).
    rewrite IH; [reflexivity|discriminate|exact Hrows|lia].
Qed.

Lemma rows_fit_content rows :
  rows <> [] ->
  length (concat rows)
  <= S (length (Csv.join Csv.newline
                  (map (fun r : list (jsstring * jsstring) =>
                          Csv.join Csv.comma (map fst r)) rows))).
Proof.
  intros Hne. rewrite join_length by (destruct rows; [congruence|discriminate]).
  assert (Hsum : length (concat rows) + length rows
                 <= fold_right (fun x n => length x + n) 0
                      (map (fun r : list (jsstring * jsstring) =>
                              Csv.join Csv.comma (map fst r)) rows)
                    + 2 * length rows).
  { clear Hne. induction rows as [|r rows IH]; [simpl; lia|].
    cbn [concat map fold_right length]. rewrite length_app.
    pose proof (join_length_cells (map fst r)) as Hr.
    rewrite length_map in Hr. lia. }
  rewrite length_map. change (length Csv.newline) with 1.
  destruct rows; [congruence|]. cbn [length] in *. lia.
Qed.

(** The written cells of a row of the export, each with its text. *)
Lemma export_row_encoded row :
  CsvReader.plain_fields row = true ->
  exists cells,
    map fst cells = Csv.row_cells row
    /\ map snd cells = CsvReader.row_texts row
    /\ cells <> [] /\ Forall CsvReader.encodes cells.
Proof.
  intros Hp. unfold CsvReader.plain_fields in Hp.
  apply andb_prop in Hp. destruct Hp as [Hp Hspeed].
  apply andb_prop in Hp. destruct Hp as [Hurl Hcompany].
  exists [ (Csv.or_empty (Csv.url row), Csv.or_empty (Csv.url row));
           (Csv.or_empty (Csv.company row), Csv.or_empty (Csv.company row));
           (Csv.quoted_cell (Csv.current_title row), Csv.or_empty (Csv.current_title row));
           (Csv.quoted_cell (Csv.current_description row),
            Csv.or_empty (Csv.current_description row));
           (Csv.quoted_cell (Csv.current_h1 row), Csv.or_empty (Csv.current_h1 row));
           (Csv.quoted_cell (Csv.suggested_title row),
            Csv.or_empty (Csv.suggested_title row));
           (Csv.quoted_cell (Csv.suggested_description row),
            Csv.or_empty (Csv.suggested_description row));
           (Csv.quoted_cell (Csv.suggested_h1 row), Csv.or_empty (Csv.suggested_h1 row));
           (Csv.page_load_speed_cell row, Csv.page_load_speed_cell row) ].
  split; [reflexivity|]. split; [reflexivity|]. split; [discriminate|].
  repeat (apply Forall_cons;
          [first [left; split; [reflexivity|assumption]
                 |right; eexists; split; reflexivity]|]).
  apply Forall_nil.
Qed.

Lemma export_header_encoded :
  exists cells,
    map fst cells = Csv.headers /\ map snd cells = Csv.headers
    /\ cells <> [] /\ Forall CsvReader.encodes cells.
Proof.
  exists (map (fun h => (h, h)) Csv.headers).
  split; [rewrite map_map; apply map_id|].
  split; [rewrite map_map; apply map_id|].
  split; [discriminate|].
  apply Forall_forall. intros cell Hin. left.
  apply in_map_iff in Hin. destruct Hin as (h & <- & Hh).
  split; [reflexivity|]. cbn [snd].
  assert (Hall : forallb CsvReader.plain Csv.headers = true) by (vm_compute; reflexivity).
  rewrite forallb_forall in Hall. apply Hall, Hh.
Qed.

Lemma export_rows_encoded data :
  Forall (fun row => CsvReader.plain_fields row = true) data ->
  exists rows,
    map (fun r => Csv.join Csv.comma (map fst r)) rows
    = map (fun row => Csv.join Csv.comma (Csv.row_cells row)) data
    /\ map (map snd) rows = map CsvReader.row_texts data
    /\ Forall (fun r => r <> [] /\ Forall CsvReader.encodes r) rows.
Proof.
  induction 1 as [|row data Hrow _ (rows & Hfst & Hsnd & Henc)].
  - exists []. repeat split. constructor.
  - destruct (export_row_encoded row Hrow) as (cells & Hc1 & Hc2 & Hne & Hcenc).
    exists (cells :: rows). cbn [map]. rewrite Hc1, Hc2, Hfst, Hsnd.
    split; [reflexivity|]. split; [reflexivity|].
    constructor; [split; assumption|exact Henc].
Qed.

(** X18. Nothing is exported for an empty list.  Otherwise the content
    exported reads back, as CSV, as the row of the nine headers followed by
    one row per analysis, in order, with the texts of its nine fields (the
    empty text for a missing one) - provided that the three fields written
    without quotes, the url, the company and the load speed, have no comma,
    line feed or double quote in them.  The six quoted fields may hold
    anything. *)
Theorem export_reads_back (data : list Csv.SEOAnalysis) :
  Forall (fun row => CsvReader.plain_fields row = true) data ->
  match Csv.downloadTableAsCSV (Some data) with
  | None => data = []
  | Some content =>
      data <> []
      /\ CsvReader.read_csv content
         = Some (Csv.headers :: map CsvReader.row_texts data)
  end.
Proof.
  intros Hplain.
  assert (Hread : CsvReader.read_csv (Csv.csvContent data)
                  = Some (Csv.headers :: map CsvReader.row_texts data)).
  { destruct export_header_encoded as (hcells & Hh1 & Hh2 & Hhne & Hhenc).
    destruct (export_rows_encoded data Hplain) as (rows & Hfst & Hsnd & Henc).
    unfold CsvReader.read_csv, Csv.csvContent.
    rewrite <- Hh1 at 1 2. rewrite <- Hfst.
    change (Csv.join Csv.comma (map fst hcells)
            :: map (fun r => Csv.join Csv.comma (map fst r)) rows)
      with (map (fun r => Csv.join Csv.comma (map fst r)) (hcells :: rows)).
    rewrite read_table_rows.
    - cbn [map]. rewrite Hh2, Hsnd. reflexivity.
    - discriminate.
    - constructor; [split; assumption|exact Henc].
    - apply rows_fit_content. discriminate. }
  destruct data as [|row data]; [reflexivity|].
  cbn [Csv.downloadTableAsCSV]. split; [discriminate|exact Hread].
Qed.

Lemma export_reads_back_witness :
  let row := Csv.mkSEOAnalysis (Some (str "https://example.org/")) None
               (Some (str "Home, sweet home")) None (Some (str "H1"))
               None None None (str "1.2") in
  match Csv.downloadTableAsCSV (Some [row]) with
  | None => [row] = []
  | Some content =>
      [row] <> []
      /\ CsvReader.read_csv content
         = Some (Csv.headers :: map CsvReader.row_texts [row])
  end.
Proof.
  intros row. apply (export_reads_back [row]).
  constructor; [reflexivity|constructor].
Defined.

Lemma archive_and_delete_unlist_witness :
  let data := [Companies.mkAnalysis 1 (Some (str "Acme")) false;
               Companies.mkAnalysis 2 (Some (str "Other")) false] in
  company_members (str "Acme") (Companies.archive_local data (str "Acme")) = []
  /\ company_members (str "Acme") (Companies.delete_local data (str "Acme")) = [].
Proof.
  intros data.
  apply (proj2 (proj2 (archive_and_delete_unlist data (str "Acme") (str "Acme")))).
  vm_compute. constructor; [reflexivity|constructor].
Defined.

(** * Ties and the order of first occurrence *)

Lemma index_entries_none o :
  forallb (fun e : jsstring * value => negb (is_index_key e)) o = true ->
  index_entries o = [].
Proof.
  induction o as [|e o IH]; [reflexivity|].
  cbn [forallb]. intros Hall. apply andb_prop in Hall. destruct Hall as [He Ho].
  unfold index_entries. cbn [fold_right]. fold (index_entries o).
  unfold is_index_key in He. destruct (array_index (fst e)); [discriminate|].
  apply IH, Ho.
Qed.

Lemma filter_all {A} (p : A -> bool) l : forallb p l = true -> filter p l = l.
Proof.
  induction l as [|x l IH]; [reflexivity|].
  cbn [forallb filter]. intros Hall. apply andb_prop in Hall.
  destruct Hall as [-> Hl]. rewrite (IH Hl). reflexivity.
Qed.

(** Without array-index names, [Object.entries] follows the creation order. *)
Lemma Object_entries_creation_order o :
  forallb (fun e : jsstring * value => negb (is_index_key e)) o = true ->
  Object_entries o = o.
Proof.
  intros Hall. unfold Object_entries.
  rewrite (index_entries_none o Hall). cbn [map app]. apply filter_all, Hall.
Qed.

Lemma filter_map_swap {A B} (f : A -> B) (p : B -> bool) (q : A -> bool) l :
  (forall x, In x l -> p (f x) = q x) ->
  filter p (map f l) = map f (filter q l).
Proof.
  induction l as [|x l IH]; intros Hpq; [reflexivity|].
  cbn [map filter]. rewrite (Hpq x (or_introl eq_refl)).
  rewrite IH by (intros y Hy; apply Hpq; right; exact Hy).
  destruct (q x); reflexivity.
Qed.

Lemma entry_count_occurrences ws k v :
  forallb (fun w => negb (inherited w)) ws = true ->
  In (k, v) (wordFrequency ws) ->
  v = VNumber (Z.of_nat (occurrences k ws)).
Proof.
  intros Hws Hin.
  assert (Hlen : 3 < length k).
  { pose proof (wordFrequency_long_key ws) as Hk.
    rewrite Forall_forall in Hk. apply (Hk _ Hin). }
  assert (Hinh : inherited k = false).
  { assert (Hk : In k ws).
    { apply (in_map fst) in Hin. rewrite wordFrequency_first_seen in Hin.
      apply first_seen_In in Hin. apply Hin. }
    rewrite forallb_forall in Hws. apply negb_true_iff, (Hws _ Hk). }
  pose proof (In_lookup _ _ _ (wordFrequency_NoDup ws) Hin) as Hl.
  rewrite (wordFrequency_tally ws k Hlen Hinh) in Hl.
  destruct (occurrences k ws); cbn [tally] in Hl; [discriminate|].
  injection Hl as <-. reflexivity.
Qed.

(** X25. When no word of the document names an inherited property or is
    the decimal text of an array index, the returned keywords that share a
    count come in the order in which the words first occur in the text:
    they are the first of the words with that number of occurrences. *)
Theorem ties_in_order_of_first_occurrence `{Runtime} (html : jsstring) (c : nat) :
  forallb (fun w => negb (inherited w)) (words html) = true ->
  forallb (fun w => match array_index w with Some _ => false | None => true end)
          (words html) = true ->
  exists cut,
    filter (fun w => occurrences w (words html) =? c) (first_seen [] (words html))
    = map keyword
        (filter (fun e => (count_number e =? Z.of_nat c)%Z)
                (keywordDensity (analyze html)))
      ++ cut.
Proof.
  intros Hws Hidx. set (ws := words html) in *.
  assert (Hkeys : forallb (fun e : jsstring * value => negb (is_index_key e))
                          (wordFrequency ws) = true).
  { apply forallb_forall. intros [k v] Hin. unfold is_index_key. cbn [fst].
    assert (Hk : In k ws).
    { apply (in_map fst) in Hin. rewrite wordFrequency_first_seen in Hin.
      apply first_seen_In in Hin. apply Hin. }
    rewrite forallb_forall in Hidx. specialize (Hidx _ Hk).
    destruct (array_index k); [discriminate|reflexivity]. }
  cbn [analyze keywordDensity]. fold ws. rewrite rank_sorted_all.
  rewrite (Object_entries_creation_order _ Hkeys).
  set (all := map _ (wordFrequency ws)).
  exists (map keyword (filter (fun e => (count_number e =? Z.of_nat c)%Z)
                              (skipn 20 (sort by_count_desc all)))).
  rewrite <- map_app, <- filter_firstn_skipn.
  rewrite (sort_stable by_count_desc count_number (Z.of_nat c) all).
  2:{ intros x y Hx Hy. unfold all in Hx, Hy.
      rewrite <- (Object_entries_creation_order _ Hkeys) in Hx, Hy.
      apply (comparator_follows_counts _ _ _ _ Hws Hx Hy). }
  unfold all.
  rewrite (filter_map_swap _ _
             (fun e : jsstring * value => occurrences (fst e) ws =? c)).
  2:{ intros [k v] Hin. cbn [fst snd]. unfold count_number. cbn [count].
      rewrite (entry_count_occurrences ws k v Hws Hin).
      destruct (Nat.eqb_spec (occurrences k ws) c) as [->|Hne].
      - apply Z.eqb_refl.
      - apply Z.eqb_neq. lia. }
  rewrite map_map. cbn [keyword].
  rewrite <- wordFrequency_first_seen.
  rewrite <- (filter_map_swap fst (fun w => occurrences w ws =? c)
                (fun e : jsstring * value => occurrences (fst e) ws =? c))
    by reflexivity.
  reflexivity.
Qed.

Lemma ties_in_order_of_first_occurrence_witness :
  exists cut,
    filter (fun w => occurrences w (@words (ascii_runtime []) doc_hello) =? 1)
           (first_seen [] (@words (ascii_runtime []) doc_hello))
    = map keyword
        (filter (fun e => (count_number e =? Z.of_nat 1)%Z)
                (keywordDensity (@analyze (ascii_runtime []) doc_hello)))
      ++ cut.
Proof.
  apply (@ties_in_order_of_first_occurrence (ascii_runtime []) doc_hello 1);
    vm_compute; reflexivity.
Defined.

(** * The words of a plain ASCII text *)

Lemma tokens_from_map (f : char16 -> char16) s :
  (forall c, is_space (f c) = is_space c) ->
  forall cur,
    Spec.tokens_from (map f cur) (map f s) = map (map f) (Spec.tokens_from cur s).
Proof.
  intros Hf.
  assert (Hrev : forall l, rev (map f l) = map f (rev l))
    by (intros l; symmetry; apply map_rev).
  induction s as [|c t IH]; intros cur.
  - cbn [map Spec.tokens_from].
    destruct cur as [|x cur]; [reflexivity|].
    change (map f (x :: cur)) with (f x :: map f cur).
    cbv iota. change (f x :: map f cur) with (map f (x :: cur)).
    rewrite Hrev. reflexivity.
  - change (map f (c :: t)) with (f c :: map f t).
    cbn [Spec.tokens_from]. rewrite Hf. destruct (is_space c).
    + destruct cur as [|x cur]; [apply (IH [])|].
      change (map f (x :: cur)) with (f x :: map f cur).
      cbv iota. change (f x :: map f cur) with (map f (x :: cur)).
      rewrite Hrev. change (map f []) with (@nil char16) in IH.
      cbn [map]. f_equal. apply (IH []).
    + apply (IH (c :: cur)).
Qed.

Lemma tokens_from_trailing s sp :
  forallb is_space sp = true ->
  forall cur, Spec.tokens_from cur (s ++ sp) = Spec.tokens_from cur s.
Proof.
  intros Hsp.
  assert (Hbase : forall cur, Spec.tokens_from cur sp = Spec.tokens_from cur []).
  { induction sp as [|c sp IH]; intros cur; [reflexivity|].
    cbn [forallb] in Hsp. apply andb_prop in Hsp. destruct Hsp as [Hc Hsp].
    cbn [Spec.tokens_from]. rewrite Hc.
    destruct cur; rewrite (IH Hsp); reflexivity. }
  induction s as [|c t IH]; intros cur; [apply Hbase|].
  cbn [app Spec.tokens_from]. destruct (is_space c).
  - destruct cur; rewrite IH; reflexivity.
  - apply IH.
Qed.

Lemma trimStart_spaces s :
  exists pre, forallb is_space pre = true /\ s = pre ++ trimStart s.
Proof.
  induction s as [|c t (pre & Hpre & Hs)]; [exists []; split; reflexivity|].
  cbn [trimStart]. destruct (is_space c) eqn:Hc.
  - exists (c :: pre). cbn [forallb app]. rewrite Hc, Hpre. split; [reflexivity|].
    f_equal. exact Hs.
  - exists []. split; reflexivity.
Qed.

Lemma tokens_trim s : Spec.tokens (trim s) = Spec.tokens s.
Proof.
  unfold Spec.tokens, trim, trimEnd.
  rewrite (tokens_from_trimStart s).
  destruct (trimStart_spaces (rev (trimStart s))) as (pre & Hpre & Hrev).
  assert (Hs : trimStart s = rev (trimStart (rev (trimStart s))) ++ rev pre).
  { rewrite <- rev_app_distr, <- Hrev, rev_involutive. reflexivity. }
  rewrite Hs at 2. rewrite tokens_from_trailing; [reflexivity|].
  apply forallb_forall. intros x Hx. apply in_rev in Hx.
  rewrite forallb_forall in Hpre. apply Hpre, Hx.
Qed.

Lemma tokens_from_collapse s :
  (forall cur, Spec.tokens_from cur (Spec.collapse false s) = Spec.tokens_from cur s)
  /\ Spec.tokens_from [] (Spec.collapse true s) = Spec.tokens_from [] s.
Proof.
  induction s as [|c t [IHf IHt]]; [split; reflexivity|].
  cbn [Spec.collapse]. destruct (is_space c) eqn:Hc.
  - split.
    + intros cur. cbn [Spec.tokens_from]. rewrite Hc.
      change (is_space space) with true. cbv iota.
      destruct cur; rewrite IHt; reflexivity.
    + cbn [Spec.tokens_from]. rewrite Hc. exact IHt.
  - split.
    + intros cur. cbn [Spec.tokens_from]. rewrite Hc. apply IHf.
    + cbn [Spec.tokens_from]. rewrite Hc. apply IHf.
Qed.

Lemma collapse_ascii s :
  forallb is_ascii s = true ->
  forall b, forallb is_ascii (Spec.collapse b s) = true.
Proof.
  induction s as [|c t IH]; intros Hs b; [reflexivity|].
  cbn [forallb] in Hs. apply andb_prop in Hs. destruct Hs as [Hc Ht].
  cbn [Spec.collapse]. destruct (is_space c).
  - destruct b; [apply IH, Ht|]. cbn [forallb]. rewrite (IH Ht). reflexivity.
  - cbn [forallb]. rewrite Hc, (IH Ht). reflexivity.
Qed.

Lemma trim_ascii s : forallb is_ascii s = true -> forallb is_ascii (trim s) = true.
Proof.
  assert (Hstart : forall u, forallb is_ascii u = true ->
                             forallb is_ascii (trimStart u) = true).
  { intros u Hu. destruct (trimStart_spaces u) as (pre & _ & Hpre).
    rewrite Hpre, forallb_app in Hu. apply andb_prop in Hu. apply Hu. }
  assert (Hrev : forall u, forallb is_ascii u = true -> forallb is_ascii (rev u) = true).
  { intros u Hu. apply forallb_forall. intros x Hx. apply in_rev in Hx.
    rewrite forallb_forall in Hu. apply Hu, Hx. }
  intros Hs. unfold trim, trimEnd. auto.
Qed.

Lemma ascii_lower_space c : is_space (ascii_lower c) = is_space c.
Proof.
  unfold ascii_lower.
  destruct (N.leb_spec 0x41 c); cbn [andb]; [|reflexivity].
  destruct (N.leb_spec c 0x5A); cbn [andb]; [|reflexivity].
  unfold is_space. split_N_tests; reflexivity.
Qed.

(** X26. For an ASCII document without any [<] that has at least one
    token, the words are the tokens of the document itself (its maximal
    runs of code units that are not white space), in order, with the
    letters A to Z lower-cased; [totalWords] is their number. *)
Theorem ascii_text_words `{Runtime} (html : jsstring) :
  forallb is_ascii html = true ->
  forallb (fun c => negb (N.eqb c ch_lt)) html = true ->
  Spec.tokens html <> [] ->
  words html = map (map ascii_lower) (Spec.tokens html)
  /\ totalWords (analyze html) = length (Spec.tokens html).
Proof.
  intros Hascii Hlt Htok.
  assert (Hsame : replace re_tag [space]
                    (replace re_script [] (replace re_style [] html)) = html).
  { rewrite replace_style. unfold Spec.remove_blocks.
    rewrite substitute_without_lt by (auto using block_needs_lt).
    rewrite replace_script. unfold Spec.remove_blocks.
    rewrite substitute_without_lt by (auto using block_needs_lt).
    rewrite replace_tag. unfold Spec.replace_tags.
    apply substitute_without_lt; auto using tag_needs_lt. }
  assert (Hv : visibleText html
               = map ascii_lower (trim (Spec.collapse_spaces html))).
  { unfold visibleText. rewrite Hsame, replace_spaces.
    apply toLowerCase_ascii, trim_ascii, collapse_ascii, Hascii. }
  assert (Htokens : Spec.tokens (visibleText html)
                    = map (map ascii_lower) (Spec.tokens html)).
  { rewrite Hv. unfold Spec.tokens at 1.
    rewrite (tokens_from_map ascii_lower _ ascii_lower_space []).
    fold (Spec.tokens (trim (Spec.collapse_spaces html))).
    rewrite tokens_trim. unfold Spec.tokens, Spec.collapse_spaces.
    rewrite (proj1 (tokens_from_collapse html)). reflexivity. }
  assert (Hne : visibleText html <> []).
  { intros Hnil. rewrite Hnil in Htokens. cbn in Htokens.
    destruct (Spec.tokens html); [congruence|discriminate]. }
  assert (Hw : words html = Spec.tokens (visibleText html)).
  { unfold words. apply split_spaces_tokens; [exact Hne|apply visibleText_trimmed]. }
  split.
  - rewrite Hw. exact Htokens.
  - cbn [analyze totalWords]. rewrite Hw, Htokens. apply length_map.
Qed.

Lemma ascii_text_words_witness :
  @words (ascii_runtime []) (str "  The quick  BROWN fox ")
  = map (map ascii_lower) (Spec.tokens (str "  The quick  BROWN fox "))
  /\ totalWords (@analyze (ascii_runtime []) (str "  The quick  BROWN fox "))
     = length (Spec.tokens (str "  The quick  BROWN fox ")).
Proof.
  apply (@ascii_text_words (ascii_runtime []) (str "  The quick  BROWN fox "));
    [reflexivity|reflexivity|vm_compute; discriminate].
Defined.

(** * A style or script element is removed whole *)

Lemma substitute_prefix_without_lt at_ by_ (before s : jsstring) :
  (forall (c : char16) (t : jsstring), N.eqb c ch_lt = false -> at_ (c :: t) = None) ->
  forallb (fun c => negb (N.eqb c ch_lt)) before = true ->
  Spec.substitute at_ by_ 0 (before ++ s) = before ++ Spec.substitute at_ by_ 0 s.
Proof.
  intros Hat. induction before as [|c t IH]; [reflexivity|].
  cbn [forallb app Spec.substitute]. intros Hb.
  apply andb_prop in Hb. destruct Hb as [Hc Hb]. apply negb_true_iff in Hc.
  rewrite (Hat c (t ++ s) Hc), (IH Hb). reflexivity.
Qed.

Lemma starts_with_ci_app w opening rest :
  Spec.starts_with_ci w opening = Some [] ->
  Spec.starts_with_ci w (opening ++ rest) = Some rest.
Proof.
  revert opening. induction w as [|a w IH]; intros opening; cbn [Spec.starts_with_ci].
  - intros [= ->]. reflexivity.
  - destruct opening as [|c opening]; [discriminate|].
    cbn [app]. destruct (Spec.same_letter a c); [apply IH|discriminate].
Qed.

Lemma after_gt_app (attrs rest : jsstring) :
  forallb (fun c => negb (N.eqb c ch_gt)) attrs = true ->
  Spec.after_gt (attrs ++ ch_gt :: rest) = Some rest.
Proof.
  induction attrs as [|c t IH]; cbn [forallb app Spec.after_gt].
  - intros _. rewrite N.eqb_refl. reflexivity.
  - intros Ha. apply andb_prop in Ha. destruct Ha as [Hc Ht].
    apply negb_true_iff in Hc. rewrite Hc. apply IH, Ht.
Qed.

Lemma block_shorter name s rest :
  Spec.block name s = Some rest -> exists c pre, s = c :: pre ++ rest.
Proof.
  rewrite <- exec_at_block. intros Hr.
  match type of Hr with exec_at ?r _ = _ =>
    destruct (exec_at_shorter r s rest) as ([|c pre] & Hs & Hlen) end;
    [cbn [source map app min_length fold_right]; lia
    |exact Hr|simpl in Hlen; lia|].
  exists c, pre. exact Hs.
Qed.

Lemma element_removed name (before opening attrs inside after : jsstring) :
  forallb (fun c => negb (N.eqb c ch_lt)) before = true ->
  Spec.starts_with_ci (ch_lt :: name) opening = Some [] ->
  forallb (fun c => negb (N.eqb c ch_gt)) attrs = true ->
  Spec.after_first_ci (ch_lt :: Spec.slash :: name ++ [ch_gt]) inside = Some after ->
  Spec.remove_blocks name (before ++ opening ++ attrs ++ [ch_gt] ++ inside)
  = before ++ Spec.remove_blocks name after.
Proof.
  intros Hbefore Hopen Hattrs Hclose. unfold Spec.remove_blocks.
  rewrite substitute_prefix_without_lt
    by (auto using block_needs_lt).
  f_equal.
  assert (Hblock : Spec.block name (opening ++ attrs ++ [ch_gt] ++ inside) = Some after).
  { unfold Spec.block. rewrite (starts_with_ci_app _ _ _ Hopen).
    cbn [app]. rewrite (after_gt_app _ _ Hattrs). exact Hclose. }
  destruct (block_shorter _ _ _ Hblock) as (c & pre & Hs).
  rewrite Hs in Hblock |- *.
  apply (substitute_match (Spec.block name) [] c pre after Hblock).
Qed.

(** X27. A script element is removed whole and the removal goes on after
    it: when the text before it has no [<], the opening tag reads
    [<script] in any case and has no [>] among its attributes, and the first
    closing tag after it ends where [after] starts, then removing the
    scripts gives the text before followed by what the removal leaves of
    [after].  The same holds for a style element and the removal of the
    styles. *)
Theorem script_and_style_elements_removed
        (before opening attrs inside after : jsstring) :
  forallb (fun c => negb (N.eqb c ch_lt)) before = true ->
  forallb (fun c => negb (N.eqb c ch_gt)) attrs = true ->
  (Spec.starts_with_ci (str "<script") opening = Some [] ->
   Spec.after_first_ci (str "</script>") inside = Some after ->
   replace re_script [] (before ++ opening ++ attrs ++ [ch_gt] ++ inside)
   = before ++ replace re_script [] after)
  /\ (Spec.starts_with_ci (str "<style") opening = Some [] ->
      Spec.after_first_ci (str "</style>") inside = Some after ->
      replace re_style [] (before ++ opening ++ attrs ++ [ch_gt] ++ inside)
      = before ++ replace re_style [] after).
Proof.
  intros Hbefore Hattrs. split; intros Hopen Hclose.
  - rewrite !replace_script.
    apply (element_removed (str "script")); assumption.
  - rewrite !replace_style.
    apply (element_removed (str "style")); assumption.
Qed.

Lemma script_and_style_elements_removed_witness :
  replace re_script []
    (str "one " ++ str "<SCRIPT" ++ str " type='x'" ++ [ch_gt]
         ++ str "if (a < b) { run(); }</Script> two")
  = str "one " ++ replace re_script [] (str " two").
Proof.
  apply (proj1 (script_and_style_elements_removed
                  (str "one ") (str "<SCRIPT") (str " type='x'")
                  (str "if (a < b) { run(); }</Script> two") (str " two")
                  eq_refl eq_refl));
    reflexivity.
Defined.
